(** * GiJiRoKu: segmentation, resilient transcription and speaker remapping

    A shallow embedding of the parts of the pipeline that the specification
    talks about:

    - [src/services/transcription.py]   the per-segment retry loop and the
      repetition detector;
    - [src/modules/audio_splitter.py]   the silence-aware splitter;
    - [src/services/speaker_remapper.py] and
      [src/services/meeting_title_service.py]  the speaker rewrite, the
      mapping retrieval and the prompt truncation;
    - [src/modules/result_integrator.py], [src/modules/audio_processor.py] and
      [src/modules/transcriber.py]  clean-up and the single-entry wrapper.

    Part I holds the definitions (with the laws of the one instance of the
    audio interface), Part II the lemmas and theorems on the retry loop, the
    detector, the split plan, the requests, the rewrite and the clean-up,
    Part III further properties of the same code and of the functions
    around it: the tagging of speaker names, the export of the segments, the
    parsing of the mapping reply, the title file and the whole run of
    [AudioProcessor]. *)

From Stdlib Require Import ZArith NArith List Bool Lia Arith String Ascii.
From Stdlib Require Import DecimalString DecimalNat Sorted.
Import ListNotations.

Set Warnings "-register-all".

(* ===================================================================== *)
(** * Part I. Definitions                                                 *)
(* ===================================================================== *)

(** ** Python values used by the code *)

Module Py.

(** A Python [str] is a sequence of Unicode code points. *)
Definition char := N.
Definition str := list char.

Definition of_ascii (a : string) : str :=
  map N_of_ascii (list_ascii_of_string a).

Definition dquote : char := 34%N.
Definition backslash : char := 92%N.
Definition newline : char := 10%N.
Definition space : char := 32%N.
Definition colon : char := 58%N.

Definition char_eqb : char -> char -> bool := N.eqb.

Fixpoint str_eqb (a b : str) : bool :=
  match a, b with
  | [], [] => true
  | x :: a', y :: b' => char_eqb x y && str_eqb a' b'
  | _, _ => false
  end.

(** [str.isspace] on one code point; this is also what [\s] matches in a
    [str] pattern and what [str.split()] and [str.strip()] treat as
    whitespace. *)
Definition isspace (c : char) : bool :=
  ((9 <=? c) && (c <=? 13) || (28 <=? c) && (c <=? 32)
   || (c =? 133) || (c =? 160) || (c =? 5760)
   || (8192 <=? c) && (c <=? 8202)
   || (c =? 8232) || (c =? 8233) || (c =? 8239) || (c =? 8287)
   || (c =? 12288))%N.

(** [s.startswith(p)] *)
Fixpoint startswith (p s : str) : bool :=
  match p, s with
  | [], _ => true
  | x :: p', y :: s' => char_eqb x y && startswith p' s'
  | _ :: _, [] => false
  end.

(** [p in s] *)
Fixpoint contains (p s : str) : bool :=
  startswith p s ||
  match s with
  | [] => false
  | _ :: s' => contains p s'
  end.

(** Occurrences of a non-empty [p] counted from left to right without
    overlap; [skip] characters of the last occurrence are still to pass. *)
Fixpoint count_from (p : str) (skip : nat) (s : str) : nat :=
  match s with
  | [] => 0
  | _ :: s' =>
      match skip with
      | S k => count_from p k s'
      | O => if startswith p s
             then S (count_from p (List.length p - 1) s')
             else count_from p 0 s'
      end
  end.

(** [s.count(p)]: the empty pattern occurs [len(s) + 1] times. *)
Definition count (p s : str) : nat :=
  match p with
  | [] => S (List.length s)
  | _ => count_from p 0 s
  end.

(** The places where [p] occurs in [s], overlapping ones included. *)
Fixpoint occurrences (p s : str) : nat :=
  (if startswith p s then 1 else 0)
  + match s with
    | [] => 0
    | _ :: s' => occurrences p s'
    end.

(** [s.find(p, start)] for [0 <= start]: the first index [i >= start] at
    which [p] occurs, or [-1]. [find_at p s i] searches [s], whose first
    character has index [i]. *)
Fixpoint find_at (p s : str) (i : Z) : Z :=
  if startswith p s then i
  else match s with
       | [] => (-1)%Z
       | _ :: s' => find_at p s' (i + 1)
       end.

Definition find (p s : str) (start : Z) : Z :=
  if (Z.of_nat (List.length s) <? start)%Z then (-1)%Z
  else find_at p (skipn (Z.to_nat start) s) start.

(** [s[:k]] for [0 <= k] *)
Definition slice_to (s : str) (k : Z) : str := firstn (Z.to_nat k) s.

(** [p * n] *)
Fixpoint repeat_str (p : str) (n : nat) : str :=
  match n with
  | O => []
  | S k => p ++ repeat_str p k
  end.

(** [s.split()]: maximal runs of non-whitespace characters. [cur] is the
    word being read, in reverse. *)
Fixpoint split_from (cur : str) (s : str) : list str :=
  match s with
  | [] => match cur with [] => [] | _ => [rev cur] end
  | c :: s' =>
      if isspace c
      then match cur with
           | [] => split_from [] s'
           | _ => rev cur :: split_from [] s'
           end
      else split_from (c :: cur) s'
  end.

Definition split (s : str) : list str := split_from [] s.

(** [words.count(w)] on a list of strings *)
Fixpoint list_count (w : str) (ws : list str) : nat :=
  match ws with
  | [] => 0
  | x :: ws' => (if str_eqb x w then 1 else 0) + list_count w ws'
  end.

(** [sep.join(ws)] *)
Fixpoint join (sep : str) (ws : list str) : str :=
  match ws with
  | [] => []
  | [w] => w
  | w :: ws' => w ++ sep ++ join sep ws'
  end.

(** [s.lstrip()], [s.rstrip()], [s.strip()] *)
Fixpoint lstrip (s : str) : str :=
  match s with
  | [] => []
  | c :: s' => if isspace c then lstrip s' else s
  end.

Definition rstrip (s : str) : str := rev (lstrip (rev s)).
Definition strip (s : str) : str := rstrip (lstrip s).

(** [re.sub(r'\s+', ' ', s)]: every maximal run of whitespace becomes one
    space. [in_ws] tells that the previous character was whitespace. *)
Fixpoint collapse_ws (in_ws : bool) (s : str) : str :=
  match s with
  | [] => []
  | c :: s' =>
      if isspace c
      then if in_ws then collapse_ws true s' else space :: collapse_ws true s'
      else c :: collapse_ws false s'
  end.

(** Skip the whitespace matched by a greedy [\s*]. *)
Definition skip_ws : str -> str := lstrip.

(** Decimal digits of a number, as [str(n)] prints them. *)
Definition decimal (n : nat) : str :=
  of_ascii (NilEmpty.string_of_uint (Nat.to_uint n)).

(** The outcome of a call that may raise. *)
Inductive result (A : Type) : Type :=
| Ok (a : A)
| Raise (e : str).
Arguments Ok {A} a.
Arguments Raise {A} e.

Definition bind {A B} (r : result A) (k : A -> result B) : result B :=
  match r with
  | Ok a => k a
  | Raise e => Raise e
  end.

(** [try: body  except Exception: handler] *)
Definition try_except {A} (body : result A) (handler : str -> result A)
  : result A :=
  match body with
  | Ok a => Ok a
  | Raise e => handler e
  end.

End Py.

Notation "x <- c ;; k" := (Py.bind c (fun x => k))
  (at level 61, c at next level, right associativity).

(** ** [src/services/transcription.py] *)

Module Transcription.
Import Py.

(** *** The repetition detector *)

(** The literal the model sometimes echoes back. *)
Definition failure_marker : str := of_ascii "Take minutes of the meeting".

(** [problem_phrases]: the five filler phrases of the source, by code point
    (U+3046 U+3093 U+3002, U+306F U+3044 U+3002, U+3048 U+3048 U+3002,
    U+3042 U+306E U+3002, U+3048 U+30FC U+3002). *)
Definition problem_phrases : list str :=
  [ [12358; 12435; 12290]; [12399; 12356; 12290]; [12360; 12360; 12290];
    [12354; 12398; 12290]; [12360; 12540; 12290] ]%N.

(** The key of the utterance pattern, quotes included. *)
Definition utterance_key : str := dquote :: of_ascii "utterance" ++ [dquote].

(** The group of the utterance pattern followed by a closing quote or the end
    of the text: characters other than quote and backslash, and backslash
    pairs whose second character is not a newline. Returns the group and the
    number of characters consumed; [None] when the group stops at a
    backslash that ends the text or precedes a newline (no shorter group can
    then be followed by a quote or the end). *)
Fixpoint utterance_body (s : str) : option (str * nat) :=
  match s with
  | [] => Some ([], 0)
  | c :: s' =>
      if char_eqb c dquote then Some ([], 1)
      else if char_eqb c backslash then
        match s' with
        | [] => None
        | d :: s'' =>
            if char_eqb d newline then None
            else match utterance_body s'' with
                 | Some (g, n) => Some (c :: d :: g, S (S n))
                 | None => None
                 end
        end
      else match utterance_body s' with
           | Some (g, n) => Some (c :: g, S n)
           | None => None
           end
  end.

(** One match of the utterance pattern at the head of [s]: the key, optional
    whitespace, a colon, optional whitespace, an opening quote, the group. *)
Definition match_utterance (s : str) : option (str * nat) :=
  if startswith utterance_key s then
    let r1 := skipn (List.length utterance_key) s in
    let r2 := skip_ws r1 in
    match r2 with
    | c :: r3 =>
        if char_eqb c colon then
          let r4 := skip_ws r3 in
          match r4 with
          | d :: r5 =>
              if char_eqb d dquote then
                match utterance_body r5 with
                | Some (g, n) =>
                    Some (g, List.length s - List.length r5 + n)
                | None => None
                end
              else None
          | [] => None
          end
        else None
    | [] => None
    end
  else None.

(** [re.findall] of the utterance pattern: the groups of the matches found
    from left to right, each search resuming where the last match ended. *)
Fixpoint findall_from (skip : nat) (s : str) : list str :=
  match s with
  | [] => []
  | _ :: s' =>
      match skip with
      | S k => findall_from k s'
      | O => match match_utterance s with
             | Some (g, n) => g :: findall_from (n - 1) s'
             | None => findall_from 0 s'
             end
      end
  end.

Definition findall_utterances (text : str) : list str := findall_from 0 text.

(** The test made on one [word] of [words] in the word loop. *)
Definition word_repeated (words : list str) (word : str) : bool :=
  negb (List.length word <=? 1) && (80 <=? list_count word words).

Definition phrase_repeated (utterance phrase : str) : bool :=
  70 <=? count phrase utterance.

Definition _check_single_utterance_repetition (utterance : str) : bool :=
  let words := split utterance in
  if existsb (word_repeated words) words then true
  else existsb (phrase_repeated utterance) problem_phrases.

Definition phrase_floods (text phrase : str) : bool :=
  (2 <=? List.length phrase) &&
  (contains (repeat_str phrase 70) text || (200 <=? count phrase text)).

Definition _check_whole_text_repetition (text : str) : bool :=
  existsb (phrase_floods text) problem_phrases.

Definition is_problematic_transcription (text : str) : bool :=
  match text with
  | [] => false
  | _ =>
      if contains failure_marker text then true
      else if existsb _check_single_utterance_repetition
                (findall_utterances text) then true
      else _check_whole_text_repetition text
  end.

(** *** The per-segment loop of [_process_with_gemini] *)

(** What one call of [gemini_api.transcribe_audio] gives: a text, [None], or
    an exception. *)
Inductive api_reply : Type :=
| Reply (raw : option str)
| ApiError (e : str).

(** The collaborators of the loop. [transcribe_audio n file] is the reply to
    the call number [n] (counted from 0 over the whole run), made for [file].
    [add_speaker_identifier] and [path_name] stand for the tagging function
    and for [Path(...).name], whose results the loop only stores. *)
Record Env : Type := {
  transcribe_audio : nat -> str -> api_reply;
  add_speaker_identifier : str -> str -> str;
  path_name : str -> str
}.

Record State : Type := {
  calls : nat;
  has_reached_max_retries : bool
}.

Definition called (st : State) : State :=
  {| calls := S (calls st);
     has_reached_max_retries := has_reached_max_retries st |}.

Definition flagged (st : State) : State :=
  {| calls := calls st; has_reached_max_retries := true |}.

(** The whitespace of a reply collapsed and stripped; a reply that is
    [None] or empty gives the empty text. *)
Definition normalize (raw : option str) : str :=
  match raw with
  | Some r => strip (collapse_ws false r)
  | None => []
  end.

Definition MAX_RETRIES : nat := 2.

(** The attempts left are the list [todo]; [segment_text] is the variable of
    the source ([None] before the first assignment). *)
Fixpoint attempt_loop (env : Env) (segment_file : str) (max_retries : nat)
  (todo : list nat) (segment_text : option str) (st : State)
  : option str * State :=
  match todo with
  | [] => (segment_text, st)
  | attempt :: rest =>
      match transcribe_audio env (calls st) segment_file with
      | Reply raw =>
          let text := normalize raw in
          if negb (str_eqb text []) && is_problematic_transcription text then
            if attempt <? max_retries
            then attempt_loop env segment_file max_retries rest
                   (Some text) (called st)
            else (Some text, flagged (called st))
          else (Some text, called st)
      | ApiError _ =>
          if attempt <? max_retries
          then attempt_loop env segment_file max_retries rest
                 segment_text (called st)
          else attempt_loop env segment_file max_retries rest
                 (Some []) (flagged (called st))
      end
  end.

Definition transcribe_segment (env : Env) (max_retries : nat)
  (segment_file : str) (st : State) : option str * State :=
  attempt_loop env segment_file max_retries (seq 0 (max_retries + 1)) None st.

Record segment_result : Type := {
  segment : nat;
  segment_file : str;
  text : str
}.

Definition segment_identifier (i : nat) : str := of_ascii "seg" ++ decimal i.

(** [if not segment_text] *)
Definition falsy (segment_text : option str) : bool :=
  match segment_text with
  | None => true
  | Some t => str_eqb t []
  end.

Definition make_result (env : Env) (i : nat) (file : str)
  (segment_text : option str) : segment_result :=
  {| segment := i;
     segment_file := path_name env file;
     text := add_speaker_identifier env
               (match segment_text with Some t => t | None => [] end)
               (segment_identifier i) |}.

(** [for i, segment_file in enumerate(split_files, 1)] *)
Fixpoint segment_loop (env : Env) (i : nat) (split_files : list str)
  (all_transcriptions : list segment_result) (st : State)
  : list segment_result * State :=
  match split_files with
  | [] => (all_transcriptions, st)
  | file :: rest =>
      let '(segment_text, st') := transcribe_segment env MAX_RETRIES file st in
      if falsy segment_text
      then segment_loop env (S i) rest all_transcriptions st'
      else segment_loop env (S i) rest
             (all_transcriptions ++ [make_result env i file segment_text]) st'
  end.

Definition initial_state : State :=
  {| calls := 0; has_reached_max_retries := false |}.

Definition transcribe_all (env : Env) (split_files : list str)
  : list segment_result * State :=
  segment_loop env 1 split_files [] initial_state.

(** The text accepted for each segment in turn, empty ones included: the
    same attempts, kept for every segment. *)
Fixpoint accepted_texts (env : Env) (split_files : list str) (st : State)
  : list (option str) :=
  match split_files with
  | [] => []
  | file :: rest =>
      let '(segment_text, st') := transcribe_segment env MAX_RETRIES file st in
      segment_text :: accepted_texts env rest st'
  end.

(** The entries appended for the segments whose accepted text is not
    empty, numbered from [i]. *)
Fixpoint kept_results (env : Env) (i : nat) (split_files : list str)
  (texts : list (option str)) : list segment_result :=
  match split_files, texts with
  | file :: files, t :: ts =>
      (if falsy t then [] else [make_result env i file t])
      ++ kept_results env (S i) files ts
  | _, _ => []
  end.

(** The text an attempt yields, and whether the attempt is classified
    defective (the test of the loop). *)
Definition reply_text (r : api_reply) : str :=
  match r with
  | Reply raw => normalize raw
  | ApiError _ => []
  end.

Definition defective_reply (r : api_reply) : bool :=
  match r with
  | Reply raw =>
      negb (str_eqb (normalize raw) [])
      && is_problematic_transcription (normalize raw)
  | ApiError _ => false
  end.

(** A collaborator that answers the calls with the listed replies, then
    with [default]. *)
Definition scripted (replies : list api_reply) (default : api_reply) : Env :=
  {| transcribe_audio := fun n _ => nth n replies default;
     add_speaker_identifier := fun t identifier => t ++ identifier;
     path_name := fun file => file |}.

(** Sample data: a segment file, a service that fails on every call, one
    that echoes the known marker once and then answers, and one that echoes
    it for ever. *)
Definition sample_file : str := of_ascii "segment_000.mp4".

Definition failing_env : Env := scripted [] (ApiError (of_ascii "503")).

Definition recovering_env : Env :=
  scripted [Reply (Some failure_marker); Reply (Some (of_ascii "ok"))]
           (Reply None).

Definition stalled_env : Env := scripted [] (Reply (Some failure_marker)).

(** An attempt after which the loop goes on or gives up: a reply classified
    defective, or an exception. *)
Definition bad_reply (r : api_reply) : bool :=
  match r with
  | Reply _ => defective_reply r
  | ApiError _ => true
  end.

(** A reply the loop accepts and the segment loop keeps: a text that is not
    empty once normalized and is not classified defective. *)
Definition usable_reply (r : api_reply) : bool :=
  match r with
  | Reply raw =>
      negb (str_eqb (normalize raw) [])
      && negb (is_problematic_transcription (normalize raw))
  | ApiError _ => false
  end.

(** The entries of a run in which the call number [c], [c + 1], ... is the
    only one made for the segment number [i], [i + 1], ... *)
Fixpoint one_call_results (env : Env) (i c : nat) (split_files : list str)
  : list segment_result :=
  match split_files with
  | [] => []
  | file :: rest =>
      make_result env i file
        (Some (reply_text (transcribe_audio env c file)))
      :: one_call_results env (S i) (S c) rest
  end.

(** *** The end of [_process_with_gemini]: removing the segments directory

    [rmtree] is the outcome of [shutil.rmtree(segments_dir)]; a failure is
    logged as a warning and the result dictionary is returned all the same. *)
Definition finish_with_cleanup {A} (rmtree : result unit) (outcome : A)
  : result A :=
  _ <- try_except rmtree (fun _ => Ok tt) ;; Ok outcome.

(** *** Texts made of one repeated token *)

(** [token] written [n] times with [sep] in between. *)
Definition repeated (token sep : str) (n : nat) : str :=
  join sep (repeat token n).

(** A token of two characters or more without whitespace. *)
Definition plain_token (token : str) : bool :=
  (2 <=? List.length token) && negb (existsb isspace token).

(** A separator: whitespace, at least one character. *)
Definition blank (sep : str) : bool :=
  negb (str_eqb sep []) && forallb isspace sep.

(** No quote and no backslash, so that the text can stand inside a JSON
    string as it is. *)
Definition quote_or_backslash (c : char) : bool :=
  char_eqb c dquote || char_eqb c backslash.

Definition quoteless (token : str) : bool :=
  negb (existsb quote_or_backslash token).

(** None of the filler phrases occurs in the token. *)
Definition filler_free (token : str) : bool :=
  forallb (fun phrase => negb (contains phrase token)) problem_phrases.

(** Sample data used in examples. *)
Definition token_ab : str := of_ascii "ab".
Definition token_un : str := [12358; 12435; 12290]%N.

(** [{"utterance": "<u>"}] *)
Definition utterance_payload (u : str) : str :=
  of_ascii "{" ++ utterance_key ++ of_ascii ": " ++ [dquote] ++ u
    ++ [dquote] ++ of_ascii "}".

End Transcription.

(** ** [src/modules/audio_splitter.py] *)

Module AudioSplitter.

Local Open Scope Z_scope.

(** The operations of the audio library the splitter calls, with what the
    library promises of them: [len(a)] is a length in milliseconds, a slice
    within bounds has the length asked for, and every range reported by
    [detect_silence] lies inside the segment searched and is at least
    [min_silence_len] long. *)
Class AudioLib : Type := {
  audio : Type;
  len : audio -> Z;
  slice : audio -> Z -> Z -> audio;
  detect_silence : audio -> Z -> Z -> list (Z * Z);
  rms : audio -> Z;
  len_nonneg : forall a, 0 <= len a;
  len_slice : forall a i j,
    0 <= i -> i <= j -> j <= len a -> len (slice a i j) = j - i;
  detect_silence_range : forall a m t s e,
    In (s, e) (detect_silence a m t) -> 0 <= s /\ s + m <= e /\ e <= len a
}.

(** [list(range(0, stop, step))] for a positive [step]. *)
Definition py_range (stop step : Z) : list Z :=
  map (fun k => Z.of_nat k * step)
      (seq 0 (Z.to_nat ((stop + step - 1) / step))).

(** The interior targets: the multiples of the segment length numbered from
    [k], [m] of them. *)
Definition multiples (segment_length_ms : Z) (k m : nat) : list Z :=
  map (fun j => Z.of_nat j * segment_length_ms) (seq k m).

(** The theoretical boundaries of [split_audio]. [None] stands for the
    exception raised when [range] refuses a zero step or when the list is
    empty and its last element is read. *)
Definition theoretical_split_points (audio_length_ms segment_length_ms : Z)
  : option (list Z) :=
  if segment_length_ms <=? 0 then None
  else
    let points := py_range audio_length_ms segment_length_ms in
    match points with
    | [] => None
    | _ => if last points 0 =? audio_length_ms then Some points
           else Some (points ++ [audio_length_ms])
    end.

(** [distance < best_distance], where [None] is [float('inf')]. *)
Definition below (x : Z) (bound : option Z) : bool :=
  match bound with
  | None => true
  | Some b => x <? b
  end.

Fixpoint select_loop (silence_ranges : list (Z * Z)) (target_position : Z)
  (best_distance : option Z) (best_position : Z) : Z :=
  match silence_ranges with
  | [] => best_position
  | (start, stop) :: rest =>
      let mid_position := (start + stop) / 2 in
      let distance := Z.abs (mid_position - target_position) in
      if below distance best_distance
      then select_loop rest target_position (Some distance) mid_position
      else select_loop rest target_position best_distance best_position
  end.

Definition _select_best_silence (silence_ranges : list (Z * Z))
  (target_position : Z) : Z :=
  select_loop silence_ranges target_position None target_position.

Section WithAudio.
Context {lib : AudioLib}.

Definition window_size : Z := 100.

Fixpoint min_volume_loop (audio_segment : audio) (starts : list Z)
  (min_volume : option Z) (min_position : Z) : Z :=
  match starts with
  | [] => min_position
  | i :: rest =>
      let window := slice audio_segment i (i + window_size) in
      let volume := rms window in
      if below volume min_volume
      then min_volume_loop audio_segment rest (Some volume)
             (i + window_size / 2)
      else min_volume_loop audio_segment rest min_volume min_position
  end.

Definition _find_min_volume_position (audio_segment : audio) : Z :=
  min_volume_loop audio_segment
    (py_range (len audio_segment - window_size) window_size) None 0.

Definition min_silence_len : Z := 500.
Definition margin_ms : Z := 10 * 1000.
Definition thresholds : list Z := [-40; -35; -30; -25].

(** The threshold loop: the ranges of the first threshold that finds some,
    else those of the last one tried. *)
Fixpoint threshold_loop (search_segment : audio) (todo : list Z)
  (silence_ranges : list (Z * Z)) : list (Z * Z) :=
  match todo with
  | [] => silence_ranges
  | thresh :: rest =>
      match detect_silence search_segment min_silence_len thresh with
      | [] => threshold_loop search_segment rest []
      | found => found
      end
  end.

(** The window searched around [target_ms], first brought back inside the
    recording. *)
Definition search_start (a : audio) (target_ms : Z) : Z :=
  Z.max 0 (Z.min target_ms (len a) - margin_ms).

Definition search_end (a : audio) (target_ms : Z) : Z :=
  Z.min (len a) (Z.min target_ms (len a) + margin_ms).

Definition _find_optimal_split_point (a : audio) (target_ms : Z) : Z :=
  let target := Z.min target_ms (len a) in
  let start := search_start a target_ms in
  let stop := search_end a target_ms in
  if stop - start <? min_silence_len * 2 then target
  else
    let search_segment := slice a start stop in
    match threshold_loop search_segment thresholds [] with
    | [] => start + _find_min_volume_position search_segment
    | silence_ranges =>
        start + _select_best_silence silence_ranges (target - start)
    end.

(** [None] stands for the exception raised on an empty list. *)
Definition _determine_all_split_points (a : audio)
  (theoretical_points : list Z) : option (list Z) :=
  match theoretical_points with
  | [] => None
  | first :: rest =>
      Some (first
            :: map (_find_optimal_split_point a) (removelast rest)
            ++ match rest with
               | [] => []
               | _ => [last rest 0]
               end)
  end.

(** The boundaries [split_audio] cuts at. *)
Definition split_plan (a : audio) (segment_length_ms : Z)
  : option (list Z) :=
  match theoretical_split_points (len a) segment_length_ms with
  | None => None
  | Some points => _determine_all_split_points a points
  end.

End WithAudio.

(** Boundaries strictly increasing, as a test. *)
Fixpoint increasing (l : list Z) : bool :=
  match l with
  | x :: (y :: _) as rest => (x <? y) && increasing rest
  | _ => true
  end.

(** *** A synthetic audio for examples

    A stretch [s_off, s_off + s_len) of a recording whose quiet intervals
    (absolute, in milliseconds) are listed; everything else is loud. *)
Record synth : Type := {
  s_off : Z;
  s_len : Z;
  s_quiet : list (Z * Z)
}.

Definition synth_len (a : synth) : Z := Z.max 0 (s_len a).

Definition synth_slice (a : synth) (i j : Z) : synth :=
  {| s_off := s_off a + i; s_len := j - i; s_quiet := s_quiet a |}.

(** The quiet intervals cut to the stretch and made relative to it, those
    shorter than [min_len] dropped. *)
Fixpoint synth_ranges (off stop min_len : Z) (quiet : list (Z * Z))
  : list (Z * Z) :=
  match quiet with
  | [] => []
  | (qs, qe) :: rest =>
      let s := Z.max qs off - off in
      let e := Z.min qe stop - off in
      if s + min_len <=? e
      then (s, e) :: synth_ranges off stop min_len rest
      else synth_ranges off stop min_len rest
  end.

Definition synth_detect_silence (a : synth) (min_len thresh : Z)
  : list (Z * Z) :=
  synth_ranges (s_off a) (s_off a + synth_len a) min_len (s_quiet a).

Definition synth_rms (a : synth) : Z := 1000.

Definition recording (length_ms : Z) (quiet : list (Z * Z)) : synth :=
  {| s_off := 0; s_len := length_ms; s_quiet := quiet |}.

(** The synthetic audio keeps the promises of the interface. *)
Lemma synth_len_nonneg (a : synth) : 0 <= synth_len a.
Proof. unfold synth_len. lia. Qed.

Lemma synth_len_slice (a : synth) (i j : Z) :
  0 <= i -> i <= j -> j <= synth_len a -> synth_len (synth_slice a i j) = j - i.
Proof. intros. unfold synth_len, synth_slice. simpl. lia. Qed.

Lemma synth_ranges_range (off stop min_len : Z) (quiet : list (Z * Z)) :
  forall s e, In (s, e) (synth_ranges off stop min_len quiet) ->
  0 <= s /\ s + min_len <= e /\ e <= stop - off.
Proof.
  induction quiet as [|[qs qe] rest IH]; intros s e H; [destruct H|].
  simpl in H.
  destruct (Z.max qs off - off + min_len <=? Z.min qe stop - off) eqn:E.
  - destruct H as [H | H]; [|auto].
    inversion H; subst. apply Z.leb_le in E. lia.
  - auto.
Qed.

Lemma synth_detect_silence_range (a : synth) (m t s e : Z) :
  In (s, e) (synth_detect_silence a m t) ->
  0 <= s /\ s + m <= e /\ e <= synth_len a.
Proof.
  intros H. apply synth_ranges_range in H. lia.
Qed.

#[export] Instance synth_lib : AudioLib := {|
  audio := synth;
  len := synth_len;
  slice := synth_slice;
  detect_silence := synth_detect_silence;
  rms := synth_rms;
  len_nonneg := synth_len_nonneg;
  len_slice := synth_len_slice;
  detect_silence_range := synth_detect_silence_range
|}.

(** Sample data: 40 s with one quiet second and a half around 15 s; 21 min
    40 s with a quiet second before the ten-minute mark; 0.8 s. *)
Definition short_recording : synth := recording 40000 [(14000, 16000)].
Definition long_recording : synth := recording 1300000 [(598000, 599000)].
Definition tiny_recording : synth := recording 800 [].

(** *** The segments [split_audio] exports

    One segment per pair of consecutive boundaries, numbered from 1 and
    written to [segment_<number>.mp3]. [export_ok n] tells whether
    exporting the segment number [n] succeeds; a failure is raised again by
    the handler of the method ([None]). *)
Record exported : Type := {
  number : nat;
  start_ms : Z;
  end_ms : Z;
  output_filename : Py.str
}.

Definition segment_filename (segment_count : nat) : Py.str :=
  (Py.of_ascii "segment_" ++ Py.decimal segment_count
     ++ Py.of_ascii ".mp3")%list.

Fixpoint export_loop (export_ok : nat -> bool) (segment_count : nat)
  (points : list Z) : option (list exported) :=
  match points with
  | start :: (stop :: _) as rest =>
      if export_ok (S segment_count) then
        match export_loop export_ok (S segment_count) rest with
        | Some files =>
            Some ({| number := S segment_count;
                     start_ms := start;
                     end_ms := stop;
                     output_filename := segment_filename (S segment_count) |}
                  :: files)
        | None => None
        end
      else None
  | _ => Some []
  end.

Definition split_audio {lib : AudioLib} (export_ok : nat -> bool)
  (a : audio) (segment_length_ms : Z) : option (list exported) :=
  match split_plan a segment_length_ms with
  | Some actual_split_points => export_loop export_ok 0 actual_split_points
  | None => None
  end.

Definition midpoints (silence_ranges : list (Z * Z)) : list Z :=
  map (fun r => (fst r + snd r) / 2) silence_ranges.

(** The volume of the window that starts at [i]. *)
Definition window_volume {lib : AudioLib} (audio_segment : audio) (i : Z)
  : Z :=
  rms (slice audio_segment i (i + 100)).

(** The total of the lengths of the segments, as the method logs them. *)
Definition total_duration (files : list exported) : Z :=
  fold_right (fun f acc => (end_ms f - start_ms f) + acc) 0 files.

End AudioSplitter.

(** ** [src/services/speaker_remapper.py] *)

Module SpeakerRemapper.
Import Py.

(** The key of a speaker field, quotes included. *)
Definition speaker_key : str := dquote :: of_ascii "speaker" ++ [dquote].

(** *** [_replace_speakers] *)

(** One match, at the head of [s], of the pattern built for [old_name]: the
    key, optional whitespace, a colon, optional whitespace and the escaped
    name between quotes. Gives the length of the match. *)
Definition match_speaker (old_name s : str) : option nat :=
  if startswith speaker_key s then
    let r1 := skipn (List.length speaker_key) s in
    match skip_ws r1 with
    | c :: r3 =>
        if char_eqb c colon then
          let r4 := skip_ws r3 in
          if startswith (dquote :: old_name ++ [dquote]) r4
          then Some (List.length s - List.length r4
                     + List.length old_name + 2)
          else None
        else None
    | [] => None
    end
  else None.

(** [re.sub] with a literal replacement: the matches found from left to
    right, without overlap, each replaced by [repl]. *)
Fixpoint sub_from (old_name repl : str) (skip : nat) (s : str) : str :=
  match s with
  | [] => []
  | c :: s' =>
      match skip with
      | S k => sub_from old_name repl k s'
      | O => match match_speaker old_name s with
             | Some n => repl ++ sub_from old_name repl (n - 1) s'
             | None => c :: sub_from old_name repl 0 s'
             end
      end
  end.

(** The replacement handed to [re.sub] is a template. One without a
    backslash stands for itself; the escapes of a template that holds a
    backslash are outside this model ([None]). *)
Definition template (repl : str) : option str :=
  if existsb (char_eqb backslash) repl then None else Some repl.

Definition re_sub (old_name repl text : str) : option str :=
  match template repl with
  | Some literal => Some (sub_from old_name literal 0 text)
  | None => None
  end.

(** Whether the pattern of [old_name] matches somewhere in [s]. *)
Fixpoint matches_somewhere (old_name s : str) : bool :=
  match match_speaker old_name s with
  | Some _ => true
  | None => match s with
            | [] => false
            | _ :: s' => matches_somewhere old_name s'
            end
  end.

(** [skip_patterns], by code point where not ASCII (U+4E0D U+660E between
    brackets, an opening bracket, two spellings of unknown, U+4E0D U+660E). *)
Definition skip_patterns : list str :=
  [ [91; 19981; 26126; 93]%N; [91]%N; of_ascii "unknown";
    of_ascii "Unknown"; [19981; 26126]%N ].

Definition skipped (new_name : str) : bool :=
  existsb (fun pattern => contains pattern new_name) skip_patterns.

(** A speaker mapping in the order the dictionary iterates. *)
Definition mapping := list (str * str).

Definition filtered_mapping (speaker_mapping : mapping) : mapping :=
  filter (fun kv => negb (skipped (snd kv))) speaker_mapping.

Definition replacement (new_name : str) : str :=
  speaker_key ++ of_ascii ": " ++ [dquote] ++ new_name ++ [dquote].

Fixpoint replace_loop (todo : mapping) (result_text : str) : option str :=
  match todo with
  | [] => Some result_text
  | (old_name, new_name) :: rest =>
      match re_sub old_name (replacement new_name) result_text with
      | Some replaced => replace_loop rest replaced
      | None => None
      end
  end.

Definition _replace_speakers (transcript_text : str)
  (speaker_mapping : mapping) : option str :=
  replace_loop (filtered_mapping speaker_mapping) transcript_text.

(** *** Transcripts made of speaker fields

    A transcript written as its speaker fields, each with the text that
    stands before it, the whitespace around its colon and its label, and
    the text after the last field. *)
Record chunk : Type := {
  gap : str;
  ws_before : str;
  ws_after : str;
  label : str
}.

Definition spaced_field (ws1 ws2 l : str) : str :=
  speaker_key ++ ws1 ++ colon :: ws2 ++ dquote :: l ++ [dquote].

Fixpoint render (items : list chunk) (tail : str) : str :=
  match items with
  | [] => tail
  | c :: rest =>
      gap c ++ spaced_field (ws_before c) (ws_after c) (label c)
        ++ render rest tail
  end.

(** The key without its quotes, and with its opening quote only. *)
Definition bare_key : str := of_ascii "speaker".
Definition open_key : str := dquote :: bare_key.

(** The text between two fields opens no key: no quote followed by the
    word of the key stands in it, nor at its head after the quote that
    closes the field before it. *)
Definition plain_gap (g : str) : bool :=
  negb (contains open_key (dquote :: g)).

(** A label or a name that holds no quote and is not the word of the
    key. *)
Definition plain_label (l : str) : bool :=
  negb (existsb (char_eqb dquote) l) && negb (str_eqb l bare_key).

Definition well_formed_chunk (c : chunk) : bool :=
  plain_gap (gap c) && forallb isspace (ws_before c)
  && forallb isspace (ws_after c) && plain_label (label c).

Definition well_formed (items : list chunk) (tail : str) : bool :=
  forallb well_formed_chunk items && plain_gap tail.

(** What one substitution does to a field: a field that carries the label
    gets the new name, in the spacing of the replacement. *)
Definition relabel (old_name new_name : str) (c : chunk) : chunk :=
  if str_eqb (label c) old_name
  then {| gap := gap c; ws_before := []; ws_after := [space];
          label := new_name |}
  else c.

Definition relabel_all (todo : mapping) (items : list chunk) : list chunk :=
  fold_left (fun its kv => map (relabel (fst kv) (snd kv)) its) todo items.

(** An entry whose label holds no quote and whose new name is plain and
    holds no backslash. *)
Definition plain_entry (kv : str * str) : bool :=
  negb (existsb (char_eqb dquote) (fst kv)) && plain_label (snd kv)
  && negb (existsb (char_eqb backslash) (snd kv)).

(** No new name of the mapping is one of its source labels. *)
Definition unchained (m : mapping) : bool :=
  forallb (fun kv =>
             negb (existsb (fun kv' => str_eqb (snd kv) (fst kv')) m))
          m.

(** *** [_parse_mapping_response] *)

Inductive json : Type :=
| JNull
| JBool (b : bool)
| JNum (n : Z)
| JStr (s : str)
| JArr (elements : list json)
| JObj (items : list (str * json)).

Definition JSONDecodeError : str := of_ascii "JSONDecodeError".
Definition TypeError : str := of_ascii "TypeError".
Definition AttributeError : str := of_ascii "AttributeError".

Fixpoint after_first (p s : str) : option str :=
  if startswith p s then Some (skipn (List.length p) s)
  else match s with
       | [] => None
       | _ :: s' => after_first p s'
       end.

Fixpoint before_first (p s : str) : option str :=
  if startswith p s then Some []
  else match s with
       | [] => None
       | c :: s' => option_map (cons c) (before_first p s')
       end.

Fixpoint from_first (c : char) (s : str) : option str :=
  match s with
  | [] => None
  | d :: s' => if char_eqb d c then Some s else from_first c s'
  end.

Definition backtick : char := 96%N.

Definition fence : str := of_ascii "```".
Definition fence_json : str := of_ascii "```json".

(** Group 1 of the fenced pattern: what stands between the first opening
    fence and the next fence, stripped of the whitespace around it. *)
Definition search_fenced (ai_response : str) : option str :=
  match after_first fence_json ai_response with
  | None => None
  | Some r =>
      match before_first fence (lstrip r) with
      | None => None
      | Some g => Some (rstrip g)
      end
  end.

(** The match of the brace pattern: from the first opening brace to the
    last closing brace after it. *)
Definition search_braces (ai_response : str) : option str :=
  match from_first 123%N ai_response with
  | None => None
  | Some r =>
      match from_first 125%N (rev r) with
      | None => None
      | Some back => Some (rev back)
      end
  end.

Definition json_str_of (ai_response : str) : str :=
  match search_fenced ai_response with
  | Some g => g
  | None => match search_braces ai_response with
            | Some g => g
            | None => ai_response
            end
  end.

(** Values that can be keys of [value_counts]. *)
Definition hashable (v : json) : bool :=
  match v with
  | JArr _ | JObj _ => false
  | _ => true
  end.

(** [json_loads] is the JSON parser; the error of a [Raise] is the name of
    the exception class. Only a decoding error is caught here. *)
Definition _parse_mapping_response (json_loads : str -> result json)
  (ai_response : str) : result (list (str * json)) :=
  match json_loads (json_str_of ai_response) with
  | Raise e => if str_eqb e JSONDecodeError then Ok [] else Raise e
  | Ok (JObj items) =>
      if forallb (fun kv => hashable (snd kv)) items then Ok items
      else Raise TypeError
  | Ok (JStr _) | Ok (JArr _) => Raise AttributeError
  | Ok _ => Raise TypeError
  end.

(** *** [GeminiSpeakerRemapper._get_speaker_mapping] *)

(** The collaborators: building the API client, reading the remap prompt,
    the text-generation call and the JSON parser. *)
Record Env : Type := {
  create_api : result unit;
  get_remap_prompt : result str;
  summarize_minutes : str -> str -> result str;
  json_loads : str -> result json
}.

(** The body of the [try], with the requests it sent to the text-generation
    call (text and system prompt). *)
Definition mapping_attempt (env : Env) (transcript_text : str)
  : result (list (str * json)) * list (str * str) :=
  match create_api env with
  | Raise e => (Raise e, [])
  | Ok _ =>
      match get_remap_prompt env with
      | Raise e => (Raise e, [])
      | Ok remap_prompt =>
          let combined_prompt :=
            remap_prompt ++ [newline; newline] ++ transcript_text in
          (ai_response <- summarize_minutes env combined_prompt [] ;;
           _parse_mapping_response (json_loads env) ai_response,
           [(combined_prompt, [])])
      end
  end.

Definition _get_speaker_mapping (env : Env) (transcript_text : str)
  : result (list (str * json)) * list (str * str) :=
  let '(outcome, sent) := mapping_attempt env transcript_text in
  (try_except outcome (fun _ => Ok []), sent).

(** The external call fails (building the client, reading the prompt or
    the call itself raises), or its response does not parse as a JSON
    object. *)
Definition call_failed_or_unparsable (env : Env) (transcript_text : str)
  : bool :=
  match create_api env, get_remap_prompt env with
  | Ok _, Ok remap_prompt =>
      match summarize_minutes env
              (remap_prompt ++ [newline; newline] ++ transcript_text) [] with
      | Raise _ => true
      | Ok ai_response =>
          match json_loads env (json_str_of ai_response) with
          | Ok (JObj _) => false
          | _ => true
          end
      end
  | _, _ => true
  end.

(** Sample data used in examples. *)
Definition label_A : str := of_ascii "A_seg1".
Definition label_B : str := of_ascii "B_seg3".
Definition name_C : str := of_ascii "Yamada".

Definition field (label : str) : str :=
  speaker_key ++ of_ascii ": " ++ [dquote] ++ label ++ [dquote].

Definition sample_env (reply : result str) (parsed : result json) : Env :=
  {| create_api := Ok tt;
     get_remap_prompt := Ok (of_ascii "remap");
     summarize_minutes := fun _ _ => reply;
     json_loads := fun _ => parsed |}.

End SpeakerRemapper.

(** ** [src/services/meeting_title_service.py] *)

Module MeetingTitleService.
Import Py.

Local Open Scope Z_scope.

Definition marker : str := SpeakerRemapper.speaker_key ++ [colon].

(** The loop [for i in range(60)] that looks for the next marker; gives
    [current_index], [found_count] and [text_for_title] when it ends. *)
Fixpoint find_loop (todo : list nat) (transcript_text : str)
  (current_index found_count : Z) (text_for_title : str) : Z * Z * str :=
  match todo with
  | [] => (current_index, found_count, text_for_title)
  | i :: rest =>
      let current_index := find marker transcript_text (current_index + 1) in
      if current_index =? -1 then (current_index, -1, transcript_text)
      else find_loop rest transcript_text current_index
             (Z.of_nat i + 1) text_for_title
  end.

(** What the loop variables satisfy throughout: the count is [-1] (the
    loop broke), or [0], or the index is the place of a marker. *)
Definition at_marker (transcript_text : str) (ci fc : Z) : Prop :=
  fc = -1 \/ fc = 0
  \/ (0 <= ci
      /\ startswith marker (skipn (Z.to_nat ci) transcript_text) = true).

(** The text handed to [title_generator.generate_title]. *)
Definition text_for_title (transcript_text : str) : str :=
  let marker_count := Z.of_nat (count marker transcript_text) in
  if marker_count =? 0 then transcript_text
  else if 60 <? marker_count then
    let '(current_index, found_count, text_for_title) :=
      find_loop (seq 0 60) transcript_text (-1) 0 transcript_text in
    if found_count =? 60 then slice_to transcript_text current_index
    else text_for_title
  else transcript_text.

(** What the specification announces: the text before the [n]-th marker
    (counted from 1), or the whole text when there are fewer markers. *)
Fixpoint before_nth_marker (n : nat) (skip : nat) (s : str) : str :=
  match s with
  | [] => []
  | c :: s' =>
      match skip with
      | S k => c :: before_nth_marker n k s'
      | O =>
          if startswith marker s then
            match n with
            | O | S O => []
            | S n' =>
                c :: before_nth_marker n' (List.length marker - 1) s'
            end
          else c :: before_nth_marker n 0 s'
      end
  end.

(** Sample data: [n] speaker entries one after the other. *)
Definition entry : str :=
  of_ascii "{" ++ marker ++ of_ascii " x}".

Definition entries (n : nat) : str := repeat_str entry n.

(** *** [_extract_timestamp]

    [\d] matches the decimal digits of Unicode: below 128 these are the
    digits 0 to 9; [nd] tells which of the other code points are. *)
Definition underscore : char := 95%N.

Definition ascii_digit (c : char) : bool := ((48 <=? c) && (c <=? 57))%N.

Definition isdecimal (nd : char -> bool) (c : char) : bool :=
  if (c <? 128)%N then ascii_digit c else nd c.

(** [n] decimal digits at the head of [s]. *)
Fixpoint digits (nd : char -> bool) (n : nat) (s : str) : option str :=
  match n with
  | O => Some []
  | S k =>
      match s with
      | c :: s' =>
          if isdecimal nd c then option_map (cons c) (digits nd k s')
          else None
      | [] => None
      end
  end.

(** Group 1 of the first match of an underscore followed by 14 digits. *)
Fixpoint search_timestamp (nd : char -> bool) (s : str) : option str :=
  match s with
  | [] => None
  | c :: s' =>
      match (if char_eqb c underscore then digits nd 14 s' else None) with
      | Some timestamp => Some timestamp
      | None => search_timestamp nd s'
      end
  end.

Definition ValueError : str := of_ascii "ValueError".

(** [file_name] is the base name of the path; the handler prints and raises
    again. *)
Definition _extract_timestamp (nd : char -> bool) (file_name : str)
  : result str :=
  try_except
    (match search_timestamp nd file_name with
     | Some timestamp => Ok timestamp
     | None => Raise ValueError
     end)
    (fun e => Raise e).

(** The file name [_generate_title_file_path] gives, without its folders. *)
Definition title_file_name (timestamp : str) : str :=
  of_ascii "meetingtitle_" ++ timestamp ++ of_ascii ".txt".

(** The file names under which the transcript is written
    ([integrate_results], [_process_with_gemini], [get_output_path]). *)
Definition transcript_file_name (timestamp : str) : str :=
  of_ascii "transcription_summary_" ++ timestamp ++ of_ascii ".txt".

(** *** [process_transcript_and_generate_title] *)

(** The collaborators: the configured transcription method, the factory of
    title generators, the read of the transcript, the title request, the
    JSON parser, the creation of the title folder, and the opening and the
    write of the title file (by file name and content). *)
Record TitleEnv : Type := {
  get_method : result str;
  create_generator : str -> result unit;
  read_transcript : result str;
  generate_title : str -> result str;
  parse_title : str -> result SpeakerRemapper.json;
  makedirs : result unit;
  open_title : str -> result unit;
  write_title : str -> str -> result unit
}.

(** What the run does to the outside: a title request with its text, a
    title file opened (and so emptied), a title written in it. *)
Inductive event : Type :=
| Asked (text : str)
| Opened (file_name : str)
| Written (file_name title : str).

(** [title_json.get("title", title)] *)
Fixpoint get_title (items : list (str * SpeakerRemapper.json))
  (default : SpeakerRemapper.json) : SpeakerRemapper.json :=
  match items with
  | [] => default
  | (k, v) :: rest =>
      if str_eqb k (of_ascii "title") then v else get_title rest default
  end.

(** The title kept from the reply: the reply itself unless it parses as
    JSON; a parsed value other than an object has no [get]. *)
Definition title_of_reply (env : TitleEnv) (title : str)
  : result SpeakerRemapper.json :=
  match parse_title env title with
  | Ok (SpeakerRemapper.JObj items) =>
      Ok (get_title items (SpeakerRemapper.JStr title))
  | Ok _ => Raise SpeakerRemapper.AttributeError
  | Raise e =>
      if str_eqb e SpeakerRemapper.JSONDecodeError
      then Ok (SpeakerRemapper.JStr title)
      else Raise e
  end.

(** [_save_title]: the file is opened for writing, then the title is
    written; writing something that is not a string raises. *)
Definition _save_title (env : TitleEnv) (file_name : str)
  (title : SpeakerRemapper.json) : result unit * list event :=
  match open_title env file_name with
  | Raise e => (Raise e, [])
  | Ok _ =>
      match title with
      | SpeakerRemapper.JStr t =>
          match write_title env file_name t with
          | Ok _ => (Ok tt, [Opened file_name; Written file_name t])
          | Raise e => (Raise e, [Opened file_name])
          end
      | _ => (Raise SpeakerRemapper.TypeError, [Opened file_name])
      end
  end.

(** The body of the method from the title request on. *)
Definition request_and_save (nd : char -> bool) (env : TitleEnv)
  (file_name transcript_text : str) : result str * list event :=
  let text := text_for_title transcript_text in
  match generate_title env text with
  | Raise e => (Raise e, [Asked text])
  | Ok reply =>
      match title_of_reply env reply with
      | Raise e => (Raise e, [Asked text])
      | Ok title =>
          match _extract_timestamp nd file_name with
          | Raise e => (Raise e, [Asked text])
          | Ok timestamp =>
              match makedirs env with
              | Raise e => (Raise e, [Asked text])
              | Ok _ =>
                  let '(saved, events) :=
                    _save_title env (title_file_name timestamp) title in
                  (_ <- saved ;; Ok (title_file_name timestamp),
                   Asked text :: events)
              end
          end
      end
  end.

(** The method: what it returns (the name of the title file) and what it
    did; both handlers print and raise again. *)
Definition process_transcript_and_generate_title (nd : char -> bool)
  (env : TitleEnv) (file_name : str) : result str * list event :=
  match (method <- get_method env ;;
         _ <- create_generator env method ;;
         read_transcript env) with
  | Raise e => (Raise e, [])
  | Ok transcript_text => request_and_save nd env file_name transcript_text
  end.

(** Sample data: a run whose reply is [reply], parsed as [parsed]. *)
Definition title_env (reply : str) (parsed : result SpeakerRemapper.json)
  : TitleEnv :=
  {| get_method := Ok (of_ascii "gemini");
     create_generator := fun _ => Ok tt;
     read_transcript := Ok (entries 2);
     generate_title := fun _ => Ok reply;
     parse_title := fun _ => parsed;
     makedirs := Ok tt;
     open_title := fun _ => Ok tt;
     write_title := fun _ _ => Ok tt |}.

End MeetingTitleService.

(** ** [add_speaker_identifier] of [src/services/transcription.py] *)

Module SpeakerIdentifier.
Import Py SpeakerRemapper.

(** [f"{speaker}_{identifier}"] *)
Definition tagged_speaker (speaker identifier : str) : str :=
  speaker ++ MeetingTitleService.underscore :: identifier.

(** [re.sub] for a pattern with one group that never matches the empty
    string: [m] gives, for a match at the head of the text, the group and
    the length of the match; [repl] builds the replacement from the
    group. *)
Fixpoint sub_with (m : str -> option (str * nat)) (repl : str -> str)
  (skip : nat) (s : str) : str :=
  match s with
  | [] => []
  | c :: s' =>
      match skip with
      | S k => sub_with m repl k s'
      | O => match m s with
             | Some (g, n) => repl g ++ sub_with m repl (n - 1) s'
             | None => c :: sub_with m repl 0 s'
             end
      end
  end.

(** The three label words: U+8A71 U+8005, U+30B9 U+30D4 U+30FC U+30AB
    U+30FC, and [Speaker]. *)
Definition label_words : list (str * bool) :=
  [ ([35441; 32773]%N, false);
    ([12473; 12500; 12540; 12459; 12540]%N, false);
    (of_ascii "Speaker", true) ].

(** The quoted key followed by a value up to the next quote:
    the group is the value. *)
Fixpoint until_quote (s : str) : option (str * str) :=
  match s with
  | [] => None
  | c :: s' =>
      if char_eqb c dquote then Some ([], s')
      else match until_quote s' with
           | Some (g, r) => Some (c :: g, r)
           | None => None
           end
  end.

Definition match_field (s : str) : option (str * nat) :=
  if startswith speaker_key s then
    match skip_ws (skipn (List.length speaker_key) s) with
    | c :: r3 =>
        if char_eqb c colon then
          match skip_ws r3 with
          | d :: r5 =>
              if char_eqb d dquote then
                match until_quote r5 with
                | Some (g, r6) => Some (g, List.length s - List.length r6)
                | None => None
                end
              else None
          | [] => None
          end
        else None
    | [] => None
    end
  else None.

(** The replacement of the field pattern, the group tagged. *)
Definition tagged_field (identifier g : str) : str :=
  speaker_key ++ of_ascii ": " ++ dquote
    :: tagged_speaker g identifier ++ [dquote].

(** The identifier is written into the template of the substitution. One
    without a backslash stands for itself there; the escapes of an
    identifier that holds a backslash are outside this model ([None]). *)
Definition literal (identifier : str) : bool :=
  negb (existsb (char_eqb backslash) identifier).

(** The field substitution. *)
Definition tag_fields (identifier text : str) : option str :=
  if literal identifier
  then Some (sub_with match_field (tagged_field identifier) 0 text)
  else None.

Section WithDigits.

(** Which code points above 127 are decimal digits. *)
Variable nd : char -> bool.

(** The longest run of digits at the head of [s], and what follows it. *)
Fixpoint take_digits (s : str) : str * str :=
  match s with
  | [] => ([], [])
  | c :: s' =>
      if MeetingTitleService.isdecimal nd c then
        let '(ds, r) := take_digits s' in (c :: ds, r)
      else ([], s)
  end.

(** One match of a label pattern at the head of [s]: the word, whitespace
    if the pattern allows it there, one digit or more, then optional
    whitespace and a colon. The group is the label, up to its last digit. *)
Definition match_label (word : str) (inner_ws : bool) (s : str)
  : option (str * nat) :=
  if startswith word s then
    let r0 := skipn (List.length word) s in
    let r1 := if inner_ws then skip_ws r0 else r0 in
    let '(ds, r2) := take_digits r1 in
    match ds with
    | [] => None
    | _ =>
        match skip_ws r2 with
        | c :: r3 =>
            if char_eqb c colon
            then Some (firstn (List.length s - List.length r2) s,
                       List.length s - List.length r3)
            else None
        | [] => None
        end
    end
  else None.

Definition tagged_label (identifier g : str) : str :=
  tagged_speaker g identifier ++ [colon].

(** One label substitution; [None] as for [tag_fields]. *)
Definition tag_labels (identifier : str) (text : str) (word : str * bool)
  : option str :=
  if literal identifier
  then Some (sub_with (match_label (fst word) (snd word))
               (tagged_label identifier) 0 text)
  else None.

(** The plain-text part of the function: the three label substitutions one
    after the other, then the field substitution if the quoted key occurs.
    [None] when the identifier holds a backslash: the templates are then
    outside the model. *)
Definition tag_plain_text (identifier text : str) : option str :=
  match fold_left (fun text word =>
                     match text with
                     | Some t => tag_labels identifier t word
                     | None => None
                     end)
                  label_words (Some text) with
  | Some text =>
      if contains speaker_key text then tag_fields identifier text
      else Some text
  | None => None
  end.

(** [str()] of a JSON value that is not a string, and the two functions of
    the [json] module. *)
Variable py_str : json -> str.
Variable json_loads : str -> result json.
Variable json_dumps : json -> str.

Definition speaker_word : str := of_ascii "speaker".
Definition conversations_word : str := of_ascii "conversations".

Definition format_value (v : json) : str :=
  match v with
  | JStr s => s
  | _ => py_str v
  end.

(** [d["speaker"] = f"{d['speaker']}_{identifier}"] when the key is there *)
Definition tag_items (identifier : str) (items : list (str * json))
  : list (str * json) :=
  map (fun kv =>
         if str_eqb (fst kv) speaker_word
         then (fst kv,
               JStr (tagged_speaker (format_value (snd kv)) identifier))
         else kv)
      items.

Definition tag_entry (identifier : str) (item : json) : json :=
  match item with
  | JObj items => JObj (tag_items identifier items)
  | _ => item
  end.

Definition tag_data (identifier : str) (data : json) : json :=
  match data with
  | JObj items =>
      JObj (map (fun kv =>
                   if str_eqb (fst kv) conversations_word then
                     match snd kv with
                     | JArr conversations =>
                         (fst kv,
                          JArr (map (tag_entry identifier) conversations))
                     | _ => kv
                     end
                   else kv)
                (tag_items identifier items))
  | JArr items => JArr (map (tag_entry identifier) items)
  | _ => data
  end.

Definition looks_like_json (text : str) : bool :=
  startswith [123%N] (strip text) || startswith [91%N] (strip text).

(** [None] is an identifier outside the model (see [tag_plain_text]). *)
Definition add_speaker_identifier (text identifier : str)
  : option (result str) :=
  if looks_like_json text then
    match json_loads text with
    | Ok data => Some (Ok (json_dumps (tag_data identifier data)))
    | Raise e =>
        if str_eqb e JSONDecodeError || str_eqb e AttributeError
        then option_map Ok (tag_plain_text identifier text)
        else Some (Raise e)
    end
  else option_map Ok (tag_plain_text identifier text).

End WithDigits.

End SpeakerIdentifier.

(** ** [src/modules/result_integrator.py] and [src/modules/audio_processor.py] *)

Module ResultIntegrator.
Import Py.

(** An entry of the segments directory: its suffix and what [unlink()] does
    on it. *)
Record entry : Type := {
  suffix : str;
  unlink : result unit
}.

(** The segments directory: whether it exists, what [glob("*")] lists and
    what [rmdir()] does. *)
Record directory : Type := {
  dir_exists : bool;
  listing : list entry;
  rmdir : result unit
}.

Definition temp_suffixes : list str := [of_ascii ".mp3"; of_ascii ".json"].

(** The deletion loop; [kept] are the entries passed over. *)
Fixpoint unlink_loop (files kept : list entry) (file_count : nat)
  : result (list entry * nat) :=
  match files with
  | [] => Ok (kept, file_count)
  | file :: rest =>
      if existsb (str_eqb (suffix file)) temp_suffixes
      then _ <- unlink file ;; unlink_loop rest kept (S file_count)
      else unlink_loop rest (kept ++ [file]) file_count
  end.

Definition cleanup_body (segments_dir : directory) : result unit :=
  if dir_exists segments_dir then
    r <- unlink_loop (listing segments_dir) [] 0 ;;
    match fst r with
    | [] => rmdir segments_dir
    | _ => Ok tt
    end
  else Ok tt.

(** The handler logs the error and raises it again. *)
Definition cleanup_temp_files (segments_dir : directory) : result unit :=
  try_except (cleanup_body segments_dir) (fun e => Raise e).

(** The end of [AudioProcessor.process_audio_file]: [integrate_results] has
    written the transcript and given its path, then the clean-up runs; the
    handler of the method logs and raises again. *)
Definition process_audio_file_end (integrate_results : result str)
  (segments_dir : directory) : result str :=
  try_except
    (final_output <- integrate_results ;;
     _ <- cleanup_temp_files segments_dir ;;
     Ok final_output)
    (fun e => Raise e).

Definition PermissionError : str := of_ascii "PermissionError".

(** [file.suffix in ['.mp3', '.json']] *)
Definition temporary (file : entry) : bool :=
  existsb (str_eqb (suffix file)) temp_suffixes.

(** Sample data: a directory with one segment that cannot be deleted. *)
Definition locked_dir : directory :=
  {| dir_exists := true;
     listing := [ {| suffix := of_ascii ".mp3";
                     unlink := Raise PermissionError |} ];
     rmdir := Ok tt |}.

(** Sample data: two segment files that can be deleted, then also a file
    of another kind. *)
Definition segment_entry (ext : string) (outcome : result unit) : entry :=
  {| suffix := of_ascii ext; unlink := outcome |}.

Definition segments_only : directory :=
  {| dir_exists := true;
     listing := [ segment_entry ".mp3" (Ok tt);
                  segment_entry ".json" (Ok tt) ];
     rmdir := Raise (of_ascii "OSError") |}.

Definition with_foreign_file : directory :=
  {| dir_exists := true;
     listing := [ segment_entry ".mp3" (Ok tt);
                  segment_entry ".wav" (Raise PermissionError) ];
     rmdir := Raise (of_ascii "OSError") |}.

End ResultIntegrator.

(** ** [src/modules/transcriber.py] *)

Module Transcriber.
Import Py.

(** The values held by the dictionary [process_media] returns. *)
Inductive value : Type :=
| VStr (s : str)
| VNone
| VPath (p : str).

Definition dict := list (str * value).

(** [d.get(key, default)] *)
Fixpoint dict_get (d : dict) (key : str) (default : value) : value :=
  match d with
  | [] => default
  | (k, v) :: d' => if str_eqb k key then v else dict_get d' key default
  end.

Record conversation : Type := {
  speaker : str;
  utterance : str
}.

(** The returned dictionary, by its only key. *)
Record transcription : Type := {
  conversations : list conversation
}.

(** The constant speaker name (U+8A71 U+8005). *)
Definition speaker_name : str := [35441; 32773]%N.

Definition TranscriptionError : str := of_ascii "TranscriptionError".

(** [process_media] is the outcome of [self.service.process_media(...)].
    [len(response_text)] raises unless the text is a string; every exception
    is raised again as a [TranscriptionError]. *)
Definition transcribe_audio (process_media : result dict)
  : result transcription :=
  try_except
    (result <- process_media ;;
     match dict_get result (of_ascii "formatted_text") (VStr []) with
     | VStr response_text =>
         Ok {| conversations :=
                 [ {| speaker := speaker_name;
                      utterance := response_text |} ] |}
     | _ => Raise SpeakerRemapper.TypeError
     end)
    (fun _ => Raise TranscriptionError).

(** Sample data: what [process_media] returns for a response in which the
    model told two speakers apart. *)
Definition two_speaker_text : str :=
  of_ascii "{" ++ SpeakerRemapper.field (of_ascii "A") ++ of_ascii "}, {"
    ++ SpeakerRemapper.field (of_ascii "B") ++ of_ascii "}".

Definition sample_result : dict :=
  [ (of_ascii "raw_text", VStr []);
    (of_ascii "formatted_text", VStr two_speaker_text);
    (of_ascii "raw_file", VNone);
    (of_ascii "formatted_file", VPath (of_ascii "out.txt")) ].

End Transcriber.

(** ** [src/modules/audio_processor.py]: the whole run *)

Module AudioProcessor.
Import Py.

(** A conversation entry once the segment information is added. *)
Record tagged : Type := {
  speaker : str;
  utterance : str;
  segment : nat;
  segment_file : str
}.

Definition tag (i : nat) (name : str) (conv : Transcriber.conversation)
  : tagged :=
  {| speaker := Transcriber.speaker conv;
     utterance := Transcriber.utterance conv;
     segment := i;
     segment_file := name |}.

(** The collaborators: the splitter, the transcription service (by segment
    number and file), the name of a path, the two writes, the clock of
    [integrate_results] and the segments directory as the clean-up finds
    it. *)
Record Env : Type := {
  split_media_fixed_duration : result (list str);
  process_media : nat -> str -> result Transcriber.dict;
  path_name : str -> str;
  dump_complete : result unit;
  now : str;
  dump_summary : result unit;
  segments_dir : ResultIntegrator.directory
}.

(** [for i, media_file in enumerate(split_files, 1)] *)
Fixpoint transcribe_loop (env : Env) (i : nat) (split_files : list str)
  (all_transcriptions : list tagged) : result (list tagged) :=
  match split_files with
  | [] => Ok all_transcriptions
  | media_file :: rest =>
      transcription <-
        Transcriber.transcribe_audio (process_media env i media_file) ;;
      transcribe_loop env (S i) rest
        (all_transcriptions
           ++ map (tag i (path_name env media_file))
                  (Transcriber.conversations transcription))
  end.

(** What [integrate_results] writes and returns: the file name with the
    timestamp of the clock, and the conversations reduced to speaker and
    utterance. It reads the conversations back from the file that
    [process_audio_file] has just written. *)
Definition integrate_results (env : Env) (conversations : list tagged)
  : result (str * list Transcriber.conversation) :=
  try_except
    (let simplified_data :=
       map (fun conv => {| Transcriber.speaker := speaker conv;
                           Transcriber.utterance := utterance conv |})
           conversations in
     let output_filename :=
       MeetingTitleService.transcript_file_name (now env) in
     _ <- dump_summary env ;;
     Ok (output_filename, simplified_data))
    (fun e => Raise e).

(** [process_audio_file]: the file name of the transcript and what was
    written in it. *)
Definition process_audio_file (env : Env)
  : result (str * list Transcriber.conversation) :=
  try_except
    (split_files <- split_media_fixed_duration env ;;
     all_transcriptions <- transcribe_loop env 1 split_files [] ;;
     _ <- dump_complete env ;;
     final_output <- integrate_results env all_transcriptions ;;
     _ <- ResultIntegrator.cleanup_temp_files (segments_dir env) ;;
     Ok final_output)
    (fun e => Raise e).

(** The entry a segment gets from its formatted text. *)
Definition entry_of (formatted_text : str) : Transcriber.conversation :=
  {| Transcriber.speaker := Transcriber.speaker_name;
     Transcriber.utterance := formatted_text |}.

(** Sample data: a run on three segments, the second of which comes back
    with an empty text; and the same run when the service fails on the
    second segment. *)
Definition segment_texts : list (str * str) :=
  [ (of_ascii "segment_001.mp3", of_ascii "hello");
    (of_ascii "segment_002.mp3", []);
    (of_ascii "segment_003.mp3", of_ascii "bye") ].

Definition text_of (file : str) : str :=
  match List.find (fun kv => str_eqb (fst kv) file) segment_texts with
  | Some kv => snd kv
  | None => []
  end.

Definition empty_dir : ResultIntegrator.directory :=
  {| ResultIntegrator.dir_exists := true;
     ResultIntegrator.listing := [];
     ResultIntegrator.rmdir := Ok tt |}.

Definition sample_env (fails_on : nat) : Env :=
  {| split_media_fixed_duration := Ok (map fst segment_texts);
     process_media := fun i file =>
       if Nat.eqb i fails_on then Raise (of_ascii "GeminiAPIError")
       else Ok [ (of_ascii "formatted_text", Transcriber.VStr (text_of file)) ];
     path_name := fun p => p;
     dump_complete := Ok tt;
     now := of_ascii "20240131235959";
     dump_summary := Ok tt;
     segments_dir := empty_dir |}.

End AudioProcessor.

(* ===================================================================== *)
(** * Part II. Lemmas and theorems                                        *)
(* ===================================================================== *)

(** ** Strings *)

Section StringFacts.
Import Py.

Lemma char_eqb_eq (a b : char) : char_eqb a b = true <-> a = b.
Proof. unfold char_eqb. apply N.eqb_eq. Qed.

Lemma char_eqb_refl (a : char) : char_eqb a a = true.
Proof. apply char_eqb_eq. reflexivity. Qed.

Lemma str_eqb_eq (a b : str) : str_eqb a b = true <-> a = b.
Proof.
  revert b. induction a as [|x a IH]; intros [|y b]; simpl;
    try (split; [discriminate | congruence]); try tauto.
  rewrite andb_true_iff, char_eqb_eq, IH. split.
  - intros [-> ->]. reflexivity.
  - intros E. inversion E. auto.
Qed.

Lemma str_eqb_refl (a : str) : str_eqb a a = true.
Proof. apply str_eqb_eq. reflexivity. Qed.

Lemma startswith_app (p rest : str) : startswith p (p ++ rest) = true.
Proof.
  induction p as [|x p IH]; simpl; [reflexivity|].
  rewrite char_eqb_refl. exact IH.
Qed.

Lemma startswith_split (p s : str) :
  startswith p s = true -> s = p ++ skipn (List.length p) s.
Proof.
  revert s. induction p as [|x p IH]; intros [|y s]; simpl;
    try discriminate; try reflexivity.
  rewrite andb_true_iff, char_eqb_eq. intros [-> H].
  f_equal. apply IH. exact H.
Qed.

(** A pattern that holds no character [c] cannot run over a [c]. *)
Lemma startswith_stop (c : char) (p a b : str) :
  existsb (char_eqb c) p = false ->
  startswith p (a ++ c :: b) = startswith p a.
Proof.
  revert a. induction p as [|x p IH]; intros a Hp; [reflexivity|].
  simpl in Hp. apply orb_false_iff in Hp as [Hx Hp].
  destruct a as [|y a]; simpl.
  - replace (char_eqb x c) with false; [reflexivity|].
    symmetry. apply not_true_iff_false. intros E.
    apply char_eqb_eq in E. subst x. rewrite char_eqb_refl in Hx.
    discriminate.
  - rewrite IH by exact Hp. reflexivity.
Qed.

Lemma contains_nil (p : str) : p <> [] -> contains p [] = false.
Proof. destruct p; [congruence | reflexivity]. Qed.

(** An occurrence of [p] in [a ++ c :: b] lies in [a] or in [b] when [c] is
    not a character of [p]. *)
Lemma contains_stop (c : char) (p a b : str) :
  p <> [] -> existsb (char_eqb c) p = false ->
  contains p (a ++ c :: b) = contains p a || contains p b.
Proof.
  intros Hne Hp. induction a as [|y a IH].
  - simpl app. rewrite (contains_nil p Hne). simpl.
    change (c :: b) with ([] ++ c :: b) at 1.
    rewrite (startswith_stop c p [] b Hp).
    destruct p; [congruence | reflexivity].
  - change ((y :: a) ++ c :: b) with (y :: (a ++ c :: b)).
    change (contains p (y :: a ++ c :: b))
      with (startswith p (y :: a ++ c :: b) || contains p (a ++ c :: b)).
    change (y :: a ++ c :: b) with ((y :: a) ++ c :: b).
    rewrite (startswith_stop c p (y :: a) b Hp), IH.
    change (contains p (y :: a)) with (startswith p (y :: a) || contains p a).
    rewrite orb_assoc. reflexivity.
Qed.

Lemma contains_prefix (p q s : str) :
  contains (p ++ q) s = true -> contains p s = true.
Proof.
  induction s as [|y s IH].
  - simpl. destruct p; [reflexivity|]. simpl. discriminate.
  - change (contains (p ++ q) (y :: s))
      with (startswith (p ++ q) (y :: s) || contains (p ++ q) s).
    change (contains p (y :: s)) with (startswith p (y :: s) || contains p s).
    rewrite !orb_true_iff. intros [H | H]; [left | right; auto].
    clear IH. revert H. generalize (y :: s). clear.
    induction p as [|x p IH]; intros l; [reflexivity|].
    destruct l as [|z l]; simpl; [discriminate|].
    rewrite !andb_true_iff. intros [? ?]. split; auto.
Qed.

Lemma contains_suffix (c : char) (q s : str) :
  contains (c :: q) s = true -> contains q s = true.
Proof.
  induction s as [|y s IH]; [discriminate|].
  change (contains (c :: q) (y :: s))
    with (startswith (c :: q) (y :: s) || contains (c :: q) s).
  rewrite orb_true_iff. intros [H | H].
  - simpl in H. apply andb_true_iff in H as [_ H].
    change (contains q (y :: s)) with (startswith q (y :: s) || contains q s).
    apply orb_true_iff. right.
    destruct s as [|z s]; destruct q as [|x q]; try reflexivity;
      try discriminate.
    simpl. simpl in H. rewrite H. reflexivity.
  - change (contains q (y :: s)) with (startswith q (y :: s) || contains q s).
    rewrite (IH H). apply orb_true_r.
Qed.

Lemma count_from_absent (p : str) (skip : nat) (s : str) :
  contains p s = false -> count_from p skip s = 0.
Proof.
  revert skip. induction s as [|y s IH]; intros skip H; [reflexivity|].
  change (contains p (y :: s))
    with (startswith p (y :: s) || contains p s) in H.
  apply orb_false_iff in H as [H1 H2].
  simpl. destruct skip; [rewrite H1|]; apply IH; exact H2.
Qed.

Lemma count_absent (p s : str) :
  p <> [] -> contains p s = false -> count p s = 0.
Proof.
  intros Hne H. destruct p; [congruence|]. apply count_from_absent. exact H.
Qed.

End StringFacts.

(** ** The repetition detector *)

Section DetectorFacts.
Import Py Transcription.

Lemma existsb_false_iff {A} (f : A -> bool) (l : list A) :
  existsb f l = false <-> forall x, In x l -> f x = false.
Proof.
  induction l as [|a l IH]; simpl.
  - split; [intros _ x [] | reflexivity].
  - rewrite orb_false_iff, IH. split.
    + intros [Ha Hl] x [<- | Hx]; auto.
    + intros H. split; [apply H; auto | intros x Hx; apply H; auto].
Qed.

Lemma existsb_repeat {A} (f : A -> bool) (x : A) (n : nat) :
  existsb f (repeat x n) = negb (n =? 0) && f x.
Proof.
  induction n as [|n IH]; [reflexivity|].
  simpl. rewrite IH. destruct (f x), (n =? 0); reflexivity.
Qed.

Lemma list_count_repeat (w : str) (n : nat) :
  list_count w (repeat w n) = n.
Proof.
  induction n as [|n IH]; [reflexivity|].
  simpl. rewrite str_eqb_refl, IH. reflexivity.
Qed.

Lemma split_from_word (w cur rest : str) :
  existsb isspace w = false ->
  split_from cur (w ++ rest) = split_from (rev w ++ cur) rest.
Proof.
  revert cur. induction w as [|c w IH]; intros cur Hw; [reflexivity|].
  simpl in Hw. apply orb_false_iff in Hw as [Hc Hw].
  simpl. rewrite Hc, IH by exact Hw. rewrite <- app_assoc. reflexivity.
Qed.

Lemma split_from_blank (sep rest : str) :
  forallb isspace sep = true ->
  split_from [] (sep ++ rest) = split_from [] rest.
Proof.
  induction sep as [|c sep IH]; intros Hs; [reflexivity|].
  simpl in Hs. apply andb_true_iff in Hs as [Hc Hs].
  simpl. rewrite Hc. apply IH. exact Hs.
Qed.

Lemma split_from_word_blank (w sep rest : str) :
  w <> [] -> existsb isspace w = false -> blank sep = true ->
  split_from [] (w ++ sep ++ rest) = w :: split_from [] rest.
Proof.
  intros Hne Hw Hs. rewrite split_from_word by exact Hw.
  rewrite app_nil_r. unfold blank in Hs.
  apply andb_true_iff in Hs as [Hs1 Hs2].
  destruct sep as [|c sep]; [discriminate|].
  simpl in Hs2. apply andb_true_iff in Hs2 as [Hc Hs2].
  simpl. rewrite Hc.
  destruct (rev w) eqn:E.
  - apply (f_equal (@rev char)) in E. rewrite rev_involutive in E.
    simpl in E. congruence.
  - rewrite <- E, rev_involutive. f_equal.
    apply split_from_blank. exact Hs2.
Qed.

Lemma repeated_step (token sep : str) (n : nat) :
  repeated token sep (S (S n)) = token ++ sep ++ repeated token sep (S n).
Proof. reflexivity. Qed.

Lemma split_repeated (token sep : str) (n : nat) :
  token <> [] -> existsb isspace token = false -> blank sep = true ->
  split (repeated token sep n) = repeat token n.
Proof.
  intros Hne Hw Hs. unfold split.
  destruct n as [|n]; [reflexivity|].
  induction n as [|n IH].
  - unfold repeated. simpl.
    rewrite <- (app_nil_r token) at 1.
    rewrite split_from_word by exact Hw. simpl. rewrite app_nil_r.
    destruct (rev token) eqn:E.
    + apply (f_equal (@rev char)) in E. rewrite rev_involutive in E.
      simpl in E. congruence.
    + rewrite <- E, rev_involutive. reflexivity.
  - rewrite repeated_step, split_from_word_blank by assumption.
    rewrite IH. reflexivity.
Qed.

Lemma plain_token_inv (token : str) :
  plain_token token = true ->
  token <> [] /\ 2 <= List.length token /\ existsb isspace token = false.
Proof.
  unfold plain_token. rewrite andb_true_iff, negb_true_iff, Nat.leb_le.
  intros [H1 H2]. repeat split; auto.
  intros ->. simpl in H1. lia.
Qed.

(** The word loop on a repeated token: it fires from 80 repetitions on. *)
Lemma word_loop_repeated (token sep : str) (n : nat) :
  plain_token token = true -> blank sep = true ->
  existsb (word_repeated (split (repeated token sep n)))
          (split (repeated token sep n)) = (80 <=? n).
Proof.
  intros Ht Hs. destruct (plain_token_inv token Ht) as (Hne & Hlen & Hw).
  rewrite split_repeated by assumption.
  rewrite existsb_repeat. unfold word_repeated.
  rewrite list_count_repeat.
  replace (List.length token <=? 1) with false
    by (symmetry; apply Nat.leb_gt; lia).
  simpl. destruct n; reflexivity.
Qed.

Lemma single_utterance_repeated (token sep : str) (n : nat) :
  plain_token token = true -> blank sep = true ->
  _check_single_utterance_repetition (repeated token sep n) =
  (80 <=? n)
  || existsb (phrase_repeated (repeated token sep n)) problem_phrases.
Proof.
  intros Ht Hs. unfold _check_single_utterance_repetition.
  cbv zeta. rewrite word_loop_repeated by assumption.
  destruct (80 <=? n); reflexivity.
Qed.

Lemma findall_from_nil_text (skip : nat) : findall_from skip [] = [].
Proof. destruct skip; reflexivity. Qed.

(** A defective utterance anywhere in the text makes the text defective. *)
Lemma detector_of_utterance (text u : str) :
  In u (findall_utterances text) ->
  _check_single_utterance_repetition u = true ->
  is_problematic_transcription text = true.
Proof.
  intros Hin Hu. unfold is_problematic_transcription.
  destruct text as [|c text]; [destruct Hin|].
  destruct (contains failure_marker (c :: text)); [reflexivity|].
  replace (existsb _check_single_utterance_repetition
             (findall_utterances (c :: text))) with true; [reflexivity|].
  symmetry. apply existsb_exists. exists u. split; assumption.
Qed.

End DetectorFacts.

(** ** The detector on a text of one utterance *)

Section PayloadFacts.
Import Py Transcription.

Lemma isspace_not_quote (c : char) : isspace c = true -> quote_or_backslash c = false.
Proof.
  intros H. unfold quote_or_backslash, char_eqb.
  destruct (N.eqb_spec c dquote) as [-> | _]; [discriminate H|].
  destruct (N.eqb_spec c backslash) as [-> | _]; [discriminate H|].
  reflexivity.
Qed.

Lemma blank_quoteless (sep : str) :
  forallb isspace sep = true -> existsb quote_or_backslash sep = false.
Proof.
  induction sep as [|c sep IH]; [reflexivity|]. simpl.
  rewrite andb_true_iff. intros [Hc Hs].
  rewrite (isspace_not_quote c Hc), IH by exact Hs. reflexivity.
Qed.

Lemma repeated_quoteless (token sep : str) (n : nat) :
  quoteless token = true -> blank sep = true ->
  existsb quote_or_backslash (repeated token sep n) = false.
Proof.
  unfold quoteless, blank. rewrite negb_true_iff, andb_true_iff.
  intros Ht [_ Hs].
  destruct n as [|n]; [reflexivity|].
  induction n as [|n IH]; [exact Ht|].
  rewrite repeated_step, !existsb_app, Ht, IH, (blank_quoteless sep Hs).
  reflexivity.
Qed.

Lemma utterance_body_plain (u rest : str) :
  existsb quote_or_backslash u = false ->
  utterance_body (u ++ dquote :: rest) = Some (u, S (List.length u)).
Proof.
  induction u as [|c u IH]; intros H; [reflexivity|].
  simpl in H. apply orb_false_iff in H as [Hc H].
  unfold quote_or_backslash in Hc. apply orb_false_iff in Hc as [Hq Hb].
  simpl. rewrite Hq, Hb, IH by exact H. reflexivity.
Qed.

Lemma findall_from_skip (a rest : str) (k : nat) :
  findall_from (List.length a + k) (a ++ rest) = findall_from k rest.
Proof.
  induction a as [|c a IH]; [reflexivity|]. simpl. exact IH.
Qed.

Lemma match_utterance_payload (u post : str) :
  existsb quote_or_backslash u = false ->
  match_utterance (utterance_key ++ of_ascii ": " ++ [dquote] ++ u
                     ++ dquote :: post)
  = Some (u, 15 + List.length u).
Proof.
  intros H. unfold match_utterance.
  rewrite startswith_app.
  rewrite skipn_app, skipn_all, Nat.sub_diag.
  change (skip_ws ([] ++ skipn 0 (of_ascii ": " ++ [dquote] ++ u ++ dquote :: post)))
    with (colon :: space :: dquote :: u ++ dquote :: post).
  cbv iota beta.
  change (skip_ws (space :: dquote :: u ++ dquote :: post))
    with (dquote :: u ++ dquote :: post).
  rewrite !char_eqb_refl, utterance_body_plain by exact H.
  do 2 f_equal.
  replace (List.length (utterance_key ++ of_ascii ": " ++ [dquote] ++ u
                          ++ dquote :: post))
    with (14 + List.length (u ++ dquote :: post))
    by (rewrite !length_app; reflexivity).
  lia.
Qed.

Lemma findall_from_match (s g : str) (n : nat) :
  match_utterance s = Some (g, n) -> 1 <= n ->
  findall_from 0 s = g :: findall_from n s.
Proof.
  intros H Hn. destruct s as [|c s]; [discriminate H|].
  cbn [findall_from]. rewrite H.
  destruct n as [|n]; [lia|]. cbn [findall_from].
  rewrite Nat.sub_succ, Nat.sub_0_r. reflexivity.
Qed.

Lemma findall_payload (u : str) :
  existsb quote_or_backslash u = false ->
  findall_utterances (utterance_payload u) = [u].
Proof.
  intros H. unfold findall_utterances, utterance_payload.
  set (body := utterance_key ++ of_ascii ": " ++ [dquote] ++ u
                  ++ dquote :: [125%N]).
  change (findall_from 0 body = [u]).
  rewrite (findall_from_match body u (15 + List.length u));
    [| apply match_utterance_payload; exact H | lia].
  f_equal.
  replace body
    with ((utterance_key ++ of_ascii ": " ++ [dquote] ++ u ++ [dquote])
            ++ [125%N])
    by (unfold body; rewrite <- !app_assoc; reflexivity).
  replace (15 + List.length u)
    with (List.length (utterance_key ++ of_ascii ": " ++ [dquote] ++ u
                         ++ [dquote]) + 0)
    by (rewrite !length_app; simpl; lia).
  rewrite findall_from_skip. reflexivity.
Qed.

Lemma ws_not_in (c : char) (p : str) :
  isspace c = true -> existsb isspace p = false ->
  existsb (char_eqb c) p = false.
Proof.
  intros Hc. induction p as [|x p IH]; [reflexivity|]. simpl.
  rewrite !orb_false_iff. intros [Hx Hp]. split; [|auto].
  apply not_true_iff_false. intros E. apply char_eqb_eq in E. subst x.
  congruence.
Qed.

Lemma contains_skip_blank (p sep b : str) :
  p <> [] -> existsb isspace p = false -> forallb isspace sep = true ->
  contains p (sep ++ b) = contains p b.
Proof.
  intros Hne Hp. induction sep as [|c sep IH]; [reflexivity|]. simpl forallb.
  rewrite andb_true_iff. intros [Hc Hs].
  change ((c :: sep) ++ b) with ([] ++ c :: (sep ++ b)).
  rewrite contains_stop by (auto using ws_not_in).
  rewrite (contains_nil p Hne). simpl. auto.
Qed.

Lemma contains_over_blank (p a sep b : str) :
  p <> [] -> existsb isspace p = false -> blank sep = true ->
  contains p (a ++ sep ++ b) = contains p a || contains p b.
Proof.
  intros Hne Hp Hs. unfold blank in Hs.
  apply andb_true_iff in Hs as [Hs1 Hs2].
  destruct sep as [|c sep]; [discriminate|].
  simpl in Hs2. apply andb_true_iff in Hs2 as [Hc Hs2].
  change (a ++ (c :: sep) ++ b) with (a ++ c :: (sep ++ b)).
  rewrite contains_stop by (auto using ws_not_in).
  rewrite contains_skip_blank by assumption. reflexivity.
Qed.

Lemma contains_repeated (p token sep : str) (n : nat) :
  p <> [] -> existsb isspace p = false -> blank sep = true ->
  contains p token = false ->
  contains p (repeated token sep n) = false.
Proof.
  intros Hne Hp Hs Ht.
  destruct n as [|n]; [apply contains_nil; exact Hne|].
  induction n as [|n IH]; [exact Ht|].
  rewrite repeated_step, contains_over_blank by assumption.
  rewrite Ht, IH. reflexivity.
Qed.

Lemma contains_drop (a q s : str) :
  contains (a ++ q) s = true -> contains q s = true.
Proof.
  induction a as [|c a IH]; [auto|]. intros H. apply IH.
  apply (contains_suffix c). exact H.
Qed.

Lemma contains_infix (a b c s : str) :
  contains (a ++ b ++ c) s = true -> contains b s = true.
Proof.
  intros H. apply (contains_prefix b c). apply (contains_drop a). exact H.
Qed.

(** A word standing between two whitespace characters is a word of the
    split. *)
Lemma split_has_word (w s cur : str) (c1 c2 : char) :
  w <> [] -> existsb isspace w = false ->
  isspace c1 = true -> isspace c2 = true ->
  contains (c1 :: w ++ [c2]) s = true -> In w (split_from cur s).
Proof.
  intros Hne Hw H1 H2. revert cur.
  induction s as [|y s IH]; intros cur H; [discriminate H|].
  change (contains (c1 :: w ++ [c2]) (y :: s))
    with (startswith (c1 :: w ++ [c2]) (y :: s)
          || contains (c1 :: w ++ [c2]) s) in H.
  apply orb_true_iff in H as [H | H].
  - simpl in H. apply andb_true_iff in H as [Hy H].
    apply char_eqb_eq in Hy. subst y.
    apply startswith_split in H. rewrite length_app in H.
    rewrite <- app_assoc in H. simpl in H.
    assert (E : split_from [] s = w :: split_from []
                  (skipn (List.length w + 1) s)).
    { rewrite H at 1.
      change (w ++ c2 :: skipn (List.length w + 1) s)
        with (w ++ [c2] ++ skipn (List.length w + 1) s).
      apply split_from_word_blank; auto.
      unfold blank. simpl. rewrite H2. reflexivity. }
    simpl. rewrite H1. destruct cur; rewrite E; simpl; auto.
  - simpl. destruct (isspace y); [destruct cur|]; simpl; auto.
Qed.

Lemma marker_not_repeated (token sep : str) (n : nat) :
  plain_token token = true -> blank sep = true ->
  contains failure_marker (repeated token sep n) = false.
Proof.
  intros Ht Hs. destruct (plain_token_inv token Ht) as (Hne & _ & Hw).
  apply not_true_iff_false. intros H.
  assert (H1 : In (of_ascii "of") (split (repeated token sep n))).
  { apply (split_has_word _ _ [] space space); try reflexivity;
      try discriminate.
    apply (contains_infix (of_ascii "Take minutes") _ (of_ascii "the meeting")).
    exact H. }
  assert (H2 : In (of_ascii "the") (split (repeated token sep n))).
  { apply (split_has_word _ _ [] space space); try reflexivity;
      try discriminate.
    apply (contains_infix (of_ascii "Take minutes of") _ (of_ascii "meeting")).
    exact H. }
  rewrite split_repeated in H1, H2 by assumption.
  apply repeat_spec in H1, H2. rewrite <- H1 in H2. discriminate H2.
Qed.

(** An occurrence, in the payload, of a pattern without a quote lies in the
    utterance. *)
Lemma contains_payload (p u : str) :
  p <> [] -> existsb (char_eqb dquote) p = false ->
  contains p (of_ascii "{") = false ->
  contains p (of_ascii "}") = false ->
  contains p (of_ascii "{" ++ utterance_key ++ of_ascii ": ") = false ->
  contains p (utterance_payload u) = contains p u.
Proof.
  intros Hne Hq H1 H2 H3.
  change (utterance_payload u)
    with ((of_ascii "{" ++ utterance_key ++ of_ascii ": ")
            ++ dquote :: (u ++ dquote :: of_ascii "}")).
  rewrite !contains_stop by assumption.
  rewrite H2, H3, orb_false_r. reflexivity.
Qed.

End PayloadFacts.

(** ** Counting a pattern in a repeated token *)

Section CountFacts.
Import Py Transcription.

Lemma startswith_length (p s : str) :
  startswith p s = true -> List.length p <= List.length s.
Proof.
  revert s. induction p as [|x p IH]; intros [|y s]; simpl;
    try discriminate; try lia.
  rewrite andb_true_iff. intros [_ H]. apply IH in H. lia.
Qed.

(** Counting does not see across a character foreign to the pattern. *)
Lemma count_from_stop (c : char) (p a b : str) :
  p <> [] -> existsb (char_eqb c) p = false ->
  forall skip, skip <= List.length a ->
  count_from p skip (a ++ c :: b)
  = count_from p skip a + count_from p 0 b.
Proof.
  intros Hne Hp. induction a as [|y a IH]; intros skip Hskip.
  - simpl in Hskip. replace skip with 0 by lia.
    cbn [app count_from].
    change (c :: b) with ([] ++ c :: b) at 1.
    rewrite (startswith_stop c p [] b Hp).
    destruct p; [congruence | reflexivity].
  - change ((y :: a) ++ c :: b) with (y :: (a ++ c :: b)).
    cbn [count_from]. destruct skip as [|k].
    + change (y :: a ++ c :: b) with ((y :: a) ++ c :: b).
      rewrite (startswith_stop c p (y :: a) b Hp).
      destruct (startswith p (y :: a)) eqn:E.
      * apply startswith_length in E. simpl in E.
        rewrite IH by lia. reflexivity.
      * apply IH. lia.
    + apply IH. simpl in Hskip. lia.
Qed.

Lemma count_from_skip_blank (p sep b : str) :
  p <> [] -> existsb isspace p = false -> forallb isspace sep = true ->
  count_from p 0 (sep ++ b) = count_from p 0 b.
Proof.
  intros Hne Hp. induction sep as [|c sep IH]; [reflexivity|]. simpl forallb.
  rewrite andb_true_iff. intros [Hc Hs].
  change ((c :: sep) ++ b) with ([] ++ c :: (sep ++ b)).
  rewrite count_from_stop by (auto using ws_not_in; simpl; lia).
  simpl. auto.
Qed.

Lemma count_repeated (p token sep : str) (n : nat) :
  p <> [] -> existsb isspace p = false -> blank sep = true ->
  count p (repeated token sep n) = n * count p token.
Proof.
  intros Hne Hp Hs.
  assert (Hc : forall s, count p s = count_from p 0 s)
    by (intros s; destruct p; [congruence | reflexivity]).
  rewrite !Hc.
  destruct n as [|n]; [reflexivity|].
  induction n as [|n IH]; [unfold repeated; simpl; lia|].
  rewrite repeated_step.
  unfold blank in Hs. apply andb_true_iff in Hs as [Hs1 Hs2].
  destruct sep as [|c sep]; [discriminate|].
  simpl in Hs2. apply andb_true_iff in Hs2 as [Hc1 Hs2].
  change (token ++ (c :: sep) ++ repeated token (c :: sep) (S n))
    with (token ++ c :: (sep ++ repeated token (c :: sep) (S n))).
  rewrite count_from_stop by (auto using ws_not_in; lia).
  rewrite count_from_skip_blank by assumption.
  rewrite IH. lia.
Qed.

Lemma count_from_present (p s : str) :
  p <> [] -> contains p s = true -> 1 <= count_from p 0 s.
Proof.
  intros Hne. induction s as [|y s IH]; intros H.
  - rewrite contains_nil in H by exact Hne. discriminate H.
  - change (contains p (y :: s))
      with (startswith p (y :: s) || contains p s) in H.
    cbn [count_from]. destruct (startswith p (y :: s)); [lia|].
    apply IH. exact H.
Qed.
End CountFacts.

(** ** C4: the boundary of the word-repetition check *)

Section RepetitionBoundary.
Import Py Transcription.

Lemma phrase_facts (p : str) :
  In p problem_phrases ->
  p <> [] /\ existsb isspace p = false
  /\ existsb (char_eqb dquote) p = false
  /\ contains p (of_ascii "{") = false
  /\ contains p (of_ascii "}") = false
  /\ contains p (of_ascii "{" ++ utterance_key ++ of_ascii ": ") = false
  /\ (2 <=? List.length p) = true.
Proof.
  simpl. intros H.
  repeat (destruct H as [<- | H];
          [repeat split; try reflexivity; discriminate|]).
  destruct H.
Qed.

Lemma filler_free_inv (token p : str) :
  filler_free token = true -> In p problem_phrases ->
  contains p token = false.
Proof.
  unfold filler_free. rewrite forallb_forall. intros H Hp.
  apply negb_true_iff. apply H. exact Hp.
Qed.

(** Without a filler phrase in the token, no phrase check fires on the
    repeated token. *)
Lemma phrases_quiet (token sep : str) (n : nat) :
  plain_token token = true -> blank sep = true ->
  filler_free token = true ->
  forall p, In p problem_phrases ->
  contains p (repeated token sep n) = false.
Proof.
  intros Ht Hs Hf p Hp.
  destruct (phrase_facts p Hp) as (Hne & Hw & _).
  apply contains_repeated; auto using filler_free_inv.
Qed.

Lemma phrase_loop_quiet (u : str) :
  (forall p, In p problem_phrases -> contains p u = false) ->
  existsb (phrase_repeated u) problem_phrases = false.
Proof.
  intros H. apply existsb_false_iff. intros p Hp.
  destruct (phrase_facts p Hp) as (Hne & _).
  unfold phrase_repeated. rewrite count_absent by auto. reflexivity.
Qed.

Lemma whole_text_quiet (text : str) :
  (forall p, In p problem_phrases -> contains p text = false) ->
  _check_whole_text_repetition text = false.
Proof.
  intros H. apply existsb_false_iff. intros p Hp.
  destruct (phrase_facts p Hp) as (Hne & _).
  unfold phrase_floods. rewrite count_absent by auto.
  replace (contains (repeat_str p 70) text) with false.
  - apply andb_false_r.
  - symmetry. apply not_true_iff_false. intros E.
    change (repeat_str p 70) with (p ++ repeat_str p 69) in E.
    apply contains_prefix in E. rewrite (H p Hp) in E. discriminate.
Qed.

Lemma existsb_agree {A} (f g : A -> bool) (l : list A) :
  (forall x, In x l -> f x = g x) -> existsb f l = existsb g l.
Proof.
  induction l as [|a l IH]; intros H; [reflexivity|]. simpl.
  rewrite (H a) by (left; reflexivity). f_equal. apply IH.
  intros x Hx. apply H. right. exact Hx.
Qed.

Lemma existsb_negb_forallb {A} (f : A -> bool) (l : list A) :
  existsb f l = negb (forallb (fun x => negb (f x)) l).
Proof.
  induction l as [|a l IH]; [reflexivity|]. simpl.
  rewrite IH, negb_andb, negb_involutive. reflexivity.
Qed.

(** From 70 repetitions on, the phrase loop fires exactly when a filler
    phrase occurs in the token. *)
Lemma phrase_loop_repeated (token sep : str) (n : nat) :
  plain_token token = true -> blank sep = true -> 70 <= n ->
  existsb (phrase_repeated (repeated token sep n)) problem_phrases
  = negb (filler_free token).
Proof.
  intros Ht Hs Hn. unfold filler_free.
  rewrite <- existsb_negb_forallb. apply existsb_agree. intros p Hp.
  destruct (phrase_facts p Hp) as (Hne & Hw & _).
  unfold phrase_repeated. rewrite count_repeated by assumption.
  destruct (contains p token) eqn:E.
  - apply count_from_present in E; [|exact Hne].
    replace (count p token) with (count_from p 0 token)
      by (destruct p; [congruence | reflexivity]).
    apply Nat.leb_le. nia.
  - rewrite (count_absent p token Hne E). rewrite Nat.mul_0_r. reflexivity.
Qed.

Lemma payload_quiet (token sep : str) (n : nat) :
  plain_token token = true -> blank sep = true ->
  quoteless token = true -> filler_free token = true -> n < 80 ->
  is_problematic_transcription (utterance_payload (repeated token sep n))
  = false.
Proof.
  intros Ht Hs Hq Hf Hn.
  set (u := repeated token sep n).
  assert (Hu : forall p, In p problem_phrases -> contains p u = false)
    by (apply phrases_quiet; assumption).
  assert (Hsingle : _check_single_utterance_repetition u = false).
  { unfold u. rewrite single_utterance_repeated by assumption.
    rewrite phrase_loop_quiet by exact Hu.
    rewrite orb_false_r. apply Nat.leb_gt. exact Hn. }
  unfold is_problematic_transcription.
  change (utterance_payload u) with (123%N :: tl (utterance_payload u)) at 1.
  cbv iota.
  rewrite contains_payload by (reflexivity || discriminate).
  unfold u at 1. rewrite marker_not_repeated by assumption.
  rewrite findall_payload by (apply repeated_quoteless; assumption).
  simpl existsb. rewrite Hsingle. simpl.
  apply whole_text_quiet. intros p Hp.
  destruct (phrase_facts p Hp) as (Hne & _ & Hd & H1 & H2 & H3 & _).
  rewrite contains_payload by assumption. apply Hu. exact Hp.
Qed.

(** C4 (as stated, refuted): the filler phrase U+3046 U+3093 U+3002 is a
    token of three characters; written 79 times in one utterance it makes
    the detector answer true, through the phrase check (70 occurrences or
    more). *)
Lemma C4_counterexample :
  plain_token token_un = true
  /\ _check_single_utterance_repetition (repeated token_un [space] 79) = true
  /\ is_problematic_transcription
       (utterance_payload (repeated token_un [space] 79)) = true.
Proof. vm_compute. repeat split. Qed.

(** C4 (amended): for every token of two characters or more without
    whitespace, written with whitespace in between,
    - 80 repetitions make the utterance check answer true, and so the
      detector on every text one of whose utterances this is;
    - at 79 repetitions the utterance check answers false exactly when no
      filler phrase occurs in the token;
    - on the text made of that one utterance (the token holding no quote
      or backslash), the detector answers true at 80 repetitions, and at 79
      it answers false exactly when no filler phrase occurs in the token. *)
Theorem C4_repetition_boundary (token sep : str) :
  plain_token token = true -> blank sep = true ->
  _check_single_utterance_repetition (repeated token sep 80) = true
  /\ (forall text,
        In (repeated token sep 80) (findall_utterances text) ->
        is_problematic_transcription text = true)
  /\ _check_single_utterance_repetition (repeated token sep 79)
     = negb (filler_free token)
  /\ (quoteless token = true ->
      is_problematic_transcription
        (utterance_payload (repeated token sep 80)) = true
      /\ is_problematic_transcription
           (utterance_payload (repeated token sep 79))
         = negb (filler_free token)).
Proof.
  intros Ht Hs.
  assert (H80 : _check_single_utterance_repetition (repeated token sep 80)
                = true)
    by (rewrite single_utterance_repeated by assumption; reflexivity).
  assert (H79 : _check_single_utterance_repetition (repeated token sep 79)
                = negb (filler_free token)).
  { rewrite single_utterance_repeated by assumption.
    rewrite phrase_loop_repeated by (assumption || lia). reflexivity. }
  split; [exact H80|]. split; [|split; [exact H79|]].
  - intros text Hin. apply (detector_of_utterance text _ Hin H80).
  - intros Hq.
    assert (Hfind : forall n, In (repeated token sep n)
                      (findall_utterances
                         (utterance_payload (repeated token sep n)))).
    { intros n.
      rewrite findall_payload by (apply repeated_quoteless; assumption).
      left. reflexivity. }
    split.
    + apply (detector_of_utterance _ _ (Hfind 80) H80).
    + destruct (filler_free token) eqn:Hf.
      * apply payload_quiet; auto.
      * apply (detector_of_utterance _ _ (Hfind 79)). exact H79.
Qed.

(** The theorem at the token [ab] separated by one space. *)
Lemma C4_witness :
  plain_token token_ab = true /\ blank [space] = true
  /\ is_problematic_transcription
       (utterance_payload (repeated token_ab [space] 80)) = true
  /\ is_problematic_transcription
       (utterance_payload (repeated token_ab [space] 79)) = false.
Proof.
  split; [reflexivity|]. split; [reflexivity|].
  destruct (C4_repetition_boundary token_ab [space] eq_refl eq_refl)
    as (_ & _ & _ & H).
  destruct (H eq_refl) as (H80 & H79).
  split; [exact H80 | exact H79].
Defined.

End RepetitionBoundary.

(** ** C1 and C3: the per-segment loop *)

Section SegmentLoop.
Import Py Transcription.

Variable env : Env.

Lemma segment_loop_kept (files : list str) :
  forall i acc st,
  fst (segment_loop env i files acc st)
  = acc ++ kept_results env i files (accepted_texts env files st).
Proof.
  induction files as [|file files IH]; intros i acc st; simpl.
  - rewrite app_nil_r. reflexivity.
  - destruct (transcribe_segment env MAX_RETRIES file st) as [t st'].
    simpl. destruct (falsy t); rewrite IH; simpl.
    + reflexivity.
    + rewrite <- app_assoc. reflexivity.
Qed.

Lemma accepted_texts_length (files : list str) :
  forall st, List.length (accepted_texts env files st) = List.length files.
Proof.
  induction files as [|file files IH]; intros st; simpl; [reflexivity|].
  destruct (transcribe_segment env MAX_RETRIES file st) as [t st'].
  simpl. rewrite IH. reflexivity.
Qed.

Lemma kept_results_segments (files : list str) :
  forall i texts,
  List.length texts = List.length files ->
  map segment (kept_results env i files texts)
  = filter (fun j => negb (falsy (nth (j - i) texts None)))
           (seq i (List.length files)).
Proof.
  induction files as [|file files IH]; intros i [|t ts] Hlen;
    try discriminate Hlen; [reflexivity|].
  simpl in Hlen. apply Nat.succ_inj in Hlen.
  cbn [kept_results List.length seq filter].
  rewrite map_app, (IH (S i) ts Hlen).
  assert (E : filter (fun j => negb (falsy (nth (j - i) (t :: ts) None)))
                (seq (S i) (List.length files))
              = filter (fun j => negb (falsy (nth (j - S i) ts None)))
                  (seq (S i) (List.length files))).
  { apply filter_ext_in. intros j Hj. apply in_seq in Hj.
    replace (j - i) with (S (j - S i)) by lia. reflexivity. }
  rewrite E, Nat.sub_diag. cbn [nth]. destruct (falsy t); reflexivity.
Qed.

Lemma kept_results_length (files : list str) :
  forall i texts,
  List.length (kept_results env i files texts) <= List.length files.
Proof.
  induction files as [|file files IH]; intros i [|t ts]; simpl; try lia.
  rewrite length_app. specialize (IH (S i) ts).
  destruct (falsy t); simpl; lia.
Qed.

(** *** The attempts made for one segment *)

Variable segment_file : str.
Variable max_retries : nat.

Lemma attempt_loop_calls (todo : list nat) :
  forall segment_text st,
  let st' := snd (attempt_loop env segment_file max_retries todo
                    segment_text st) in
  calls st <= calls st' <= calls st + List.length todo
  /\ (todo <> [] -> calls st < calls st').
Proof.
  induction todo as [|attempt rest IH]; intros segment_text st; simpl.
  - split; [lia | congruence].
  - destruct (transcribe_audio env (calls st) segment_file) as [raw | e].
    + destruct (negb (str_eqb (normalize raw) [])
                && is_problematic_transcription (normalize raw)).
      * destruct (attempt <? max_retries).
        -- destruct (IH (Some (normalize raw)) (called st)) as [H _].
           simpl in H. split; [lia | intros _; lia].
        -- simpl. split; [lia | intros _; lia].
      * simpl. split; [lia | intros _; lia].
    + destruct (attempt <? max_retries).
      * destruct (IH segment_text (called st)) as [H _].
        simpl in H. split; [lia | intros _; lia].
      * destruct (IH (Some []) (flagged (called st))) as [H _].
        simpl in H. split; [lia | intros _; lia].
Qed.

Lemma defective_reply_inv (r : api_reply) :
  defective_reply r = true ->
  exists raw, r = Reply raw
    /\ negb (str_eqb (normalize raw) [])
       && is_problematic_transcription (normalize raw) = true.
Proof.
  destruct r as [raw | e]; simpl; [|discriminate].
  intros H. exists raw. split; [reflexivity | exact H].
Qed.

(** When every attempt is classified defective the loop goes through all
    of them, keeps the text of the last and raises the flag. *)
Lemma attempt_loop_all_defective (n : nat) :
  forall a segment_text st,
  a + n = max_retries + 1 -> 1 <= n ->
  (forall k, k < n ->
     defective_reply (transcribe_audio env (calls st + k) segment_file)
     = true) ->
  attempt_loop env segment_file max_retries (seq a n) segment_text st
  = (Some (reply_text
             (transcribe_audio env (calls st + (n - 1)) segment_file)),
     {| calls := calls st + n; has_reached_max_retries := true |}).
Proof.
  induction n as [|n IH]; intros a segment_text st Ha Hn Hdef; [lia|].
  destruct (defective_reply_inv _ (Hdef 0 ltac:(lia))) as (raw & Er & Hr).
  rewrite Nat.add_0_r in Er.
  cbn [seq attempt_loop]. rewrite Er, Hr.
  destruct n as [|n].
  - replace (a <? max_retries) with false
      by (symmetry; apply Nat.ltb_ge; lia).
    simpl. rewrite Nat.add_0_r, Er. simpl.
    unfold flagged, called. simpl. do 2 f_equal. lia.
  - replace (a <? max_retries) with true
      by (symmetry; apply Nat.ltb_lt; lia).
    rewrite (IH (S a) (Some (normalize raw)) (called st)); try lia.
    + simpl. do 3 f_equal; try lia. f_equal. lia.
    + intros k Hk. simpl. rewrite <- Nat.add_succ_r. apply Hdef. lia.
Qed.

End SegmentLoop.

Section SegmentLoopClaims.
Import Py Transcription.

Lemma filter_all {A} (f : A -> bool) (l : list A) :
  (forall x, In x l -> f x = true) -> filter f l = l.
Proof.
  induction l as [|a l IH]; intros H; [reflexivity|]. simpl.
  rewrite (H a) by (left; reflexivity). f_equal. apply IH.
  intros x Hx. apply H. right. exact Hx.
Qed.

(** C1 (as stated, refuted): with one segment and a service that fails on
    every call, the three attempts are spent, the accepted text is empty and
    the segment gets no entry: the result list is empty, not of length 1. *)
Lemma C1_counterexample :
  List.length [sample_file] = 1
  /\ transcribe_all failing_env [sample_file]
     = ([], {| calls := 3; has_reached_max_retries := true |}).
Proof. vm_compute. split; reflexivity. Qed.

(** C1 (amended): the result list holds one entry for each input segment
    whose accepted text is not empty, and none for the others; the entries
    carry the 1-based indices of their segments in increasing order; there
    are at most N of them, and exactly N, numbered 1..N, when no accepted
    text is empty. *)
Theorem C1_entries_of_kept_segments (env : Env) (split_files : list str) :
  let texts := accepted_texts env split_files initial_state in
  let all_transcriptions := fst (transcribe_all env split_files) in
  List.length texts = List.length split_files
  /\ all_transcriptions = kept_results env 1 split_files texts
  /\ map segment all_transcriptions
     = filter (fun i => negb (falsy (nth (i - 1) texts None)))
              (seq 1 (List.length split_files))
  /\ List.length all_transcriptions <= List.length split_files
  /\ (forallb (fun t => negb (falsy t)) texts = true ->
      map segment all_transcriptions = seq 1 (List.length split_files)).
Proof.
  intros texts all_transcriptions.
  assert (Hlen : List.length texts = List.length split_files)
    by apply accepted_texts_length.
  assert (Hall : all_transcriptions = kept_results env 1 split_files texts)
    by (unfold all_transcriptions, transcribe_all;
        rewrite segment_loop_kept; reflexivity).
  assert (Hseg : map segment all_transcriptions
                 = filter (fun i => negb (falsy (nth (i - 1) texts None)))
                          (seq 1 (List.length split_files)))
    by (rewrite Hall; apply kept_results_segments; exact Hlen).
  repeat split; try assumption.
  - rewrite Hall. apply kept_results_length.
  - intros Hfull. rewrite Hseg. apply filter_all.
    intros i Hi. apply in_seq in Hi.
    rewrite forallb_forall in Hfull. apply Hfull.
    apply nth_In. lia.
Qed.

(** C3 (as stated, refuted): the first attempt is classified defective, the
    second is not; the loop stops after one additional attempt, keeps the
    second text and leaves the flag down. *)
Lemma C3_counterexample :
  defective_reply (transcribe_audio recovering_env 0 sample_file) = true
  /\ transcribe_segment recovering_env MAX_RETRIES sample_file initial_state
     = (Some (of_ascii "ok"),
        {| calls := 2; has_reached_max_retries := false |}).
Proof. vm_compute. split; reflexivity. Qed.

(** C3 (amended): for every segment, at least one and at most
    [max_retries + 1] attempts are made; when every attempt is classified
    defective, exactly [max_retries] additional attempts follow the first,
    the text of the last attempt is accepted and the max-retries flag is
    set. *)
Theorem C3_retry_budget (env : Env) (segment_file : str)
  (max_retries : nat) (st : State) :
  let r := transcribe_segment env max_retries segment_file st in
  calls st < calls (snd r) <= calls st + (max_retries + 1)
  /\ ((forall k, k <= max_retries ->
         defective_reply (transcribe_audio env (calls st + k) segment_file)
         = true) ->
      calls (snd r) = calls st + (max_retries + 1)
      /\ fst r = Some (reply_text
                         (transcribe_audio env (calls st + max_retries)
                            segment_file))
      /\ has_reached_max_retries (snd r) = true).
Proof.
  intros r. unfold r, transcribe_segment. split.
  - destruct (attempt_loop_calls env segment_file max_retries
                (seq 0 (max_retries + 1)) None st) as [H1 H2].
    rewrite length_seq in H1. split; [|lia].
    apply H2. rewrite Nat.add_1_r. discriminate.
  - intros Hdef.
    rewrite (attempt_loop_all_defective env segment_file max_retries
               (max_retries + 1) 0 None st); try lia.
    + simpl. repeat split. do 3 f_equal. lia.
    + intros k Hk. apply Hdef. lia.
Qed.

(** The theorem at [MAX_RETRIES] and a service that echoes the marker for
    ever: three attempts, the echoed text kept, the flag set. *)
Lemma C3_witness :
  transcribe_segment stalled_env MAX_RETRIES sample_file initial_state
  = (Some failure_marker, {| calls := 3; has_reached_max_retries := true |})
  /\ calls (snd (transcribe_segment stalled_env MAX_RETRIES sample_file
                   initial_state)) = 0 + (MAX_RETRIES + 1).
Proof.
  split; [reflexivity|].
  refine (proj1 (proj2 (C3_retry_budget stalled_env sample_file MAX_RETRIES
                          initial_state) _)).
  intros k _. simpl. destruct k; reflexivity.
Defined.

(** Over a whole run no segment gets more than [MAX_RETRIES + 1] calls. *)
Lemma segment_loop_calls (env : Env) (files : list str) :
  forall i acc st,
  calls (snd (segment_loop env i files acc st))
  <= calls st + (MAX_RETRIES + 1) * List.length files.
Proof.
  induction files as [|file files IH]; intros i acc st; simpl; [lia|].
  pose proof (attempt_loop_calls env file MAX_RETRIES
                (seq 0 (MAX_RETRIES + 1)) None st) as [[_ Hle] _].
  fold (transcribe_segment env MAX_RETRIES file st) in Hle.
  destruct (transcribe_segment env MAX_RETRIES file st) as [t st'].
  simpl in Hle.
  destruct (falsy t).
  - specialize (IH (S i) acc st'). simpl in *. lia.
  - specialize (IH (S i) (acc ++ [make_result env i file t]) st').
    simpl in *. lia.
Qed.

End SegmentLoopClaims.

(** ** The silence-aware splitter *)

Section SplitterFacts.
Import AudioSplitter.
Local Open Scope Z_scope.

Context {lib : AudioLib}.

Lemma py_range_In (stop step x : Z) :
  0 < step -> In x (py_range stop step) ->
  0 <= x < stop /\ exists k : nat, x = Z.of_nat k * step.
Proof.
  intros Hstep Hin. unfold py_range in Hin.
  apply in_map_iff in Hin as (k & <- & Hk). apply in_seq in Hk.
  split; [|exists k; reflexivity].
  assert (Hq : Z.of_nat k < (stop + step - 1) / step) by lia.
  pose proof (Z.mul_div_le (stop + step - 1) step Hstep). nia.
Qed.

Lemma select_loop_inv (P : Z -> Prop) (silence_ranges : list (Z * Z))
  (target_position : Z) :
  (forall s e, In (s, e) silence_ranges -> P ((s + e) / 2)) ->
  forall best_distance best_position,
  P best_position ->
  P (select_loop silence_ranges target_position best_distance best_position).
Proof.
  induction silence_ranges as [|[s e] rest IH]; intros Hmid bd bp Hbp;
    [exact Hbp|].
  simpl. destruct (below _ bd); apply IH;
    try (intros s' e' H; apply Hmid; right; exact H); auto.
  apply Hmid. left. reflexivity.
Qed.

(** With at least one range, the position chosen is the middle of one. *)
Lemma select_best_inv (P : Z -> Prop) (silence_ranges : list (Z * Z))
  (target_position : Z) :
  silence_ranges <> [] ->
  (forall s e, In (s, e) silence_ranges -> P ((s + e) / 2)) ->
  P (_select_best_silence silence_ranges target_position).
Proof.
  destruct silence_ranges as [|[s e] rest]; [congruence|]. intros _ Hmid.
  unfold _select_best_silence. simpl.
  apply select_loop_inv.
  - intros s' e' H. apply Hmid. right. exact H.
  - apply Hmid. left. reflexivity.
Qed.

Lemma min_volume_loop_inv (P : Z -> Prop) (audio_segment : audio)
  (starts : list Z) :
  (forall i, In i starts -> P (i + window_size / 2)) ->
  forall min_volume min_position,
  P min_position ->
  P (min_volume_loop audio_segment starts min_volume min_position).
Proof.
  induction starts as [|i rest IH]; intros Hpos mv mp Hmp; [exact Hmp|].
  simpl. destruct (below _ mv); apply IH;
    try (intros j H; apply Hpos; right; exact H); auto.
  apply Hpos. left. reflexivity.
Qed.

Lemma find_min_volume_position_range (audio_segment : audio) :
  0 < len audio_segment ->
  0 <= _find_min_volume_position audio_segment < len audio_segment.
Proof.
  intros Hlen. unfold _find_min_volume_position.
  apply (min_volume_loop_inv (fun x => 0 <= x < len audio_segment));
    [|lia].
  intros i Hi. apply py_range_In in Hi as [Hi _]; [|reflexivity].
  unfold window_size in *. change (100 / 2) with 50. lia.
Qed.

Lemma threshold_loop_In (search_segment : audio) (todo : list Z) :
  forall acc r,
  In r (threshold_loop search_segment todo acc) ->
  In r acc
  \/ exists thresh, In r (detect_silence search_segment min_silence_len thresh).
Proof.
  induction todo as [|thresh rest IH]; intros acc r Hr; [left; exact Hr|].
  simpl in Hr.
  destruct (detect_silence search_segment min_silence_len thresh) eqn:E.
  - apply IH in Hr as [[] | Hr]. right. exact Hr.
  - right. exists thresh. rewrite E. exact Hr.
Qed.

Lemma window_facts (a : audio) (target_ms : Z) :
  0 <= target_ms ->
  let target := Z.min target_ms (len a) in
  0 <= search_start a target_ms <= target
  /\ target <= search_end a target_ms <= len a
  /\ target - margin_ms <= search_start a target_ms
  /\ search_end a target_ms <= target + margin_ms.
Proof.
  intros Ht. pose proof (len_nonneg a).
  unfold search_start, search_end, margin_ms. cbv zeta. lia.
Qed.

(** The boundary chosen lies in the window searched, and strictly before
    its end unless the target is the end of the recording. *)
Lemma find_optimal_in_window (a : audio) (target_ms : Z) :
  0 <= target_ms ->
  search_start a target_ms <= _find_optimal_split_point a target_ms
                           <= search_end a target_ms
  /\ (target_ms < len a ->
      _find_optimal_split_point a target_ms < search_end a target_ms).
Proof.
  intros Ht.
  destruct (window_facts a target_ms Ht) as (Hs & He & _).
  unfold _find_optimal_split_point. cbv zeta.
  set (start := search_start a target_ms) in *.
  set (stop := search_end a target_ms) in *.
  destruct (stop - start <? min_silence_len * 2) eqn:Enarrow.
  - split; [lia|]. intros Hlt.
    unfold stop, search_end, margin_ms. lia.
  - apply Z.ltb_ge in Enarrow. unfold min_silence_len in Enarrow.
    assert (Hlen : len (slice a start stop) = stop - start)
      by (apply len_slice; lia).
    destruct (threshold_loop (slice a start stop) thresholds []) eqn:Eth.
    + pose proof (find_min_volume_position_range (slice a start stop)).
      lia.
    + assert (Hmid : 0 <= _select_best_silence (p :: l)
                            (Z.min target_ms (len a) - start)
                     < stop - start).
      { apply (select_best_inv (fun x => 0 <= x < stop - start));
          [discriminate|].
        intros s e Hin. rewrite <- Eth in Hin.
        apply threshold_loop_In in Hin as [[] | [thresh Hin]].
        apply detect_silence_range in Hin. rewrite Hlen in Hin.
        unfold min_silence_len in Hin.
        split.
        - apply Z.div_pos; lia.
        - apply Z.div_lt_upper_bound; lia. }
      lia.
Qed.

End SplitterFacts.

Section SplitPlanFacts.
Import AudioSplitter.
Local Open Scope Z_scope.

Context {lib : AudioLib}.

Lemma py_range_shape (stop step : Z) :
  0 < stop -> 0 < step ->
  exists m : nat,
    py_range stop step = 0 :: multiples step 1 m
    /\ forall x, In x (multiples step 1 m) -> 0 < x < stop.
Proof.
  intros Hstop Hstep.
  assert (Hq : 1 <= (stop + step - 1) / step)
    by (apply Z.div_le_lower_bound; lia).
  destruct (Z.to_nat ((stop + step - 1) / step)) as [|m] eqn:E; [lia|].
  exists m. split.
  - unfold py_range, multiples. rewrite E. reflexivity.
  - intros x Hx.
    assert (Hin : In x (py_range stop step)).
    { unfold py_range. rewrite E. simpl. right. exact Hx. }
    apply py_range_In in Hin as [Hin _]; [|exact Hstep].
    unfold multiples in Hx. apply in_map_iff in Hx as (j & <- & Hj).
    apply in_seq in Hj. nia.
Qed.

Lemma last_app_one (l : list Z) (x d : Z) : last (l ++ [x]) d = x.
Proof. apply last_last. Qed.

Lemma last_in_list (l : list Z) (d : Z) : l <> [] -> In (last l d) l.
Proof.
  induction l as [|x l IH]; [congruence|]. intros _.
  destruct l as [|y l]; [left; reflexivity|].
  right. apply IH. discriminate.
Qed.

(** The shape of the plan for a recording of positive length. *)
Lemma split_plan_shape (a : audio) (segment_length_ms : Z) :
  0 < len a -> 0 < segment_length_ms ->
  exists m : nat,
    split_plan a segment_length_ms
    = Some (0 :: map (_find_optimal_split_point a)
                     (multiples segment_length_ms 1 m) ++ [len a])
    /\ forall x, In x (multiples segment_length_ms 1 m) -> 0 < x < len a.
Proof.
  intros Hlen Hseg.
  destruct (py_range_shape (len a) segment_length_ms Hlen Hseg)
    as (m & Hrange & Hin).
  exists m. split; [|exact Hin].
  unfold split_plan, theoretical_split_points.
  replace (segment_length_ms <=? 0) with false
    by (symmetry; apply Z.leb_gt; exact Hseg).
  rewrite Hrange.
  assert (Hlast : (last (0 :: multiples segment_length_ms 1 m) 0 =? len a)
                  = false).
  { apply Z.eqb_neq. intros E.
    pose proof (last_in_list (0 :: multiples segment_length_ms 1 m) 0
                  ltac:(discriminate)) as Hl.
    rewrite E in Hl. destruct Hl as [Hl | Hl]; [lia|].
    apply Hin in Hl. lia. }
  rewrite Hlast. unfold _determine_all_split_points.
  cbn [app]. rewrite removelast_last, last_app_one.
  destruct (multiples segment_length_ms 1 m ++ [len a]) eqn:E.
  - destruct (multiples segment_length_ms 1 m); discriminate E.
  - reflexivity.
Qed.

(** Consecutive windows do not overlap when the segment length is at least
    twice the margin, so the boundaries chosen in them increase. *)
Lemma increasing_chain (a : audio) (segment_length_ms : Z) (m : nat) :
  2 * margin_ms <= segment_length_ms ->
  forall (k : nat) (prev : Z),
  prev < Z.of_nat k * segment_length_ms - margin_ms ->
  prev < len a ->
  (forall x, In x (multiples segment_length_ms k m) -> 0 < x < len a) ->
  increasing (prev :: map (_find_optimal_split_point a)
                        (multiples segment_length_ms k m) ++ [len a])
  = true.
Proof.
  intros Hseg. unfold margin_ms in *.
  induction m as [|m IH]; intros k prev Hprev Hlen Hin.
  - simpl. rewrite andb_true_r. apply Z.ltb_lt. exact Hlen.
  - unfold multiples in *. cbn [seq map app].
    set (t := Z.of_nat k * segment_length_ms) in *.
    assert (Ht : 0 < t < len a) by (apply Hin; left; reflexivity).
    destruct (find_optimal_in_window a t ltac:(lia)) as [[Hlo _] Hhi].
    specialize (Hhi ltac:(lia)).
    destruct (window_facts a t ltac:(lia)) as (_ & [_ He] & Hs & Hm).
    cbv zeta in Hs, Hm. unfold margin_ms in Hs, Hm.
    replace (Z.min t (len a)) with t in Hs, Hm by lia.
    change (increasing (prev :: ?x :: ?rest))
      with ((prev <? x) && increasing (x :: rest)).
    apply andb_true_iff. split; [apply Z.ltb_lt; lia|].
    apply IH; try lia.
    intros x Hx. apply Hin. right. exact Hx.
Qed.

Lemma increasing_sorted (l : list Z) :
  increasing l = true -> Sorted.LocallySorted Z.lt l.
Proof.
  induction l as [|x l IH]; [constructor|].
  destruct l as [|y l]; [constructor|].
  change (increasing (x :: y :: l))
    with ((x <? y) && increasing (y :: l)).
  rewrite andb_true_iff, Z.ltb_lt. intros [Hxy H].
  constructor; auto.
Qed.

End SplitPlanFacts.

(** ** C2 and C8: the split plan *)

Section SplitPlanClaims.
Import AudioSplitter.
Local Open Scope Z_scope.

(** C8: a boundary looked for around a target inside the recording stays
    within the margin (10 s) of the target, and is the target itself when
    the window searched is narrower than twice the minimum silence length. *)
Theorem C8_boundary_within_margin {lib : AudioLib} (a : audio)
  (target_ms : Z) :
  0 <= target_ms <= len a ->
  Z.abs (_find_optimal_split_point a target_ms - target_ms) <= margin_ms
  /\ (search_end a target_ms - search_start a target_ms
        < 2 * min_silence_len ->
      _find_optimal_split_point a target_ms = target_ms).
Proof.
  intros [H0 Hlen]. split.
  - destruct (find_optimal_in_window a target_ms H0) as [[Hlo Hhi] _].
    destruct (window_facts a target_ms H0) as (_ & _ & Hs & He).
    cbv zeta in Hs, He. lia.
  - intros Hnarrow. unfold _find_optimal_split_point. cbv zeta.
    replace (search_end a target_ms - search_start a target_ms
               <? min_silence_len * 2) with true
      by (symmetry; apply Z.ltb_lt; lia).
    lia.
Qed.

(** The theorem on the synthetic recordings: the boundary near 10 s moves
    to the middle of the quiet stretch, 5 s away; in the 0.8 s recording the
    window is too narrow and the target is kept. *)
Lemma C8_witness :
  (0 <= 10000 <= @len synth_lib short_recording
   /\ @_find_optimal_split_point synth_lib short_recording 10000 = 15000
   /\ Z.abs (@_find_optimal_split_point synth_lib short_recording 10000
             - 10000) <= margin_ms)
  /\ (0 <= 400 <= @len synth_lib tiny_recording
      /\ @_find_optimal_split_point synth_lib tiny_recording 400 = 400).
Proof.
  assert (H1 : 0 <= 10000 <= @len synth_lib short_recording)
    by (vm_compute; split; discriminate).
  assert (H2 : 0 <= 400 <= @len synth_lib tiny_recording)
    by (vm_compute; split; discriminate).
  split.
  - split; [exact H1|]. split; [reflexivity|].
    exact (proj1 (@C8_boundary_within_margin synth_lib short_recording
                    10000 H1)).
  - split; [exact H2|].
    apply (proj2 (@C8_boundary_within_margin synth_lib tiny_recording
                    400 H2)).
    vm_compute. reflexivity.
Defined.

(** C2 (as stated, refuted): 40 s of audio, a target segment length of 10 s
    and one quiet stretch around 15 s. The windows around 10 s and 20 s both
    hold the stretch, both boundaries move to its middle, and the plan has
    two equal consecutive boundaries. *)
Lemma C2_counterexample :
  0 < @len synth_lib short_recording
  /\ @split_plan synth_lib short_recording 10000
     = Some [0; 15000; 15000; 20050; 40000]
  /\ increasing [0; 15000; 15000; 20050; 40000] = false.
Proof. vm_compute. repeat split. Qed.

(** C2 (amended): for a recording of positive length and a positive target
    segment length the plan exists, starts at 0, ends at the duration and
    keeps every boundary within [0, duration]; it is strictly increasing
    whenever the target segment length is at least twice the margin
    (20 s). *)
Theorem C2_split_plan {lib : AudioLib} (a : audio) (segment_length_ms : Z) :
  0 < len a -> 0 < segment_length_ms ->
  exists plan,
    split_plan a segment_length_ms = Some plan
    /\ hd_error plan = Some 0
    /\ last plan 0 = len a
    /\ Forall (fun b => 0 <= b <= len a) plan
    /\ (2 * margin_ms <= segment_length_ms -> LocallySorted Z.lt plan).
Proof.
  intros Hlen Hseg.
  destruct (split_plan_shape a segment_length_ms Hlen Hseg)
    as (m & Hplan & Hin).
  eexists. split; [exact Hplan|]. split; [reflexivity|]. split; [|split].
  - change (0 :: ?l ++ [len a]) with ((0 :: l) ++ [len a]).
    apply last_last.
  - constructor; [lia|]. apply Forall_app. split.
    + apply Forall_forall. intros b Hb.
      apply in_map_iff in Hb as (t & <- & Ht). apply Hin in Ht.
      destruct (find_optimal_in_window a t ltac:(lia)) as [[Hlo Hhi] _].
      destruct (window_facts a t ltac:(lia)) as ([Hs _] & [_ He] & _).
      lia.
    + constructor; [lia | constructor].
  - intros Hwide. apply increasing_sorted.
    apply increasing_chain; auto.
    unfold margin_ms in *. lia.
Qed.

(** The theorem on 21 min 40 s of synthetic audio cut every ten minutes. *)
Lemma C2_witness :
  0 < @len synth_lib long_recording
  /\ 0 < 600000
  /\ exists plan,
       @split_plan synth_lib long_recording 600000 = Some plan
       /\ LocallySorted Z.lt plan.
Proof.
  split; [reflexivity|]. split; [reflexivity|].
  destruct (@C2_split_plan synth_lib long_recording 600000 eq_refl eq_refl)
    as (plan & Hplan & _ & _ & _ & Hsorted).
  exists plan. split; [exact Hplan|].
  apply Hsorted. vm_compute. discriminate.
Defined.

Example long_recording_plan :
  @split_plan synth_lib long_recording 600000
  = Some [0; 598500; 1190050; 1300000].
Proof. vm_compute. reflexivity. Qed.

End SplitPlanClaims.

(** ** C5: what is sent to the text-generation call *)

Section Requests.
Import Py SpeakerRemapper MeetingTitleService.
Local Open Scope Z_scope.

Lemma find_at_spec (p s : str) :
  forall i r, find_at p s i = r -> r <> -1 -> 0 <= i ->
  i <= r /\ startswith p (skipn (Z.to_nat (r - i)) s) = true.
Proof.
  induction s as [|c s IH]; intros i r Hr Hne Hi; simpl in Hr.
  - destruct (startswith p []) eqn:E; [|congruence]. subst r.
    rewrite Z.sub_diag. simpl. split; [lia | exact E].
  - destruct (startswith p (c :: s)) eqn:E.
    + subst r. rewrite Z.sub_diag. simpl. split; [lia | exact E].
    + destruct (IH (i + 1) r Hr Hne ltac:(lia)) as [Hle Hs].
      split; [lia|].
      replace (Z.to_nat (r - i)) with (S (Z.to_nat (r - (i + 1)))) by lia.
      exact Hs.
Qed.

Lemma find_spec (p s : str) (start r : Z) :
  find p s start = r -> r <> -1 -> 0 <= start ->
  0 <= r /\ startswith p (skipn (Z.to_nat r) s) = true.
Proof.
  unfold find. intros Hr Hne Hs.
  destruct (Z.of_nat (List.length s) <? start); [congruence|].
  apply find_at_spec in Hr as [Hle Hp]; try assumption.
  split; [lia|].
  rewrite skipn_skipn in Hp.
  replace (Z.to_nat (r - start) + Z.to_nat start)%nat with (Z.to_nat r)
    in Hp by lia.
  exact Hp.
Qed.

(** When the loop ends, the text kept is the transcript and the loop
    variables are [at_marker]. *)
Lemma find_loop_inv (transcript_text : str) (todo : list nat) :
  forall current_index found_count,
  -1 <= current_index ->
  at_marker transcript_text current_index found_count ->
  let '(ci, fc, tft) :=
    find_loop todo transcript_text current_index found_count
      transcript_text in
  tft = transcript_text /\ at_marker transcript_text ci fc.
Proof.
  induction todo as [|i rest IH]; intros ci0 fc0 Hci Hat; simpl.
  - split; [reflexivity | exact Hat].
  - destruct (find marker transcript_text (ci0 + 1) =? -1) eqn:E.
    + split; [reflexivity|]. left. reflexivity.
    + apply Z.eqb_neq in E.
      destruct (find_spec marker transcript_text (ci0 + 1) _ eq_refl E
                  ltac:(lia)) as [H0 Hs].
      apply IH; [lia|]. right. right. split; assumption.
Qed.

Lemma text_for_title_small (transcript_text : str) :
  (count marker transcript_text <= 60)%nat ->
  text_for_title transcript_text = transcript_text.
Proof.
  intros H. unfold text_for_title. cbv zeta.
  destruct (Z.of_nat (count marker transcript_text) =? 0); [reflexivity|].
  replace (60 <? Z.of_nat (count marker transcript_text)) with false
    by (symmetry; apply Z.ltb_ge; lia).
  reflexivity.
Qed.

Lemma count_from_occurrences (p : str) (s : str) :
  forall skip, (count_from p skip s <= occurrences p s)%nat.
Proof.
  induction s as [|c s IH]; intros skip; [simpl; lia|].
  cbn [count_from occurrences].
  destruct skip as [|k].
  - destruct (startswith p (c :: s)).
    + specialize (IH (List.length p - 1)%nat). lia.
    + specialize (IH 0%nat). lia.
  - specialize (IH k). lia.
Qed.

Lemma find_at_occurrences (p s : str) :
  p <> [] ->
  forall i, 0 <= i -> (1 <= occurrences p s)%nat ->
  let j := find_at p s i in
  i <= j
  /\ occurrences p s
     = S (occurrences p (skipn (Z.to_nat (j - i) + 1) s)).
Proof.
  intros Hne. induction s as [|c s IH]; intros i Hi Hocc.
  - simpl in Hocc. destruct p; [congruence|]. simpl in Hocc. lia.
  - cbn [find_at]. cbn [occurrences] in *.
    destruct (startswith p (c :: s)) eqn:E.
    + cbv zeta. rewrite Z.sub_diag. simpl. split; [lia | reflexivity].
    + cbv zeta. simpl in Hocc.
      destruct (IH (i + 1) ltac:(lia) Hocc) as [Hle Heq].
      split; [lia|].
      replace (Z.to_nat (find_at p s (i + 1) - i) + 1)%nat
        with (S (Z.to_nat (find_at p s (i + 1) - (i + 1)) + 1))%nat by lia.
      simpl. exact Heq.
Qed.

Lemma occurrences_nil (p : str) : p <> [] -> occurrences p [] = 0%nat.
Proof. destruct p; [congruence | reflexivity]. Qed.

(** With enough occurrences ahead the loop never breaks. *)
Lemma find_loop_complete (transcript_text : str) (n : nat) :
  forall (a : nat) (ci0 fc0 : Z),
  -1 <= ci0 ->
  (n <= occurrences marker
          (skipn (Z.to_nat (ci0 + 1)) transcript_text))%nat ->
  let '(ci, fc, tft) :=
    find_loop (seq a n) transcript_text ci0 fc0 transcript_text in
  fc = if (n =? 0)%nat then fc0 else Z.of_nat (a + n).
Proof.
  induction n as [|n IH]; intros a ci0 fc0 Hci Hocc; [reflexivity|].
  cbn [seq find_loop].
  assert (Hlen : (Z.to_nat (ci0 + 1) < List.length transcript_text)%nat).
  { destruct (Nat.lt_ge_cases (Z.to_nat (ci0 + 1))
                (List.length transcript_text)) as [H | H]; [exact H|].
    rewrite skipn_all2 in Hocc by exact H.
    rewrite occurrences_nil in Hocc by discriminate. lia. }
  destruct (find_at_occurrences marker
              (skipn (Z.to_nat (ci0 + 1)) transcript_text)
              ltac:(discriminate) (ci0 + 1) ltac:(lia) ltac:(lia))
    as [Hle Heq].
  assert (Hfind : find marker transcript_text (ci0 + 1)
                  = find_at marker
                      (skipn (Z.to_nat (ci0 + 1)) transcript_text)
                      (ci0 + 1)).
  { unfold find.
    replace (Z.of_nat (List.length transcript_text) <? ci0 + 1) with false
      by (symmetry; apply Z.ltb_ge; lia).
    reflexivity. }
  rewrite <- Hfind in Hle, Heq.
  set (j := find marker transcript_text (ci0 + 1)) in *.
  replace (j =? -1) with false by (symmetry; apply Z.eqb_neq; lia).
  rewrite skipn_skipn in Heq.
  replace (Z.to_nat (j - (ci0 + 1)) + 1 + Z.to_nat (ci0 + 1))%nat
    with (Z.to_nat (j + 1)) in Heq by lia.
  specialize (IH (S a) j (Z.of_nat a + 1) ltac:(lia) ltac:(lia)).
  destruct (find_loop (seq (S a) n) transcript_text j (Z.of_nat a + 1)
              transcript_text) as [[ci fc] tft].
  rewrite IH. destruct n; simpl; lia.
Qed.

Lemma text_for_title_large (transcript_text : str) :
  (60 < count marker transcript_text)%nat ->
  exists rest,
    transcript_text = text_for_title transcript_text ++ rest
    /\ startswith marker rest = true.
Proof.
  intros Hcount.
  assert (Hocc : (60 <= occurrences marker transcript_text)%nat).
  { pose proof (count_from_occurrences marker transcript_text 0).
    change (count marker transcript_text)
      with (count_from marker 0 transcript_text) in Hcount. lia. }
  unfold text_for_title. cbv zeta.
  replace (Z.of_nat (count marker transcript_text) =? 0) with false
    by (symmetry; apply Z.eqb_neq; lia).
  replace (60 <? Z.of_nat (count marker transcript_text)) with true
    by (symmetry; apply Z.ltb_lt; lia).
  pose proof (find_loop_inv transcript_text (seq 0 60) (-1) 0 ltac:(lia)
                ltac:(right; left; reflexivity)) as Hinv.
  pose proof (find_loop_complete transcript_text 60 0 (-1) 0 ltac:(lia)
                Hocc) as Hfc.
  destruct (find_loop (seq 0 60) transcript_text (-1) 0 transcript_text)
    as [[ci fc] tft].
  destruct Hinv as [_ Hat]. simpl in Hfc. subst fc.
  change (60 =? 60) with true. cbv iota.
  destruct Hat as [H | [H | (H0 & Hs)]]; [lia | lia |].
  exists (skipn (Z.to_nat ci) transcript_text).
  split; [|exact Hs].
  unfold slice_to. symmetry. apply firstn_skipn.
Qed.

Lemma remap_request (env : Env) (remap_prompt transcript_text : str) :
  create_api env = Ok tt -> get_remap_prompt env = Ok remap_prompt ->
  snd (_get_speaker_mapping env transcript_text)
  = [(remap_prompt ++ [newline; newline] ++ transcript_text, [])].
Proof.
  intros Hc Hp. unfold _get_speaker_mapping, mapping_attempt.
  rewrite Hc, Hp. reflexivity.
Qed.

(** C5 (as stated, refuted): a transcript of 61 speaker entries. The remap
    request carries the whole transcript after the prompt, not the prefix
    that stops before the 61st marker. (The title request, where the count
    of markers is looked at, stops before the 60th marker.) *)
Lemma C5_counterexample :
  count marker (entries 61) = 61%nat
  /\ snd (_get_speaker_mapping (sample_env (Ok (of_ascii "{}")) (Ok (JObj [])))
            (entries 61))
     = [(of_ascii "remap" ++ [newline; newline] ++ entries 61, [])]
  /\ str_eqb (entries 61) (before_nth_marker 61 0 (entries 61)) = false
  /\ text_for_title (entries 61) = before_nth_marker 60 0 (entries 61)
  /\ str_eqb (text_for_title (entries 61))
             (before_nth_marker 61 0 (entries 61)) = false.
Proof. vm_compute. repeat split. Qed.

(** C5 (amended): the speaker-remap request always carries the whole
    transcript after the remap prompt and a blank line, whatever the number
    of markers. The count of markers is looked at for the title request:
    with at most 60 markers (none included) the whole transcript is sent;
    with more than 60, a proper prefix of it that stops right before a
    marker. *)
Theorem C5_requests (env : Env) (remap_prompt transcript_text : str) :
  create_api env = Ok tt -> get_remap_prompt env = Ok remap_prompt ->
  snd (_get_speaker_mapping env transcript_text)
  = [(remap_prompt ++ [newline; newline] ++ transcript_text, [])]
  /\ ((count marker transcript_text <= 60)%nat ->
      text_for_title transcript_text = transcript_text)
  /\ ((60 < count marker transcript_text)%nat ->
      exists rest,
        transcript_text = text_for_title transcript_text ++ rest
        /\ startswith marker rest = true).
Proof.
  intros Hc Hp. split; [apply remap_request; assumption|].
  split; [apply text_for_title_small | apply text_for_title_large].
Qed.

(** The theorem on a transcript of 60 entries. *)
Lemma C5_witness :
  (count marker (entries 60) <= 60)%nat
  /\ snd (_get_speaker_mapping (sample_env (Ok (of_ascii "{}")) (Ok (JObj [])))
            (entries 60))
     = [(of_ascii "remap" ++ [newline; newline] ++ entries 60, [])]
  /\ text_for_title (entries 60) = entries 60.
Proof.
  assert (H : (count marker (entries 60) <= 60)%nat)
    by (vm_compute; repeat constructor).
  split; [exact H|].
  destruct (C5_requests (sample_env (Ok (of_ascii "{}")) (Ok (JObj [])))
              (of_ascii "remap") (entries 60) eq_refl eq_refl)
    as (H1 & H2 & _).
  split; [exact H1 | exact (H2 H)].
Defined.

End Requests.

(** ** C6 and C7: the speaker mapping and the rewrite *)

Section Remapping.
Import Py SpeakerRemapper.

Lemma replace_with_empty_mapping (transcript_text : str) :
  _replace_speakers transcript_text [] = Some transcript_text.
Proof. reflexivity. Qed.

(** The mapping retrieval returns, whatever its collaborators do. *)
Lemma get_speaker_mapping_returns (env : Env) (transcript_text : str) :
  exists m, fst (_get_speaker_mapping env transcript_text) = Ok m.
Proof.
  unfold _get_speaker_mapping.
  destruct (mapping_attempt env transcript_text) as [[m | e] sent]; simpl;
    eexists; reflexivity.
Qed.

Lemma parse_without_object (loads : str -> result json) (ai_response : str) :
  (match loads (json_str_of ai_response) with
   | Ok (JObj _) => false
   | _ => true
   end) = true ->
  try_except (_parse_mapping_response loads ai_response) (fun _ => Ok [])
  = Ok [].
Proof.
  unfold _parse_mapping_response.
  destruct (loads (json_str_of ai_response)) as [[ | | | | | items] | e];
    try reflexivity; try discriminate.
  intros _. destruct (str_eqb e JSONDecodeError); reflexivity.
Qed.

(** C6: when the external call fails or its response does not parse as a
    JSON mapping, the mapping step returns the empty mapping without
    raising, and the rewrite with the empty mapping gives the transcript
    back unchanged. *)
Theorem C6_remap_degrades (env : Env) (transcript_text : str) :
  call_failed_or_unparsable env transcript_text = true ->
  fst (_get_speaker_mapping env transcript_text) = Ok []
  /\ _replace_speakers transcript_text [] = Some transcript_text.
Proof.
  intros H. split; [|reflexivity].
  unfold call_failed_or_unparsable in H.
  unfold _get_speaker_mapping, mapping_attempt.
  destruct (create_api env) as [[] | e]; [|reflexivity].
  destruct (get_remap_prompt env) as [remap_prompt | e]; [|reflexivity].
  cbn [fst].
  destruct (summarize_minutes env
              (remap_prompt ++ [newline; newline] ++ transcript_text) [])
    as [ai_response | e]; [|reflexivity].
  cbn [bind]. apply parse_without_object. exact H.
Qed.

(** The theorem when the call raises, and when the response is a JSON list
    instead of an object. *)
Lemma C6_witness :
  (fst (_get_speaker_mapping
          (sample_env (Raise (of_ascii "GeminiAPIError")) (Ok JNull))
          (field label_A)) = Ok []
   /\ _replace_speakers (field label_A) [] = Some (field label_A))
  /\ (fst (_get_speaker_mapping
             (sample_env (Ok (of_ascii "[1]")) (Ok (JArr [JNum 1])))
             (field label_A)) = Ok []
      /\ _replace_speakers (field label_A) [] = Some (field label_A)).
Proof.
  split.
  - exact (C6_remap_degrades
             (sample_env (Raise (of_ascii "GeminiAPIError")) (Ok JNull))
             (field label_A) eq_refl).
  - exact (C6_remap_degrades
             (sample_env (Ok (of_ascii "[1]")) (Ok (JArr [JNum 1])))
             (field label_A) eq_refl).
Defined.

(** *** The rewrite applied twice *)

Lemma sub_from_no_match (old_name repl s : str) :
  matches_somewhere old_name s = false ->
  sub_from old_name repl 0 s = s.
Proof.
  induction s as [|c s IH]; intros H; [reflexivity|].
  simpl in H. simpl.
  destruct (match_speaker old_name (c :: s)); [discriminate|].
  rewrite IH by exact H. reflexivity.
Qed.

Lemma replace_loop_templates (todo : mapping) :
  forall t r, replace_loop todo t = Some r ->
  forall old_name new_name, In (old_name, new_name) todo ->
  template (replacement new_name) = Some (replacement new_name).
Proof.
  induction todo as [|[o n] rest IH]; intros t r H old_name new_name Hin;
    [destruct Hin|].
  simpl in H. unfold re_sub in H.
  destruct (template (replacement n)) eqn:E; [|discriminate].
  destruct Hin as [Hin | Hin].
  - inversion Hin; subst. unfold template in *.
    destruct (existsb (char_eqb backslash) (replacement new_name));
      [discriminate | reflexivity].
  - eapply IH; eauto.
Qed.

Lemma replace_loop_fixed (todo : mapping) (r : str) :
  (forall old_name new_name, In (old_name, new_name) todo ->
     template (replacement new_name) = Some (replacement new_name)
     /\ matches_somewhere old_name r = false) ->
  replace_loop todo r = Some r.
Proof.
  induction todo as [|[o n] rest IH]; intros H; [reflexivity|].
  destruct (H o n (or_introl eq_refl)) as [Ht Hm].
  simpl. unfold re_sub. rewrite Ht, sub_from_no_match by exact Hm.
  apply IH. intros old_name new_name Hin. apply H. right. exact Hin.
Qed.

(** C7 (as stated, refuted): the mapping sends [B_seg3] to a name and
    [A_seg1] to [B_seg3], in this order. The first application turns the
    label [A_seg1] into [B_seg3]; the second turns that into the name. *)
Lemma C7_counterexample :
  _replace_speakers (field label_A) [(label_B, name_C); (label_A, label_B)]
  = Some (field label_B)
  /\ _replace_speakers (field label_B)
       [(label_B, name_C); (label_A, label_B)]
     = Some (field name_C)
  /\ str_eqb (field label_B) (field name_C) = false.
Proof. vm_compute. repeat split. Qed.

Lemma lstrip_blank_app (ws s : str) :
  forallb isspace ws = true -> lstrip (ws ++ s) = lstrip s.
Proof.
  induction ws as [|c ws IH]; [reflexivity|]. simpl.
  rewrite andb_true_iff. intros [Hc Hws]. rewrite Hc. apply IH. exact Hws.
Qed.

Lemma sub_from_skip (old_name repl pre post : str) :
  sub_from old_name repl (List.length pre) (pre ++ post)
  = sub_from old_name repl 0 post.
Proof.
  induction pre as [|c pre IH]; [reflexivity|]. simpl. exact IH.
Qed.

Lemma skipn_app_exact (p s : str) : skipn (List.length p) (p ++ s) = s.
Proof. induction p as [|c p IH]; [reflexivity | exact IH]. Qed.

(** A field of the key, whitespace, a colon, whitespace and the quoted
    label. *)
Lemma match_speaker_field (old_name ws1 ws2 rest : str) :
  forallb isspace ws1 = true -> forallb isspace ws2 = true ->
  match_speaker old_name
    (speaker_key ++ ws1 ++ colon :: ws2 ++ dquote :: old_name
       ++ dquote :: rest)
  = Some (List.length (speaker_key ++ ws1 ++ colon :: ws2 ++ dquote
                         :: old_name ++ [dquote])).
Proof.
  intros H1 H2. unfold match_speaker.
  rewrite startswith_app, skipn_app_exact. unfold skip_ws.
  rewrite (lstrip_blank_app ws1 _ H1). cbn [lstrip].
  change (isspace colon) with false. cbv iota.
  rewrite char_eqb_refl.
  rewrite (lstrip_blank_app ws2 _ H2). cbn [lstrip].
  change (isspace dquote) with false. cbv iota.
  replace (dquote :: old_name ++ dquote :: rest)
    with ((dquote :: old_name ++ [dquote]) ++ rest)
    by (simpl; rewrite <- app_assoc; reflexivity).
  rewrite startswith_app. f_equal.
  repeat (rewrite ?length_app; cbn [List.length]). lia.
Qed.

(** *** Transcripts made of speaker fields *)

Lemma startswith_pattern_prefix (a b s : str) :
  startswith (a ++ b) s = true -> startswith a s = true.
Proof.
  revert s. induction a as [|x a IH]; intros s H; [reflexivity|].
  destruct s as [|y s]; [discriminate H|].
  cbn [app startswith] in *. apply andb_true_iff in H as [Hxy H].
  rewrite Hxy. cbn [andb]. exact (IH s H).
Qed.

Lemma startswith_within (a x post : str) :
  startswith a (x ++ post) = true -> List.length a <= List.length x ->
  startswith a x = true.
Proof.
  revert x. induction a as [|c a IH]; intros x H Hl; [reflexivity|].
  destruct x as [|y x]; [simpl in Hl; lia|].
  cbn [app startswith] in *. apply andb_true_iff in H as [Hcy H].
  rewrite Hcy. cbn [andb]. apply IH; [exact H | simpl in Hl; lia].
Qed.

(** The character of the pattern that meets the first character after
    [a]. *)
Lemma startswith_meets (p a r : str) (c : char) :
  startswith p (a ++ c :: r) = true -> List.length a < List.length p ->
  nth (List.length a) p 0%N = c.
Proof.
  revert p. induction a as [|y a IH]; intros p H Hl.
  - destruct p as [|x p]; [simpl in Hl; lia|].
    cbn [app startswith] in H. apply andb_true_iff in H as [Hxc _].
    apply char_eqb_eq in Hxc. exact Hxc.
  - destruct p as [|x p]; [simpl in Hl; lia|].
    cbn [app startswith] in H. apply andb_true_iff in H as [_ H].
    cbn [List.length nth]. apply IH; [exact H | simpl in Hl; lia].
Qed.

Lemma contains_tail (p : str) (c : char) (s : str) :
  contains p (c :: s) = false -> contains p s = false.
Proof.
  change (contains p (c :: s)) with (startswith p (c :: s) || contains p s).
  intros H. apply orb_false_iff in H as [_ H]. exact H.
Qed.

Lemma contains_head (p s : str) :
  contains p s = false -> startswith p s = false.
Proof.
  destruct s as [|c s].
  - simpl. rewrite orb_false_r. auto.
  - change (contains p (c :: s)) with (startswith p (c :: s) || contains p s).
    intros H. apply orb_false_iff in H as [H _]. exact H.
Qed.

(** What follows a stretch of text: nothing, or something that begins
    with a quote. *)
Definition quote_or_end (post : str) : Prop :=
  post = [] \/ exists r, post = dquote :: r.

(** No key starts in a stretch that opens none, whatever quote follows
    it. *)
Lemma key_not_started (s post : str) :
  s <> [] -> startswith open_key s = false -> quote_or_end post ->
  startswith speaker_key (s ++ post) = false.
Proof.
  intros Hne Hs Hpost. apply not_true_iff_false. intros H.
  destruct (Nat.le_gt_cases 8 (List.length s)) as [Hlen | Hlen].
  - assert (Ho : startswith open_key (s ++ post) = true).
    { apply (startswith_pattern_prefix open_key [dquote]). exact H. }
    apply startswith_within in Ho; [|exact Hlen].
    rewrite Ho in Hs. discriminate Hs.
  - destruct Hpost as [-> | [r ->]].
    + rewrite app_nil_r in H. apply startswith_length in H.
      simpl in H. lia.
    + apply startswith_meets in H; [|simpl; lia].
      assert (Hpos : 1 <= List.length s)
        by (destruct s; [congruence | simpl; lia]).
      remember (List.length s) as k eqn:Ek. clear Ek.
      do 8 (destruct k as [|k];
            [first [lia | vm_compute in H; discriminate H]|]).
      lia.
Qed.

Lemma no_key_no_match (old_name s : str) :
  startswith speaker_key s = false -> match_speaker old_name s = None.
Proof. intros H. unfold match_speaker. rewrite H. reflexivity. Qed.

(** The substitution copies a stretch that opens no key. *)
Lemma sub_from_gap (old_name repl g post : str) :
  contains open_key g = false -> quote_or_end post ->
  sub_from old_name repl 0 (g ++ post)
  = g ++ sub_from old_name repl 0 post.
Proof.
  intros Hg Hpost. induction g as [|c g IH]; [reflexivity|].
  assert (Hnone : match_speaker old_name ((c :: g) ++ post) = None).
  { apply no_key_no_match. apply key_not_started;
      [discriminate | apply contains_head; exact Hg | exact Hpost]. }
  cbn [app] in *. cbn [sub_from]. rewrite Hnone. f_equal.
  apply IH. exact (contains_tail _ _ _ Hg).
Qed.

(** The substitution copies a stretch without quote. *)
Lemma sub_from_quoteless (old_name repl pre post : str) :
  existsb (char_eqb dquote) pre = false ->
  sub_from old_name repl 0 (pre ++ post)
  = pre ++ sub_from old_name repl 0 post.
Proof.
  induction pre as [|c pre IH]; intros H; [reflexivity|].
  cbn [existsb] in H. apply orb_false_iff in H as [Hc Hpre].
  cbn [app sub_from].
  assert (Hnone : match_speaker old_name (c :: pre ++ post) = None).
  { apply no_key_no_match. unfold speaker_key. cbn [startswith].
    rewrite Hc. reflexivity. }
  rewrite Hnone. f_equal. apply IH. exact Hpre.
Qed.

Lemma blank_no_quote (ws : str) :
  forallb isspace ws = true -> existsb (char_eqb dquote) ws = false.
Proof.
  induction ws as [|c ws IH]; [reflexivity|]. cbn [forallb existsb].
  rewrite andb_true_iff. intros [Hc Hws]. rewrite (IH Hws), orb_false_r.
  apply not_true_iff_false. intros E. apply char_eqb_eq in E. subst c.
  discriminate Hc.
Qed.

(** Two quoted texts without inner quote, one at the head of the other,
    are equal. *)
Lemma quoted_prefix_eq (a b r : str) :
  existsb (char_eqb dquote) a = false ->
  existsb (char_eqb dquote) b = false ->
  startswith (a ++ [dquote]) (b ++ dquote :: r) = true -> a = b.
Proof.
  revert b. induction a as [|x a IH]; intros b Ha Hb H.
  - destruct b as [|y b]; [reflexivity|].
    cbn [app startswith] in H. apply andb_true_iff in H as [Hy _].
    cbn [existsb] in Hb. rewrite Hy in Hb. discriminate Hb.
  - cbn [existsb] in Ha. apply orb_false_iff in Ha as [Hx Ha].
    destruct b as [|y b].
    + cbn [app startswith] in H. apply andb_true_iff in H as [Hq _].
      apply char_eqb_eq in Hq. subst x. rewrite char_eqb_refl in Hx.
      discriminate Hx.
    + cbn [existsb] in Hb. apply orb_false_iff in Hb as [_ Hb].
      cbn [app startswith] in H. apply andb_true_iff in H as [Hxy H].
      apply char_eqb_eq in Hxy. subst y. f_equal. exact (IH b Ha Hb H).
Qed.

(** A field with another label is no match. *)
Lemma match_speaker_other (old_name ws1 ws2 l rest : str) :
  forallb isspace ws1 = true -> forallb isspace ws2 = true ->
  existsb (char_eqb dquote) old_name = false ->
  existsb (char_eqb dquote) l = false ->
  l <> old_name ->
  match_speaker old_name
    (speaker_key ++ ws1 ++ colon :: ws2 ++ dquote :: l ++ dquote :: rest)
  = None.
Proof.
  intros H1 H2 Ho Hl Hne. unfold match_speaker.
  rewrite startswith_app, skipn_app_exact. unfold skip_ws.
  rewrite (lstrip_blank_app ws1 _ H1). cbn [lstrip].
  change (isspace colon) with false. cbv iota.
  rewrite char_eqb_refl.
  rewrite (lstrip_blank_app ws2 _ H2). cbn [lstrip].
  change (isspace dquote) with false. cbv iota.
  destruct (startswith (dquote :: old_name ++ [dquote])
              (dquote :: l ++ dquote :: rest)) eqn:E; [|reflexivity].
  exfalso. cbn [startswith] in E. rewrite char_eqb_refl in E.
  cbn [andb] in E. apply Hne. symmetry.
  exact (quoted_prefix_eq old_name l rest Ho Hl E).
Qed.

(** The substitution copies a field with another label, up to the quote
    that closes it. *)
Lemma sub_from_other_field (old_name repl ws1 ws2 l rest : str) :
  forallb isspace ws1 = true -> forallb isspace ws2 = true ->
  existsb (char_eqb dquote) old_name = false ->
  plain_label l = true -> l <> old_name ->
  sub_from old_name repl 0
    (speaker_key ++ ws1 ++ colon :: ws2 ++ dquote :: l ++ dquote :: rest)
  = speaker_key ++ ws1 ++ colon :: ws2 ++ dquote :: l
      ++ sub_from old_name repl 0 (dquote :: rest).
Proof.
  intros H1 H2 Ho Hl Hne. unfold plain_label in Hl.
  apply andb_true_iff in Hl as [Hq Hb].
  apply negb_true_iff in Hq, Hb.
  pose proof (match_speaker_other old_name ws1 ws2 l rest H1 H2 Ho Hq Hne)
    as H0.
  assert (Ekey : forall z : str,
            speaker_key ++ z = dquote :: bare_key ++ dquote :: z).
  { intros z. unfold speaker_key, bare_key. cbn [app].
    rewrite <- app_assoc. reflexivity. }
  rewrite !Ekey in *.
  (* the opening quote of the key *)
  cbn [sub_from]. rewrite H0. f_equal.
  (* the word of the key *)
  rewrite (sub_from_quoteless old_name repl bare_key _ eq_refl).
  f_equal.
  (* the closing quote of the key: what follows is no letter *)
  assert (Hclose : match_speaker old_name
                     (dquote :: ws1 ++ colon :: ws2 ++ dquote :: l
                        ++ dquote :: rest) = None).
  { apply no_key_no_match. unfold speaker_key.
    cbn [startswith]. rewrite char_eqb_refl. cbn [andb].
    destruct ws1 as [|c ws1']; [reflexivity|].
    cbn [forallb] in H1. apply andb_true_iff in H1 as [Hc _].
    cbn [app].
    change (of_ascii "speaker" ++ [dquote])
      with (115%N :: of_ascii "peaker" ++ [dquote]).
    cbn [startswith].
    destruct (char_eqb 115%N c) eqn:E; [|reflexivity].
    apply char_eqb_eq in E. subst c. discriminate Hc. }
  cbn [sub_from]. rewrite Hclose. f_equal.
  (* the whitespace and the colon *)
  replace (ws1 ++ colon :: ws2 ++ dquote :: l ++ dquote :: rest)
    with ((ws1 ++ colon :: ws2) ++ dquote :: l ++ dquote :: rest)
    by (rewrite <- app_assoc; reflexivity).
  rewrite sub_from_quoteless.
  2:{ rewrite existsb_app, (blank_no_quote ws1 H1). cbn [existsb orb].
      rewrite (blank_no_quote ws2 H2). reflexivity. }
  rewrite <- app_assoc. cbn [app]. f_equal. f_equal. f_equal.
  (* the quote that opens the label: the label is not the word of the key *)
  assert (Hopen : match_speaker old_name (dquote :: l ++ dquote :: rest)
                  = None).
  { apply no_key_no_match. unfold speaker_key. cbn [startswith].
    rewrite char_eqb_refl. cbn [andb].
    destruct (startswith (of_ascii "speaker" ++ [dquote])
                (l ++ dquote :: rest)) eqn:E; [|reflexivity].
    exfalso. apply quoted_prefix_eq in E; [| reflexivity | exact Hq].
    subst l. unfold bare_key in Hb. rewrite str_eqb_refl in Hb.
    discriminate Hb. }
  cbn [sub_from]. rewrite Hopen. f_equal.
  (* the label *)
  apply sub_from_quoteless. exact Hq.
Qed.

Lemma replacement_spaced (new_name : str) :
  replacement new_name = spaced_field [] [space] new_name.
Proof. reflexivity. Qed.

Lemma plain_gap_inv (g : str) :
  plain_gap g = true ->
  contains open_key (dquote :: g) = false /\ contains open_key g = false.
Proof.
  unfold plain_gap. intros H. apply negb_true_iff in H.
  split; [exact H | exact (contains_tail _ _ _ H)].
Qed.

(** One substitution on a transcript made of fields; [lead] is nothing or
    the quote that closes the field before. *)
Lemma sub_from_render (old_name new_name tail : str) :
  existsb (char_eqb dquote) old_name = false ->
  plain_gap tail = true ->
  forall items lead,
  lead = [] \/ lead = [dquote] ->
  forallb well_formed_chunk items = true ->
  sub_from old_name (replacement new_name) 0 (lead ++ render items tail)
  = lead ++ render (map (relabel old_name new_name) items) tail.
Proof.
  intros Ho Htail. destruct (plain_gap_inv tail Htail) as [Htq Ht].
  induction items as [|c rest IH]; intros lead Hlead Hwf.
  - cbn [render map].
    rewrite <- (app_nil_r (lead ++ tail)) at 1.
    rewrite sub_from_gap; [cbn [sub_from]; apply app_nil_r | | left; reflexivity].
    destruct Hlead as [-> | ->]; [exact Ht | exact Htq].
  - cbn [forallb] in Hwf. apply andb_true_iff in Hwf as [Hc Hrest].
    unfold well_formed_chunk in Hc.
    apply andb_true_iff in Hc as [Hc Hl].
    apply andb_true_iff in Hc as [Hc H2].
    apply andb_true_iff in Hc as [Hg H1].
    destruct (plain_gap_inv (gap c) Hg) as [Hgq Hgg].
    cbn [render map]. rewrite app_assoc.
    rewrite sub_from_gap.
    2:{ destruct Hlead as [-> | ->]; [exact Hgg | exact Hgq]. }
    2:{ right. eexists. unfold spaced_field, speaker_key.
        cbn [app]. reflexivity. }
    assert (Er : relabel old_name new_name c
                 = if str_eqb (label c) old_name
                   then {| gap := gap c; ws_before := [];
                           ws_after := [space]; label := new_name |}
                   else c) by reflexivity.
    rewrite Er. clear Er.
    destruct (str_eqb (label c) old_name) eqn:E;
      cbn [gap ws_before ws_after label];
      rewrite <- app_assoc; f_equal; f_equal.
    + apply str_eqb_eq in E.
      unfold spaced_field. rewrite E.
      repeat (rewrite <- ?app_assoc; cbn [app]).
      pose proof (match_speaker_field old_name (ws_before c) (ws_after c)
                    (render rest tail) H1 H2) as Hm.
      assert (Esplit :
                speaker_key ++ ws_before c ++ colon :: ws_after c
                  ++ dquote :: old_name ++ dquote :: render rest tail
                = (speaker_key ++ ws_before c ++ colon :: ws_after c
                     ++ dquote :: old_name ++ [dquote])
                    ++ render rest tail).
      { repeat (rewrite <- ?app_assoc; cbn [app]). reflexivity. }
      rewrite Esplit in *.
      remember (speaker_key ++ ws_before c ++ colon :: ws_after c
                  ++ dquote :: old_name ++ [dquote]) as fld eqn:Efld.
      destruct fld as [|x fld'];
        [destruct (ws_before c); discriminate Efld|].
      cbn [app] in *. cbn [sub_from]. rewrite Hm.
      cbn [List.length]. rewrite Nat.sub_succ, Nat.sub_0_r.
      rewrite sub_from_skip.
      pose proof (IH [] (or_introl eq_refl) Hrest) as IH0.
      cbn [app] in IH0. rewrite IH0.
      unfold replacement.
      repeat (rewrite <- ?app_assoc; cbn [app]). reflexivity.
    + assert (Hne : label c <> old_name).
      { intros Heq. rewrite Heq, str_eqb_refl in E. discriminate E. }
      unfold spaced_field.
      repeat (rewrite <- ?app_assoc; cbn [app]).
      rewrite (sub_from_other_field old_name _ (ws_before c) (ws_after c)
                 (label c) (render rest tail) H1 H2 Ho Hl Hne).
      do 2 f_equal. f_equal. f_equal. f_equal. f_equal.
      exact (IH [dquote] (or_intror eq_refl) Hrest).
Qed.

Lemma well_formed_relabel (old_name new_name : str) (items : list chunk) :
  plain_label new_name = true ->
  forallb well_formed_chunk items = true ->
  forallb well_formed_chunk (map (relabel old_name new_name) items) = true.
Proof.
  intros Hn. induction items as [|c rest IH]; intros H; [reflexivity|].
  cbn [forallb map] in *. apply andb_true_iff in H as [Hc Hrest].
  rewrite (IH Hrest), andb_true_r.
  unfold relabel. destruct (str_eqb (label c) old_name); [|exact Hc].
  unfold well_formed_chunk in *. cbn [gap ws_before ws_after label].
  apply andb_true_iff in Hc as [Hc _].
  apply andb_true_iff in Hc as [Hc _].
  apply andb_true_iff in Hc as [Hg _].
  rewrite Hg, Hn. reflexivity.
Qed.

(** The whole rewrite on a transcript made of fields. *)
Lemma replace_loop_render (tail : str) (todo : mapping) :
  plain_gap tail = true ->
  forallb plain_entry todo = true ->
  forall items,
  forallb well_formed_chunk items = true ->
  replace_loop todo (render items tail)
  = Some (render (relabel_all todo items) tail)
  /\ forallb well_formed_chunk (relabel_all todo items) = true.
Proof.
  intros Htail. induction todo as [|[o n] rest IH]; intros Hm items Hwf.
  - split; [reflexivity | exact Hwf].
  - cbn [forallb] in Hm. apply andb_true_iff in Hm as [He Hrest].
    unfold plain_entry in He. cbn [fst snd] in He.
    apply andb_true_iff in He as [He Hb].
    apply andb_true_iff in He as [Ho Hn].
    apply negb_true_iff in Ho, Hb.
    cbn [replace_loop relabel_all fold_left fst snd].
    unfold re_sub.
    assert (Ht : template (replacement n) = Some (replacement n)).
    { unfold template, replacement. rewrite !existsb_app, Hb.
      reflexivity. }
    rewrite Ht.
    pose proof (sub_from_render o n tail Ho Htail items []
                  (or_introl eq_refl) Hwf) as Hsub.
    cbn [app] in Hsub. rewrite Hsub.
    apply (IH Hrest). apply well_formed_relabel; assumption.
Qed.

(** Fields that carry no source label are left as they are. *)
Lemma relabel_all_fixed (todo : mapping) :
  forall items,
  (forall c kv, In c items -> In kv todo -> label c <> fst kv) ->
  relabel_all todo items = items.
Proof.
  induction todo as [|[o n] rest IH]; intros items H; [reflexivity|].
  cbn [relabel_all fold_left fst snd].
  assert (E : map (relabel o n) items = items).
  { rewrite <- (map_id items) at 2. apply map_ext_in. intros c Hc.
    unfold relabel. destruct (str_eqb (label c) o) eqn:Eq; [|reflexivity].
    apply str_eqb_eq in Eq. exfalso.
    exact (H c (o, n) Hc (or_introl eq_refl) Eq). }
  rewrite E. apply IH. intros c kv Hc Hkv. apply H; [exact Hc|].
  right. exact Hkv.
Qed.

(** After the rewrite no field carries a source label, when no new name
    is one. *)
Lemma relabel_all_clean (todo : mapping) :
  forall (done : mapping) (items : list chunk),
  (forall kv kv', In kv todo -> In kv' (done ++ todo) ->
     snd kv <> fst kv') ->
  (forall c kv, In c items -> In kv done -> label c <> fst kv) ->
  forall c kv,
  In c (relabel_all todo items) -> In kv (done ++ todo) ->
  label c <> fst kv.
Proof.
  induction todo as [|[o n] rest IH]; intros done items Hnew Hold c kv Hc Hkv.
  - rewrite app_nil_r in Hkv. exact (Hold c kv Hc Hkv).
  - cbn [relabel_all fold_left fst snd] in Hc.
    apply (IH (done ++ [(o, n)]) (map (relabel o n) items)).
    + intros kv1 kv2 H1 H2. apply Hnew; [right; exact H1|].
      rewrite <- app_assoc in H2. exact H2.
    + intros c0 kv0 Hc0 Hkv0.
      apply in_map_iff in Hc0 as (c1 & <- & Hc1).
      unfold relabel. destruct (str_eqb (label c1) o) eqn:Eq.
      * cbn [label].
        apply (Hnew (o, n) kv0 (or_introl eq_refl)).
        apply in_app_iff in Hkv0 as [Hkv0 | [<- | []]];
          apply in_app_iff; [left; exact Hkv0 | right; left; reflexivity].
      * apply in_app_iff in Hkv0 as [Hkv0 | [<- | []]].
        -- exact (Hold c1 kv0 Hc1 Hkv0).
        -- cbn [fst]. intros Heq. rewrite Heq, str_eqb_refl in Eq.
           discriminate Eq.
    + exact Hc.
    + rewrite <- app_assoc. exact Hkv.
Qed.

Lemma unchained_inv (m : mapping) :
  unchained m = true ->
  forall kv kv', In kv m -> In kv' m -> snd kv <> fst kv'.
Proof.
  unfold unchained. intros H kv kv' Hkv Hkv' E.
  rewrite forallb_forall in H. specialize (H kv Hkv).
  apply negb_true_iff in H.
  assert (Ht : existsb (fun kv'0 => str_eqb (snd kv) (fst kv'0)) m = true).
  { apply existsb_exists. exists kv'. split; [exact Hkv'|].
    apply str_eqb_eq. exact E. }
  rewrite Ht in H. discriminate H.
Qed.

(** A second counterexample to the statement without conditions on the
    transcript: two fields that share a quote. The substitution takes the
    first; the second, which it leaves, is completed by the quote that
    closes the replacement, and a second application takes it. *)
Example rewrite_twice_shared_quote :
  let text := field (of_ascii "A") ++ bare_key ++ [dquote; colon; dquote]
              ++ of_ascii "A" ++ [dquote] in
  let m := [(of_ascii "A", of_ascii "B")] in
  _replace_speakers text m
  = Some (field (of_ascii "B") ++ bare_key ++ [dquote; colon; dquote]
            ++ of_ascii "A" ++ [dquote])
  /\ _replace_speakers
       (field (of_ascii "B") ++ bare_key ++ [dquote; colon; dquote]
          ++ of_ascii "A" ++ [dquote]) m
     = Some (field (of_ascii "B") ++ bare_key ++ [dquote]
               ++ of_ascii ": " ++ [dquote] ++ of_ascii "B" ++ [dquote]).
Proof. vm_compute. split; reflexivity. Qed.

(** And a counterexample to the statement without the condition on the
    new names: a new name that is the word of the key. The first
    application writes a quoted key where the label stood, and what
    follows it makes a field that the second application takes. *)
Example rewrite_twice_key_as_name :
  let text := field (of_ascii "A") ++ of_ascii ": " ++ [dquote]
              ++ of_ascii "B" ++ [dquote] in
  let m := [(of_ascii "B", of_ascii "C"); (of_ascii "A", bare_key)] in
  _replace_speakers text m
  = Some (field bare_key ++ of_ascii ": " ++ [dquote] ++ of_ascii "B"
            ++ [dquote])
  /\ _replace_speakers
       (field bare_key ++ of_ascii ": " ++ [dquote] ++ of_ascii "B"
          ++ [dquote]) m
     = Some (field bare_key ++ of_ascii ": " ++ [dquote] ++ of_ascii "C"
               ++ [dquote]).
Proof. vm_compute. split; reflexivity. Qed.

(** C7 (amended): on a transcript made of speaker fields (labels without
    quote and other than the word of the key, whitespace around the colon,
    and between the fields text that opens no key), with a mapping whose
    applied entries hold no quote and no backslash, whose new names are not
    the word of the key and of which no new name is a source label, the
    rewrite returns; applied to its own result with the same mapping it
    returns that result again. The result is the transcript with every
    field relabelled. *)
Theorem C7_rewrite_twice (speaker_mapping : mapping) (items : list chunk)
  (tail : str) :
  well_formed items tail = true ->
  forallb plain_entry (filtered_mapping speaker_mapping) = true ->
  unchained (filtered_mapping speaker_mapping) = true ->
  let rewritten :=
    render (relabel_all (filtered_mapping speaker_mapping) items) tail in
  _replace_speakers (render items tail) speaker_mapping = Some rewritten
  /\ _replace_speakers rewritten speaker_mapping = Some rewritten.
Proof.
  intros Hwf Hplain Hchain. cbv zeta. unfold _replace_speakers.
  unfold well_formed in Hwf. apply andb_true_iff in Hwf as [Hitems Htail].
  set (m := filtered_mapping speaker_mapping) in *.
  destruct (replace_loop_render tail m Htail Hplain items Hitems)
    as [Hfirst Hwf1].
  split; [exact Hfirst|].
  destruct (replace_loop_render tail m Htail Hplain (relabel_all m items)
              Hwf1) as [Hsecond _].
  rewrite Hsecond. do 2 f_equal.
  apply relabel_all_fixed. intros c kv Hc Hkv.
  apply (relabel_all_clean m [] items); try assumption.
  - intros kv1 kv2 H1 H2. cbn [app] in H2.
    exact (unchained_inv m Hchain kv1 kv2 H1 H2).
  - intros c0 kv0 _ [].
Qed.

(** The theorem on two fields with the same label, one of them spaced
    differently, a field with another label, and a mapping with a skipped
    entry. *)
Lemma C7_witness :
  let items :=
    [ {| gap := of_ascii "[{"; ws_before := []; ws_after := [space];
         label := label_A |};
      {| gap := of_ascii "}, {"; ws_before := [space];
         ws_after := of_ascii "  "; label := label_A |};
      {| gap := of_ascii "}, {"; ws_before := []; ws_after := [space];
         label := label_B |} ] in
  let m := [(label_A, name_C); (label_B, of_ascii "[unknown]")] in
  let rewritten :=
    of_ascii "[{" ++ field name_C ++ of_ascii "}, {" ++ field name_C
      ++ of_ascii "}, {" ++ field label_B ++ of_ascii "}]" in
  _replace_speakers (render items (of_ascii "}]")) m = Some rewritten
  /\ _replace_speakers rewritten m = Some rewritten.
Proof.
  intros items m rewritten.
  exact (C7_rewrite_twice m items (of_ascii "}]") eq_refl eq_refl eq_refl).
Defined.

End Remapping.

(** ** C9: a failure during clean-up *)

Section Cleanup.
Import Py ResultIntegrator.

(** [cleanup_temp_files] hands every failure of its body on. *)
Lemma cleanup_reraises (segments_dir : directory) :
  cleanup_temp_files segments_dir = cleanup_body segments_dir.
Proof.
  unfold cleanup_temp_files. destruct (cleanup_body segments_dir); reflexivity.
Qed.

(** When the clean-up raises, [process_audio_file] raises the same error
    whatever path [integrate_results] had returned. *)
Lemma process_audio_file_end_raises (final_output e : str)
  (segments_dir : directory) :
  cleanup_temp_files segments_dir = Raise e ->
  process_audio_file_end (Ok final_output) segments_dir = Raise e.
Proof.
  intros H. unfold process_audio_file_end. simpl. rewrite H. reflexivity.
Qed.

(** C9 (the code at the failing input): one segment file that cannot be
    deleted. The clean-up raises, and the run raises instead of returning
    the path of the transcript already written; the clean-up at the end of
    [_process_with_gemini] swallows the same failure. *)
Theorem C9_cleanup_failure_is_fatal :
  cleanup_temp_files locked_dir = Raise PermissionError
  /\ process_audio_file_end (Ok (of_ascii "transcription_summary.txt"))
       locked_dir = Raise PermissionError
  /\ Transcription.finish_with_cleanup (Raise PermissionError)
       (of_ascii "transcription_summary.txt")
     = Ok (of_ascii "transcription_summary.txt").
Proof. repeat split. Qed.

End Cleanup.

(** ** C10: the single-entry wrapper *)

Section SingleEntry.
Import Py Transcriber.

(** C10: a successful call returns exactly one conversation entry, whose
    speaker is the constant name and whose utterance is the whole formatted
    text that [process_media] returned. *)
Theorem C10_single_entry (process_media : result dict) (t : transcription) :
  transcribe_audio process_media = Ok t ->
  exists result response_text,
    process_media = Ok result
    /\ dict_get result (of_ascii "formatted_text") (VStr [])
       = VStr response_text
    /\ conversations t
       = [ {| speaker := speaker_name; utterance := response_text |} ].
Proof.
  unfold transcribe_audio. intros H.
  destruct process_media as [result | e]; [|discriminate H].
  simpl in H.
  destruct (dict_get result (of_ascii "formatted_text") (VStr []))
    as [response_text | | p] eqn:E; try discriminate H.
  inversion H; subst. exists result, response_text.
  split; [reflexivity|]. split; [exact E | reflexivity].
Qed.

(** The call succeeds whenever [process_media] returns a dictionary whose
    formatted text is a string. *)
Lemma transcribe_audio_succeeds (result : dict) (response_text : str) :
  dict_get result (of_ascii "formatted_text") (VStr []) = VStr response_text ->
  transcribe_audio (Ok result)
  = Ok {| conversations :=
            [ {| speaker := speaker_name; utterance := response_text |} ] |}.
Proof.
  intros H. unfold transcribe_audio. simpl. rewrite H. reflexivity.
Qed.

(** The theorem on a response in which two speakers were told apart. *)
Lemma C10_witness :
  transcribe_audio (Ok sample_result)
  = Ok {| conversations :=
            [ {| speaker := speaker_name;
                 utterance := two_speaker_text |} ] |}
  /\ exists result response_text,
       Ok sample_result = Ok result
       /\ dict_get result (of_ascii "formatted_text") (VStr [])
          = VStr response_text
       /\ [ {| speaker := speaker_name; utterance := two_speaker_text |} ]
          = [ {| speaker := speaker_name; utterance := response_text |} ].
Proof.
  split; [reflexivity|].
  exact (C10_single_entry (Ok sample_result)
           {| conversations :=
                [ {| speaker := speaker_name;
                     utterance := two_speaker_text |} ] |}
           eq_refl).
Defined.

End SingleEntry.

(* ===================================================================== *)
(** * Part III. Further properties of the code                            *)
(* ===================================================================== *)

(** ** The retry loop beyond the all-defective case *)

Section RetryLoop.
Import Py Transcription.

Variable env : Env.
Variable segment_file : str.
Variable max_retries : nat.

Lemma bad_reply_cases (r : api_reply) :
  bad_reply r = true ->
  (exists raw, r = Reply raw
     /\ negb (str_eqb (normalize raw) [])
        && is_problematic_transcription (normalize raw) = true)
  \/ exists e, r = ApiError e.
Proof.
  destruct r as [raw | e]; simpl; intros H.
  - left. exists raw. split; [reflexivity | exact H].
  - right. exists e. reflexivity.
Qed.

Lemma attempt_loop_first_good (k : nat) :
  forall n a segment_text st raw,
  a + n = max_retries + 1 -> k < n ->
  (forall j, j < k ->
     bad_reply (transcribe_audio env (calls st + j) segment_file) = true) ->
  transcribe_audio env (calls st + k) segment_file = Reply raw ->
  defective_reply (Reply raw) = false ->
  attempt_loop env segment_file max_retries (seq a n) segment_text st
  = (Some (normalize raw),
     {| calls := calls st + k + 1;
        has_reached_max_retries := has_reached_max_retries st |}).
Proof.
  induction k as [|k IH]; intros n a segment_text st raw Ha Hk Hbad Hgood Hok.
  - destruct n as [|n]; [lia|]. cbn [seq attempt_loop].
    rewrite Nat.add_0_r in Hgood. rewrite Hgood.
    simpl in Hok. rewrite Hok. unfold called. do 2 f_equal. lia.
  - destruct n as [|n]; [lia|]. cbn [seq attempt_loop].
    assert (Hlt : (a <? max_retries) = true) by (apply Nat.ltb_lt; lia).
    assert (Hnext : forall j, j < k ->
              bad_reply (transcribe_audio env (calls (called st) + j)
                           segment_file) = true).
    { intros j Hj. simpl. rewrite <- Nat.add_succ_r. apply Hbad. lia. }
    assert (Hgood' : transcribe_audio env (calls (called st) + k)
                       segment_file = Reply raw).
    { simpl. rewrite <- Nat.add_succ_r. exact Hgood. }
    destruct (bad_reply_cases _ (Hbad 0 ltac:(lia)))
      as [(raw0 & E & Hdef) | (e & E)];
      rewrite Nat.add_0_r in E; rewrite E.
    + rewrite Hdef, Hlt.
      rewrite (IH n (S a) _ (called st) raw); try assumption; try lia.
      simpl. do 2 f_equal. lia.
    + rewrite Hlt.
      rewrite (IH n (S a) _ (called st) raw); try assumption; try lia.
      simpl. do 2 f_equal. lia.
Qed.

Lemma attempt_loop_all_bad (n : nat) :
  forall a segment_text st,
  a + n = max_retries + 1 -> 1 <= n ->
  (forall k, k < n ->
     bad_reply (transcribe_audio env (calls st + k) segment_file) = true) ->
  attempt_loop env segment_file max_retries (seq a n) segment_text st
  = (Some (reply_text
             (transcribe_audio env (calls st + (n - 1)) segment_file)),
     {| calls := calls st + n; has_reached_max_retries := true |}).
Proof.
  induction n as [|n IH]; intros a segment_text st Ha Hn Hbad; [lia|].
  cbn [seq attempt_loop].
  assert (Hnext : forall k, k < n ->
            bad_reply (transcribe_audio env (calls (called st) + k)
                         segment_file) = true).
  { intros k Hk. simpl. rewrite <- Nat.add_succ_r. apply Hbad. lia. }
  destruct (bad_reply_cases _ (Hbad 0 ltac:(lia)))
    as [(raw0 & E & Hdef) | (e & E)];
    rewrite Nat.add_0_r in E; rewrite E.
  - rewrite Hdef. destruct n as [|n].
    + replace (a <? max_retries) with false
        by (symmetry; apply Nat.ltb_ge; lia).
      simpl. rewrite Nat.add_0_r, E. simpl. unfold flagged, called. simpl.
      do 2 f_equal. lia.
    + replace (a <? max_retries) with true
        by (symmetry; apply Nat.ltb_lt; lia).
      rewrite (IH (S a) _ (called st)); try assumption; try lia.
      simpl. do 3 f_equal; try lia. f_equal. lia.
  - destruct n as [|n].
    + replace (a <? max_retries) with false
        by (symmetry; apply Nat.ltb_ge; lia).
      simpl. rewrite Nat.add_0_r, E. simpl. unfold flagged, called. simpl.
      do 2 f_equal. lia.
    + replace (a <? max_retries) with true
        by (symmetry; apply Nat.ltb_lt; lia).
      rewrite (IH (S a) _ (called st)); try assumption; try lia.
      simpl. do 3 f_equal; try lia. f_equal. lia.
Qed.

End RetryLoop.

Section RetryLoopProperties.
Import Py Transcription.

(** X1: the loop accepts the first reply that is not classified defective.
    When the attempts before the one numbered [k] (within the budget) all
    raise or are classified defective and that one is not, the segment gets
    its normalized text after [k + 1] calls and the flag is left as it
    was. *)
Theorem X1_first_acceptable_reply (env : Env) (segment_file : str)
  (max_retries : nat) (st : State) (k : nat) (raw : option str) :
  k <= max_retries ->
  (forall j, j < k ->
     bad_reply (transcribe_audio env (calls st + j) segment_file) = true) ->
  transcribe_audio env (calls st + k) segment_file = Reply raw ->
  defective_reply (Reply raw) = false ->
  transcribe_segment env max_retries segment_file st
  = (Some (normalize raw),
     {| calls := calls st + k + 1;
        has_reached_max_retries := has_reached_max_retries st |}).
Proof.
  intros Hk Hbad Hgood Hok. unfold transcribe_segment.
  apply (attempt_loop_first_good env segment_file max_retries k); auto; lia.
Qed.

Lemma X1_witness :
  transcribe_segment recovering_env MAX_RETRIES sample_file initial_state
  = (Some (normalize (Some (of_ascii "ok"))),
     {| calls := 0 + 1 + 1; has_reached_max_retries := false |}).
Proof.
  apply (X1_first_acceptable_reply recovering_env sample_file MAX_RETRIES
           initial_state 1 (Some (of_ascii "ok"))).
  - unfold MAX_RETRIES. lia.
  - intros j Hj. replace j with 0 by lia. reflexivity.
  - reflexivity.
  - reflexivity.
Defined.

(** X2: when every attempt of the budget raises or is classified defective,
    whatever the mix, [max_retries + 1] calls are made, the flag is set, and
    the text kept is that of the last attempt if it returned, the empty
    text if it raised. *)
Theorem X2_budget_exhausted (env : Env) (segment_file : str)
  (max_retries : nat) (st : State) :
  (forall k, k <= max_retries ->
     bad_reply (transcribe_audio env (calls st + k) segment_file) = true) ->
  transcribe_segment env max_retries segment_file st
  = (Some (reply_text
             (transcribe_audio env (calls st + max_retries) segment_file)),
     {| calls := calls st + (max_retries + 1);
        has_reached_max_retries := true |}).
Proof.
  intros Hbad. unfold transcribe_segment.
  rewrite (attempt_loop_all_bad env segment_file max_retries
             (max_retries + 1) 0 None st); try lia.
  - replace (max_retries + 1 - 1) with max_retries by lia. reflexivity.
  - intros k Hk. apply Hbad. lia.
Qed.

Lemma X2_witness :
  transcribe_segment failing_env MAX_RETRIES sample_file initial_state
  = (Some (reply_text
             (transcribe_audio failing_env (0 + MAX_RETRIES) sample_file)),
     {| calls := 0 + (MAX_RETRIES + 1); has_reached_max_retries := true |}).
Proof.
  apply (X2_budget_exhausted failing_env sample_file MAX_RETRIES
           initial_state).
  intros k _. simpl. destruct k; reflexivity.
Defined.

Lemma usable_reply_accepted (env : Env) (file : str) (st : State) :
  usable_reply (transcribe_audio env (calls st) file) = true ->
  transcribe_segment env MAX_RETRIES file st
  = (Some (reply_text (transcribe_audio env (calls st) file)), called st)
  /\ falsy (Some (reply_text (transcribe_audio env (calls st) file)))
     = false.
Proof.
  unfold transcribe_segment. cbn [MAX_RETRIES Nat.add seq attempt_loop].
  destruct (transcribe_audio env (calls st) file) as [raw | e]; simpl;
    [|discriminate].
  rewrite andb_true_iff, !negb_true_iff. intros [H1 H2].
  rewrite H1, H2. simpl. split; reflexivity.
Qed.

Lemma segment_loop_usable (env : Env) (files : list str) :
  (forall n file, usable_reply (transcribe_audio env n file) = true) ->
  forall i acc st,
  segment_loop env i files acc st
  = (acc ++ one_call_results env i (calls st) files,
     {| calls := calls st + List.length files;
        has_reached_max_retries := has_reached_max_retries st |}).
Proof.
  intros Hok. induction files as [|file files IH]; intros i acc st.
  - simpl. rewrite app_nil_r, Nat.add_0_r. destruct st; reflexivity.
  - cbn [segment_loop one_call_results List.length].
    destruct (usable_reply_accepted env file st (Hok _ _)) as [E F].
    rewrite E, F, IH. simpl. rewrite <- app_assoc. simpl.
    do 2 f_equal. lia.
Qed.

Lemma one_call_results_segments (env : Env) (files : list str) :
  forall i c,
  map segment (one_call_results env i c files)
  = seq i (List.length files).
Proof.
  induction files as [|file files IH]; intros i c; [reflexivity|].
  simpl. rewrite IH. reflexivity.
Qed.

(** X3: in a run where every call returns a text that is kept (not empty
    once normalized, not classified defective), exactly one call is made
    per segment, the result list has one entry per segment numbered 1..N in
    order, each holding the tagged text of its only call, and the flag
    stays down. *)
Theorem X3_run_without_retry (env : Env) (split_files : list str) :
  (forall n file, usable_reply (transcribe_audio env n file) = true) ->
  transcribe_all env split_files
  = (one_call_results env 1 0 split_files,
     {| calls := List.length split_files;
        has_reached_max_retries := false |})
  /\ map segment (fst (transcribe_all env split_files))
     = seq 1 (List.length split_files).
Proof.
  intros Hok. unfold transcribe_all.
  rewrite (segment_loop_usable env split_files Hok). simpl.
  split; [reflexivity | apply one_call_results_segments].
Qed.

Lemma X3_witness :
  map segment
    (fst (transcribe_all (scripted [] (Reply (Some (of_ascii " ok  then "))))
            [sample_file; sample_file]))
  = seq 1 2.
Proof.
  refine (proj2 (X3_run_without_retry
                   (scripted [] (Reply (Some (of_ascii " ok  then "))))
                   [sample_file; sample_file] _)).
  intros n file. simpl. destruct n as [|[|n]]; reflexivity.
Defined.

End RetryLoopProperties.

(** ** The repetition detector beyond the 79/80 boundary *)

Section DetectorProperties.
Import Py Transcription.

Lemma contains_length (p s : str) :
  contains p s = true -> List.length p <= List.length s.
Proof.
  induction s as [|y s IH]; intros H.
  - simpl in H. rewrite orb_false_r in H.
    apply startswith_length in H. exact H.
  - change (contains p (y :: s))
      with (startswith p (y :: s) || contains p s) in H.
    apply orb_true_iff in H as [H | H].
    + apply startswith_length in H. exact H.
    + apply IH in H. simpl. lia.
Qed.

Lemma contains_intro (p a b : str) : contains p (a ++ p ++ b) = true.
Proof.
  induction a as [|y a IH].
  - simpl app. destruct (p ++ b) eqn:E.
    + destruct p; [reflexivity | discriminate E].
    + rewrite <- E.
      assert (H : startswith p (p ++ b) = true) by apply startswith_app.
      rewrite E in *. simpl. rewrite H. reflexivity.
  - change ((y :: a) ++ p ++ b) with (y :: (a ++ p ++ b)).
    change (contains p (y :: a ++ p ++ b))
      with (startswith p (y :: a ++ p ++ b) || contains p (a ++ p ++ b)).
    rewrite IH. apply orb_true_r.
Qed.

(** The marker cannot stand in a text made of one repeated word. *)
Lemma marker_absent_repeated (token sep : str) (n : nat) :
  token <> [] -> existsb isspace token = false -> blank sep = true ->
  contains failure_marker (repeated token sep n) = false.
Proof.
  intros Hne Hw Hs. apply not_true_iff_false. intros H.
  assert (H1 : In (of_ascii "of") (split (repeated token sep n))).
  { apply (split_has_word _ _ [] space space); try reflexivity;
      try discriminate.
    apply (contains_infix (of_ascii "Take minutes") _
             (of_ascii "the meeting")).
    exact H. }
  assert (H2 : In (of_ascii "the") (split (repeated token sep n))).
  { apply (split_has_word _ _ [] space space); try reflexivity;
      try discriminate.
    apply (contains_infix (of_ascii "Take minutes of") _
             (of_ascii "meeting")).
    exact H. }
  rewrite split_repeated in H1, H2 by assumption.
  apply repeat_spec in H1, H2. rewrite <- H1 in H2. discriminate H2.
Qed.

Lemma single_char_quiet (c : char) (sep : str) (n : nat) :
  isspace c = false -> blank sep = true ->
  _check_single_utterance_repetition (repeated [c] sep n) = false
  /\ forall p, In p problem_phrases ->
       contains p (repeated [c] sep n) = false.
Proof.
  intros Hc Hs.
  assert (Hw : existsb isspace [c] = false) by (simpl; rewrite Hc; reflexivity).
  assert (Hp : forall p, In p problem_phrases ->
                 contains p (repeated [c] sep n) = false).
  { intros p Hp. destruct (phrase_facts p Hp) as (Hne & Hpw & _ & _ & _ & _ & Hl).
    apply contains_repeated; try assumption.
    apply not_true_iff_false. intros E. apply contains_length in E.
    apply Nat.leb_le in Hl. simpl in E. lia. }
  split; [|exact Hp].
  unfold _check_single_utterance_repetition. cbv zeta.
  rewrite split_repeated by (assumption || discriminate).
  rewrite existsb_repeat. unfold word_repeated. simpl List.length.
  change (1 <=? 1) with true. simpl negb. rewrite andb_false_r. simpl.
  apply phrase_loop_quiet. exact Hp.
Qed.

(** X4: words of one character are passed over by the word loop: an
    utterance made of a one-character word written any number of times is
    never flagged, and neither is the text made of that one utterance. *)
Theorem X4_one_character_words_pass (c : char) (sep : str) (n : nat) :
  isspace c = false -> quote_or_backslash c = false -> blank sep = true ->
  _check_single_utterance_repetition (repeated [c] sep n) = false
  /\ is_problematic_transcription (utterance_payload (repeated [c] sep n))
     = false.
Proof.
  intros Hc Hq Hs.
  destruct (single_char_quiet c sep n Hc Hs) as [Hsingle Hp].
  split; [exact Hsingle|].
  set (u := repeated [c] sep n) in *.
  assert (Hw : existsb isspace [c] = false) by (simpl; rewrite Hc; reflexivity).
  assert (Hu : existsb quote_or_backslash u = false).
  { apply repeated_quoteless; [|exact Hs].
    unfold quoteless. simpl. rewrite Hq. reflexivity. }
  unfold is_problematic_transcription.
  change (utterance_payload u) with (123%N :: tl (utterance_payload u)) at 1.
  cbv iota.
  rewrite contains_payload by (reflexivity || discriminate).
  unfold u at 1.
  rewrite marker_absent_repeated by (assumption || discriminate).
  rewrite findall_payload by exact Hu.
  simpl existsb. rewrite Hsingle. simpl.
  apply whole_text_quiet. intros p Hin.
  destruct (phrase_facts p Hin) as (Hne & _ & Hd & H1 & H2 & H3 & _).
  rewrite contains_payload by assumption. apply Hp. exact Hin.
Qed.

Lemma X4_witness :
  _check_single_utterance_repetition (repeated (of_ascii "a") [space] 500)
  = false
  /\ is_problematic_transcription
       (utterance_payload (repeated (of_ascii "a") [space] 500)) = false.
Proof.
  exact (X4_one_character_words_pass 97%N [space] 500 eq_refl eq_refl
           eq_refl).
Defined.

(** X5: for a word of two characters or more written [n] times in one
    utterance, the utterance check answers true exactly when [n] is at
    least 80 or some filler phrase, occurring [k] times in the word, has
    [n * k] of at least 70. *)
Theorem X5_repetition_thresholds (token sep : str) (n : nat) :
  plain_token token = true -> blank sep = true ->
  _check_single_utterance_repetition (repeated token sep n)
  = (80 <=? n)
    || existsb (fun phrase => 70 <=? n * count phrase token) problem_phrases.
Proof.
  intros Ht Hs. rewrite single_utterance_repeated by assumption.
  f_equal. apply existsb_agree. intros p Hp.
  destruct (phrase_facts p Hp) as (Hne & Hw & _).
  unfold phrase_repeated. rewrite count_repeated by assumption.
  reflexivity.
Qed.

Lemma X5_witness :
  _check_single_utterance_repetition
    (repeated (token_un ++ token_un) [space] 35)
  = (80 <=? 35)
    || existsb (fun phrase => 70 <=? 35 * count phrase (token_un ++ token_un))
         problem_phrases.
Proof.
  exact (X5_repetition_thresholds (token_un ++ token_un) [space] 35
           eq_refl eq_refl).
Defined.

(** X6: the whole-text check catches a filler phrase written 70 times in a
    row anywhere in the text, whatever stands before and after, also when
    no utterance field can be read from the text. *)
Theorem X6_consecutive_fillers (phrase before after : str) :
  In phrase problem_phrases ->
  is_problematic_transcription (before ++ repeat_str phrase 70 ++ after)
  = true.
Proof.
  intros Hp. destruct (phrase_facts phrase Hp) as (Hne & _ & _ & _ & _ & _ & Hl).
  set (text := before ++ repeat_str phrase 70 ++ after).
  assert (Hc : contains (repeat_str phrase 70) text = true)
    by apply contains_intro.
  unfold is_problematic_transcription.
  destruct text as [|c text'] eqn:E.
  - apply contains_length in Hc.
    change (repeat_str phrase 70) with (phrase ++ repeat_str phrase 69) in Hc.
    rewrite length_app in Hc. destruct phrase; [congruence|].
    simpl in Hc. lia.
  - destruct (contains failure_marker (c :: text')); [reflexivity|].
    destruct (existsb _check_single_utterance_repetition
                (findall_utterances (c :: text'))); [reflexivity|].
    apply existsb_exists. exists phrase. split; [exact Hp|].
    unfold phrase_floods. rewrite Hl, Hc. reflexivity.
Qed.

Lemma X6_witness :
  is_problematic_transcription
    (of_ascii "intro " ++ repeat_str token_un 70 ++ of_ascii " outro")
  = true.
Proof.
  apply (X6_consecutive_fillers token_un (of_ascii "intro ")
           (of_ascii " outro")).
  left. reflexivity.
Defined.

End DetectorProperties.

(** ** The splitter: the choices it makes and the segments it writes *)

Section SplitterChoices.
Import AudioSplitter.
Local Open Scope Z_scope.

Lemma select_loop_closest (target : Z) (silence_ranges : list (Z * Z)) :
  forall d best_position,
  d = Z.abs (best_position - target) ->
  let r := select_loop silence_ranges target (Some d) best_position in
  (r = best_position \/ In r (midpoints silence_ranges))
  /\ Z.abs (r - target) <= d
  /\ forall m, In m (midpoints silence_ranges) ->
       Z.abs (r - target) <= Z.abs (m - target).
Proof.
  induction silence_ranges as [|[s e] rest IH]; intros d bp Hd; cbv zeta.
  - simpl. split; [left; reflexivity|]. split; [lia | intros m []].
  - cbn [select_loop below midpoints map fst snd].
    destruct (Z.abs ((s + e) / 2 - target) <? d) eqn:E.
    + apply Z.ltb_lt in E.
      destruct (IH (Z.abs ((s + e) / 2 - target)) ((s + e) / 2) eq_refl)
        as (H1 & H2 & H3).
      split; [|split].
      * right. destruct H1 as [H1 | H1]; [left; symmetry | right]; exact H1.
      * lia.
      * intros m [<- | Hm]; [exact H2 | apply H3; exact Hm].
    + apply Z.ltb_ge in E.
      destruct (IH d bp Hd) as (H1 & H2 & H3).
      split; [|split].
      * destruct H1 as [H1 | H1]; [left | right; right]; exact H1.
      * exact H2.
      * intros m [<- | Hm]; [lia | apply H3; exact Hm].
Qed.

(** X7: among the silences found, the one chosen is the one whose middle
    is closest to the target: the position returned is the middle of a
    listed range and no listed range has its middle nearer to the target.
    With no range the target itself is returned. *)
Theorem X7_closest_silence (silence_ranges : list (Z * Z))
  (target_position : Z) :
  _select_best_silence [] target_position = target_position
  /\ (silence_ranges <> [] ->
      In (_select_best_silence silence_ranges target_position)
         (midpoints silence_ranges)
      /\ forall m, In m (midpoints silence_ranges) ->
           Z.abs (_select_best_silence silence_ranges target_position
                  - target_position)
           <= Z.abs (m - target_position)).
Proof.
  split; [reflexivity|].
  destruct silence_ranges as [|[s e] rest]; [congruence|]. intros _.
  unfold _select_best_silence.
  cbn [select_loop below midpoints map fst snd].
  destruct (select_loop_closest target_position rest
              (Z.abs ((s + e) / 2 - target_position)) ((s + e) / 2) eq_refl)
    as (H1 & H2 & H3).
  split.
  - destruct H1 as [H1 | H1]; [left; symmetry | right]; exact H1.
  - intros m [<- | Hm]; [exact H2 | apply H3; exact Hm].
Qed.

Lemma X7_witness :
  In (_select_best_silence [(100, 700); (4000, 5000); (9000, 9600)] 5000)
     (midpoints [(100, 700); (4000, 5000); (9000, 9600)])
  /\ _select_best_silence [(100, 700); (4000, 5000); (9000, 9600)] 5000
     = 4500.
Proof.
  split; [|reflexivity].
  apply (proj2 (X7_closest_silence [(100, 700); (4000, 5000); (9000, 9600)]
                  5000)).
  discriminate.
Defined.

Context {lib : AudioLib}.

Lemma min_volume_loop_least (audio_segment : audio) (starts : list Z) :
  forall v i0,
  v = window_volume audio_segment i0 ->
  exists i,
    min_volume_loop audio_segment starts (Some v) (i0 + window_size / 2)
    = i + window_size / 2
    /\ (i = i0 \/ In i starts)
    /\ window_volume audio_segment i <= v
    /\ forall j, In j starts ->
         window_volume audio_segment i <= window_volume audio_segment j.
Proof.
  induction starts as [|i1 rest IH]; intros v i0 Hv.
  - exists i0. simpl. split; [reflexivity|]. split; [left; reflexivity|].
    split; [lia | intros j []].
  - cbn [min_volume_loop below].
    change (rms (slice audio_segment i1 (i1 + window_size)))
      with (window_volume audio_segment i1).
    destruct (window_volume audio_segment i1 <? v) eqn:E.
    + apply Z.ltb_lt in E.
      destruct (IH (window_volume audio_segment i1) i1 eq_refl)
        as (i & H1 & H2 & H3 & H4).
      exists i. split; [exact H1|]. split; [|split].
      * right. destruct H2 as [-> | H2]; [left; reflexivity | right; exact H2].
      * lia.
      * intros j [<- | Hj]; [exact H3 | apply H4; exact Hj].
    + apply Z.ltb_ge in E.
      destruct (IH v i0 Hv) as (i & H1 & H2 & H3 & H4).
      exists i. split; [exact H1|]. split; [|split].
      * destruct H2 as [H2 | H2]; [left | right; right]; exact H2.
      * exact H3.
      * intros j [<- | Hj]; [lia | apply H4; exact Hj].
Qed.

(** X8: the fallback position is the middle of a 100 ms window, taken every
    100 ms from the start of the segment, whose volume no other such window
    undercuts; a segment of 100 ms or less has no window and gives 0. *)
Theorem X8_quietest_window (audio_segment : audio) :
  (len audio_segment <= 100 ->
   _find_min_volume_position audio_segment = 0)
  /\ (100 < len audio_segment ->
      exists i,
        _find_min_volume_position audio_segment = i + 50
        /\ In i (py_range (len audio_segment - 100) 100)
        /\ forall j, In j (py_range (len audio_segment - 100) 100) ->
             window_volume audio_segment i <= window_volume audio_segment j).
Proof.
  unfold _find_min_volume_position, window_size. split.
  - intros Hlen. unfold py_range.
    replace (Z.to_nat ((len audio_segment - 100 + 100 - 1) / 100))
      with 0%nat; [reflexivity|].
    assert ((len audio_segment - 100 + 100 - 1) / 100 <= 0); [|lia].
    apply Z.lt_succ_r. apply Z.div_lt_upper_bound; lia.
  - intros Hlen.
    destruct (py_range (len audio_segment - 100) 100) as [|i0 rest] eqn:E.
    + exfalso. unfold py_range in E.
      assert (1 <= (len audio_segment - 100 + 100 - 1) / 100)
        by (apply Z.div_le_lower_bound; lia).
      destruct (Z.to_nat ((len audio_segment - 100 + 100 - 1) / 100))
        eqn:En; [lia | discriminate E].
    + cbn [min_volume_loop below].
      destruct (min_volume_loop_least audio_segment rest
                  (window_volume audio_segment i0) i0 eq_refl)
        as (i & H1 & H2 & H3 & H4).
      exists i. unfold window_size in H1. change (100 / 2) with 50 in H1.
      change (100 / 2) with 50. split; [exact H1|]. split.
      * destruct H2 as [-> | H2]; [left; reflexivity | right; exact H2].
      * intros j [<- | Hj]; [exact H3 | apply H4; exact Hj].
Qed.

End SplitterChoices.

Lemma X8_witness :
  (100 < @AudioSplitter.len AudioSplitter.synth_lib
           AudioSplitter.tiny_recording)%Z
  /\ exists i,
       @AudioSplitter._find_min_volume_position AudioSplitter.synth_lib
         AudioSplitter.tiny_recording = (i + 50)%Z
       /\ In i (AudioSplitter.py_range
                  (@AudioSplitter.len AudioSplitter.synth_lib
                     AudioSplitter.tiny_recording - 100) 100).
Proof.
  split; [reflexivity|].
  destruct (proj2 (@X8_quietest_window AudioSplitter.synth_lib
                     AudioSplitter.tiny_recording) eq_refl)
    as (i & H1 & H2 & _).
  exists i. split; [exact H1 | exact H2].
Defined.

Section SegmentFiles.
Import AudioSplitter.
Local Open Scope Z_scope.

Lemma export_loop_all (export_ok : nat -> bool) :
  (forall k, export_ok k = true) ->
  forall points segment_count,
  exists files,
    export_loop export_ok segment_count points = Some files
    /\ map number files = seq (S segment_count) (List.length points - 1)
    /\ map start_ms files = removelast points
    /\ map end_ms files = tl points.
Proof.
  intros Hok points.
  induction points as [|start rest IH]; intros c.
  - exists []. repeat split.
  - destruct rest as [|stop rest'].
    + exists []. repeat split.
    + destruct (IH (S c)) as (files & H1 & H2 & H3 & H4).
      cbn [export_loop]. cbn [export_loop] in H1. rewrite Hok, H1.
      eexists. split; [reflexivity|].
      cbn [map number start_ms end_ms tl].
      rewrite H2, H3, H4. repeat split.
      cbn [List.length]. rewrite !Nat.sub_succ, !Nat.sub_0_r.
      destruct rest'; reflexivity.
Qed.

Lemma export_loop_names (export_ok : nat -> bool) (points : list Z) :
  forall segment_count files,
  export_loop export_ok segment_count points = Some files ->
  map output_filename files = map segment_filename (map number files).
Proof.
  induction points as [|start rest IH]; intros c files H.
  - inversion H. reflexivity.
  - destruct rest as [|stop rest'].
    + inversion H. reflexivity.
    + cbn [export_loop] in H.
      destruct (export_ok (S c)); [|discriminate].
      destruct (match rest' with
                | [] => Some []
                | _ => _
                end) as [files'|] eqn:E; [|discriminate].
      inversion H; subst. cbn [map output_filename number].
      f_equal. apply (IH (S c)). exact E.
Qed.

Lemma export_loop_total (export_ok : nat -> bool) (points : list Z) :
  forall segment_count files,
  export_loop export_ok segment_count points = Some files ->
  total_duration files = last points 0 - hd 0 points.
Proof.
  induction points as [|start rest IH]; intros c files H.
  - inversion H. reflexivity.
  - destruct rest as [|stop rest'].
    + inversion H. simpl. lia.
    + cbn [export_loop] in H.
      destruct (export_ok (S c)); [|discriminate].
      destruct (match rest' with
                | [] => Some []
                | _ => _
                end) as [files'|] eqn:E; [|discriminate].
      inversion H; subst.
      unfold total_duration. cbn [fold_right start_ms end_ms].
      fold (total_duration files'). rewrite (IH (S c) files' E).
      change (last (start :: stop :: rest') 0) with (last (stop :: rest') 0).
      cbn [hd]. lia.
Qed.

Lemma export_loop_sorted (export_ok : nat -> bool) (points : list Z) :
  LocallySorted Z.lt points ->
  forall segment_count files,
  export_loop export_ok segment_count points = Some files ->
  Forall (fun f => start_ms f < end_ms f) files.
Proof.
  induction 1 as [|x|x y l Hs IH Hxy]; intros c files H.
  - inversion H. constructor.
  - inversion H. constructor.
  - cbn [export_loop] in H.
    destruct (export_ok (S c)); [|discriminate].
    destruct (match l with
              | [] => Some []
              | _ => _
              end) as [files'|] eqn:E; [|discriminate].
    inversion H; subst. constructor; [exact Hxy|].
    apply (IH (S c)). exact E.
Qed.

Lemma removelast_tl (l : list Z) : removelast (tl l) = tl (removelast l).
Proof.
  destruct l as [|x [|y l]]; reflexivity.
Qed.

Lemma map_removelast_comm {A B : Type} (f : A -> B) (l : list A) :
  map f (removelast l) = removelast (map f l).
Proof.
  induction l as [|x [|y l] IH]; [reflexivity | reflexivity |].
  change (removelast (x :: y :: l)) with (x :: removelast (y :: l)).
  cbn [map]. cbn [map] in IH. rewrite IH. reflexivity.
Qed.

Lemma export_loop_some (export_ok : nat -> bool) (points : list Z) :
  forall segment_count files,
  export_loop export_ok segment_count points = Some files ->
  map start_ms files = removelast points /\ map end_ms files = tl points.
Proof.
  induction points as [|start rest IH]; intros c files H.
  - inversion H. split; reflexivity.
  - destruct rest as [|stop rest'].
    + inversion H. split; reflexivity.
    + cbn [export_loop] in H.
      destruct (export_ok (S c)); [|discriminate].
      destruct (match rest' with
                | [] => Some []
                | _ => _
                end) as [files'|] eqn:E; [|discriminate].
      inversion H; subst. destruct (IH (S c) files' E) as [Hs He].
      cbn [map start_ms end_ms tl]. rewrite Hs, He. split; reflexivity.
Qed.

Lemma map_tl {A B : Type} (f : A -> B) (l : list A) :
  map f (tl l) = tl (map f l).
Proof. destruct l; reflexivity. Qed.

Lemma py_range_length (stop step : Z) :
  List.length (py_range stop step) = Z.to_nat ((stop + step - 1) / step).
Proof. unfold py_range. rewrite length_map, length_seq. reflexivity. Qed.

Context {lib : AudioLib}.

Lemma split_plan_length (a : audio) (segment_length_ms : Z) :
  0 < len a -> 0 < segment_length_ms ->
  exists plan,
    split_plan a segment_length_ms = Some plan
    /\ List.length plan
       = S (Z.to_nat ((len a + segment_length_ms - 1) / segment_length_ms)).
Proof.
  intros Hlen Hseg.
  destruct (py_range_shape (len a) segment_length_ms Hlen Hseg)
    as (m & Hrange & Hin).
  pose proof (py_range_length (len a) segment_length_ms) as Hl.
  rewrite Hrange in Hl. cbn [List.length] in Hl.
  exists (0 :: map (_find_optimal_split_point a)
                   (multiples segment_length_ms 1 m) ++ [len a]).
  split.
  - unfold split_plan, theoretical_split_points.
    replace (segment_length_ms <=? 0) with false
      by (symmetry; apply Z.leb_gt; exact Hseg).
    rewrite Hrange.
    assert (Hlast : (last (0 :: multiples segment_length_ms 1 m) 0 =? len a)
                    = false).
    { apply Z.eqb_neq. intros E.
      pose proof (last_in_list (0 :: multiples segment_length_ms 1 m) 0
                    ltac:(discriminate)) as Hx.
      rewrite E in Hx. destruct Hx as [Hx | Hx]; [lia|].
      apply Hin in Hx. lia. }
    rewrite Hlast. unfold _determine_all_split_points.
    cbn [app]. rewrite removelast_last, last_app_one.
    destruct (multiples segment_length_ms 1 m ++ [len a]) eqn:E.
    + destruct (multiples segment_length_ms 1 m); discriminate E.
    + reflexivity.
  - cbn [List.length]. rewrite length_app, length_map. cbn [List.length].
    lia.
Qed.

(** X9: when every export succeeds, a recording of positive length cut with
    a positive segment length gives as many files as the duration holds
    segment lengths, rounded up, wherever the silences are; the files are
    numbered from 1 and named [segment_<number>.mp3]. *)
Theorem X9_segment_files (export_ok : nat -> bool) (a : audio)
  (segment_length_ms : Z) :
  (forall k, export_ok k = true) ->
  0 < len a -> 0 < segment_length_ms ->
  exists files,
    split_audio export_ok a segment_length_ms = Some files
    /\ List.length files
       = Z.to_nat ((len a + segment_length_ms - 1) / segment_length_ms)
    /\ map number files = seq 1 (List.length files)
    /\ map output_filename files
       = map segment_filename (seq 1 (List.length files)).
Proof.
  intros Hok Hlen Hseg.
  destruct (split_plan_length a segment_length_ms Hlen Hseg)
    as (plan & Hplan & Hl).
  destruct (export_loop_all export_ok Hok plan 0%nat)
    as (files & Hfiles & Hnum & _ & _).
  exists files. unfold split_audio. rewrite Hplan.
  split; [exact Hfiles|].
  assert (Hn : List.length files
               = Z.to_nat ((len a + segment_length_ms - 1)
                           / segment_length_ms)).
  { rewrite <- (length_map number), Hnum, length_seq, Hl. lia. }
  split; [exact Hn|].
  assert (Hnum' : map number files = seq 1 (List.length files)).
  { rewrite Hnum, Hn, Hl. f_equal. lia. }
  split; [exact Hnum'|].
  rewrite (export_loop_names export_ok plan 0%nat files Hfiles), Hnum'.
  reflexivity.
Qed.

(** X10: the files written cover the recording without gap: the first
    starts at 0, each starts where the one before it ends, the last ends at
    the end of the recording, and the differences between end and start,
    which the method logs as the lengths, add up to the duration. When the
    segment length is at least twice the margin, every file has a positive
    length. *)
Theorem X10_segments_cover_recording (export_ok : nat -> bool) (a : audio)
  (segment_length_ms : Z) (files : list exported) :
  0 < len a -> 0 < segment_length_ms ->
  split_audio export_ok a segment_length_ms = Some files ->
  hd_error (map start_ms files) = Some 0
  /\ map start_ms (tl files) = map end_ms (removelast files)
  /\ last (map end_ms files) 0 = len a
  /\ total_duration files = len a
  /\ (2 * margin_ms <= segment_length_ms ->
      Forall (fun f => start_ms f < end_ms f) files).
Proof.
  intros Hlen Hseg H.
  destruct (split_plan_shape a segment_length_ms Hlen Hseg)
    as (m & Hplan & Hin).
  unfold split_audio in H. rewrite Hplan in H.
  set (mids := map (_find_optimal_split_point a)
                   (multiples segment_length_ms 1 m)) in *.
  destruct (export_loop_some export_ok _ _ _ H) as (Hs & He).
  change (0 :: mids ++ [len a]) with ((0 :: mids) ++ [len a]) in Hs.
  rewrite removelast_last in Hs. cbn [tl] in He.
  split; [rewrite Hs; reflexivity|].
  split.
  { rewrite map_removelast_comm, He, removelast_last.
    rewrite (map_tl start_ms files), Hs. reflexivity. }
  split; [rewrite He; apply last_last|].
  split.
  { rewrite (export_loop_total export_ok _ _ _ H).
    change (0 :: mids ++ [len a]) with ((0 :: mids) ++ [len a]).
    rewrite last_last. cbn [hd app]. lia. }
  intros Hwide.
  apply (export_loop_sorted export_ok (0 :: mids ++ [len a]))
    with (segment_count := 0%nat); [|exact H].
  apply increasing_sorted. apply increasing_chain; auto.
  unfold margin_ms in *. lia.
Qed.

End SegmentFiles.

Lemma X9_witness :
  exists files,
    @AudioSplitter.split_audio AudioSplitter.synth_lib (fun _ => true)
      AudioSplitter.long_recording 600000 = Some files
    /\ List.length files = 3%nat
    /\ map AudioSplitter.number files = [1; 2; 3]%nat.
Proof.
  destruct (@X9_segment_files AudioSplitter.synth_lib (fun _ => true)
              AudioSplitter.long_recording 600000
              (fun _ => eq_refl) eq_refl eq_refl)
    as (files & H1 & H2 & H3 & _).
  exists files. split; [exact H1|]. split; [exact H2|].
  rewrite H3, H2. reflexivity.
Defined.

Lemma X10_witness :
  exists files,
    @AudioSplitter.split_audio AudioSplitter.synth_lib (fun _ => true)
      AudioSplitter.long_recording 600000 = Some files
    /\ AudioSplitter.total_duration files = 1300000%Z
    /\ Forall (fun f => (AudioSplitter.start_ms f < AudioSplitter.end_ms f)%Z)
         files.
Proof.
  assert (E : exists files,
             @AudioSplitter.split_audio AudioSplitter.synth_lib
               (fun _ => true) AudioSplitter.long_recording 600000
             = Some files)
    by (vm_compute; eexists; reflexivity).
  destruct E as [files E]. exists files. split; [exact E|].
  destruct (@X10_segments_cover_recording AudioSplitter.synth_lib
              (fun _ => true) AudioSplitter.long_recording 600000 files
              eq_refl eq_refl E)
    as (_ & _ & _ & Ht & Hpos).
  split; [exact Ht|]. apply Hpos. vm_compute. discriminate.
Defined.

(** ** The speaker rewrite on one field *)

Section RewriteProperties.
Import Py SpeakerRemapper.

(** X11: a speaker field that carries the label, however the colon is
    spaced, is replaced by the field of the new name in the one spacing the
    code writes, and the rewrite goes on after it. *)
Theorem X11_field_rewritten (old_name new_name ws1 ws2 rest : str) :
  forallb isspace ws1 = true -> forallb isspace ws2 = true ->
  existsb (char_eqb backslash) new_name = false ->
  re_sub old_name (replacement new_name)
    (speaker_key ++ ws1 ++ colon :: ws2 ++ dquote :: old_name
       ++ dquote :: rest)
  = Some (replacement new_name
            ++ sub_from old_name (replacement new_name) 0 rest).
Proof.
  intros H1 H2 Hb. unfold re_sub.
  assert (Ht : template (replacement new_name) = Some (replacement new_name)).
  { unfold template, replacement.
    rewrite !existsb_app, Hb. reflexivity. }
  rewrite Ht. f_equal.
  pose proof (match_speaker_field old_name ws1 ws2 rest H1 H2) as Hm.
  remember (speaker_key ++ ws1 ++ colon :: ws2 ++ dquote :: old_name
              ++ dquote :: rest) as text eqn:Etext.
  assert (Esplit : text = (speaker_key ++ ws1 ++ colon :: ws2 ++ dquote
                             :: old_name ++ [dquote]) ++ rest).
  { subst text. repeat (rewrite <- ?app_assoc; cbn [app]). reflexivity. }
  remember (speaker_key ++ ws1 ++ colon :: ws2 ++ dquote :: old_name
              ++ [dquote]) as fld eqn:Efld.
  destruct fld as [|c fld']; [destruct ws1; discriminate Efld|].
  rewrite Esplit in *. cbn [app sub_from]. cbn [app] in Hm. rewrite Hm.
  f_equal. cbn [List.length]. rewrite Nat.sub_succ, Nat.sub_0_r.
  apply sub_from_skip.
Qed.

Lemma X11_witness :
  re_sub label_A (replacement name_C)
    (speaker_key ++ of_ascii "  " ++ colon :: [newline] ++ dquote :: label_A
       ++ dquote :: of_ascii ", " ++ field label_A)
  = Some (replacement name_C ++ of_ascii ", " ++ replacement name_C).
Proof.
  rewrite (X11_field_rewritten label_A name_C (of_ascii "  ") [newline]
             (of_ascii ", " ++ field label_A)
             eq_refl eq_refl eq_refl).
  reflexivity.
Defined.

(** X12: an entry whose new name holds one of the unknown-name patterns is
    never applied: the rewrite gives what it gives without the entry, and a
    mapping made of such entries only gives the transcript back. *)
Theorem X12_unknown_names_not_applied (transcript_text : str)
  (before after : mapping) (old_name new_name : str) :
  skipped new_name = true ->
  _replace_speakers transcript_text (before ++ (old_name, new_name) :: after)
  = _replace_speakers transcript_text (before ++ after)
  /\ (forallb (fun kv => skipped (snd kv)) (before ++ after) = true ->
      _replace_speakers transcript_text
        (before ++ (old_name, new_name) :: after)
      = Some transcript_text).
Proof.
  intros Hs.
  assert (E : filtered_mapping (before ++ (old_name, new_name) :: after)
              = filtered_mapping (before ++ after)).
  { unfold filtered_mapping. rewrite !filter_app. cbn [filter snd].
    rewrite Hs. reflexivity. }
  unfold _replace_speakers. rewrite E. split; [reflexivity|].
  intros Hall.
  replace (filtered_mapping (before ++ after)) with (@nil (str * str));
    [reflexivity|].
  symmetry. unfold filtered_mapping. clear E.
  induction (before ++ after) as [|kv l IH]; [reflexivity|].
  simpl in Hall. apply andb_true_iff in Hall as [Hk Hl].
  simpl. rewrite Hk. simpl. apply IH. exact Hl.
Qed.

Lemma X12_witness :
  _replace_speakers (field label_A)
    ([(label_B, name_C)] ++ (label_A, of_ascii "unknown speaker") :: [])
  = Some (field label_A).
Proof.
  rewrite (proj1 (X12_unknown_names_not_applied (field label_A)
                    [(label_B, name_C)] [] label_A
                    (of_ascii "unknown speaker") eq_refl)).
  reflexivity.
Defined.

Lemma matches_somewhere_key (old_name s : str) :
  contains speaker_key s = false -> matches_somewhere old_name s = false.
Proof.
  induction s as [|c s IH]; intros H.
  - reflexivity.
  - change (contains speaker_key (c :: s))
      with (startswith speaker_key (c :: s) || contains speaker_key s) in H.
    apply orb_false_iff in H as [Hh Ht].
    cbn [matches_somewhere]. unfold match_speaker at 1. rewrite Hh.
    apply IH. exact Ht.
Qed.

(** X13: a transcript in which the quoted key [speaker] does not occur
    comes back unchanged, whatever the mapping, as long as no new name
    holds a backslash. *)
Theorem X13_text_without_fields (transcript_text : str)
  (speaker_mapping : mapping) :
  contains speaker_key transcript_text = false ->
  forallb (fun kv => negb (existsb (char_eqb backslash) (snd kv)))
    speaker_mapping = true ->
  _replace_speakers transcript_text speaker_mapping = Some transcript_text.
Proof.
  intros Hkey Hb. unfold _replace_speakers. apply replace_loop_fixed.
  intros old_name new_name Hin. split.
  - unfold filtered_mapping in Hin. apply filter_In in Hin as [Hin _].
    rewrite forallb_forall in Hb. specialize (Hb _ Hin). simpl in Hb.
    apply negb_true_iff in Hb.
    unfold template, replacement. rewrite !existsb_app, Hb. reflexivity.
  - apply matches_somewhere_key. exact Hkey.
Qed.

Lemma X13_witness :
  _replace_speakers (of_ascii "speaker A_seg1: hello")
    [(label_A, name_C)]
  = Some (of_ascii "speaker A_seg1: hello").
Proof.
  apply X13_text_without_fields; reflexivity.
Defined.

End RewriteProperties.

(** ** The JSON text taken from the reply *)

Section ReplyUnwrapping.
Import Py SpeakerRemapper.

Lemma after_first_skip (c : char) (p pre rest : str) :
  existsb (char_eqb c) pre = false ->
  after_first (c :: p) (pre ++ (c :: p) ++ rest) = Some rest.
Proof.
  induction pre as [|d pre IH]; intros H.
  - cbn [app]. pose proof (startswith_app (c :: p) rest) as Hs.
    cbn [app] in Hs. cbn [after_first]. rewrite Hs.
    f_equal. apply (skipn_app_exact (c :: p) rest).
  - simpl in H. apply orb_false_iff in H as [Hd Hpre].
    specialize (IH Hpre). cbn [app] in IH.
    cbn [app after_first]. cbn [startswith]. rewrite Hd. cbn [andb].
    exact IH.
Qed.

Lemma after_first_absent (c : char) (p s : str) :
  existsb (char_eqb c) s = false -> after_first (c :: p) s = None.
Proof.
  induction s as [|d s IH]; intros H; [reflexivity|].
  simpl in H. apply orb_false_iff in H as [Hd Hs].
  cbn [after_first startswith]. rewrite Hd. cbn [andb]. apply IH. exact Hs.
Qed.

Lemma before_first_skip (c : char) (p pre rest : str) :
  existsb (char_eqb c) pre = false ->
  before_first (c :: p) (pre ++ (c :: p) ++ rest) = Some pre.
Proof.
  induction pre as [|d pre IH]; intros H.
  - cbn [app]. pose proof (startswith_app (c :: p) rest) as Hs.
    cbn [app] in Hs. cbn [before_first]. rewrite Hs. reflexivity.
  - simpl in H. apply orb_false_iff in H as [Hd Hpre].
    specialize (IH Hpre). cbn [app] in IH.
    cbn [app before_first]. cbn [startswith]. rewrite Hd. cbn [andb].
    rewrite IH. reflexivity.
Qed.

Lemma from_first_skip (c : char) (pre rest : str) :
  existsb (char_eqb c) pre = false ->
  from_first c (pre ++ c :: rest) = Some (c :: rest).
Proof.
  induction pre as [|d pre IH]; intros H.
  - simpl. rewrite char_eqb_refl. reflexivity.
  - simpl in H. apply orb_false_iff in H as [Hd Hpre].
    cbn [app from_first].
    replace (char_eqb d c) with false; [apply IH; exact Hpre|].
    symmetry. apply not_true_iff_false. intros E.
    apply char_eqb_eq in E. subst d. rewrite char_eqb_refl in Hd.
    discriminate Hd.
Qed.

Lemma lstrip_length (s : str) : List.length (lstrip s) <= List.length s.
Proof.
  induction s as [|c s IH]; [reflexivity|]. simpl.
  destruct (isspace c); simpl; lia.
Qed.

Lemma lstrip_fixed_app (s rest : str) :
  lstrip s = s -> s <> [] -> lstrip (s ++ rest) = s ++ rest.
Proof.
  destruct s as [|c s]; [congruence|]. intros H _. simpl in *.
  destruct (isspace c); [|reflexivity].
  pose proof (lstrip_length s) as Hl. rewrite H in Hl. simpl in Hl. lia.
Qed.

Lemma blank_no_backtick (ws : str) :
  forallb isspace ws = true -> existsb (char_eqb backtick) ws = false.
Proof.
  induction ws as [|c ws IH]; [reflexivity|]. cbn [forallb existsb].
  rewrite andb_true_iff. intros [Hc Hws]. rewrite (IH Hws), orb_false_r.
  apply not_true_iff_false. intros E. apply char_eqb_eq in E. subst c.
  discriminate Hc.
Qed.

Lemma forallb_rev {A : Type} (f : A -> bool) (l : list A) :
  forallb f (rev l) = forallb f l.
Proof.
  induction l as [|x l IH]; [reflexivity|]. simpl.
  rewrite forallb_app, IH. simpl. rewrite andb_true_r. apply andb_comm.
Qed.

Lemma existsb_rev {A : Type} (f : A -> bool) (l : list A) :
  existsb f (rev l) = existsb f l.
Proof.
  induction l as [|x l IH]; [reflexivity|]. simpl.
  rewrite existsb_app, IH. simpl. rewrite orb_false_r. apply orb_comm.
Qed.

Lemma rstrip_app_blank (s ws : str) :
  forallb isspace ws = true -> rstrip (s ++ ws) = rstrip s.
Proof.
  intros H. unfold rstrip. rewrite rev_app_distr.
  rewrite lstrip_blank_app; [reflexivity|].
  rewrite forallb_rev. exact H.
Qed.

(** X14: a reply that holds a fenced block gives the body of the block:
    what stands before the opening fence and after the closing one is
    dropped, and so is the whitespace between the fences and the body. *)
Theorem X14_fenced_reply (pre ws1 body ws2 post : str) :
  existsb (char_eqb backtick) pre = false ->
  existsb (char_eqb backtick) body = false ->
  forallb isspace ws1 = true -> forallb isspace ws2 = true ->
  lstrip body = body -> rstrip body = body ->
  json_str_of (pre ++ fence_json ++ ws1 ++ body ++ ws2 ++ fence ++ post)
  = body.
Proof.
  intros Hpre Hbody H1 H2 Hl Hr. unfold json_str_of, search_fenced.
  change fence_json with (backtick :: of_ascii "``json").
  rewrite (after_first_skip backtick _ pre _ Hpre).
  rewrite (lstrip_blank_app ws1 _ H1).
  assert (Hcut : before_first fence
                   (lstrip (body ++ ws2 ++ fence ++ post))
                 = Some (match body with [] => [] | _ => body ++ ws2 end)).
  { destruct body as [|c b] eqn:Eb.
    - cbn [app]. rewrite (lstrip_blank_app ws2 _ H2). reflexivity.
    - rewrite <- Eb in *.
      rewrite (lstrip_fixed_app body _ Hl) by (rewrite Eb; discriminate).
      rewrite app_assoc.
      change fence with (backtick :: of_ascii "``").
      rewrite before_first_skip; [rewrite Eb; reflexivity|].
      rewrite existsb_app, Hbody, (blank_no_backtick ws2 H2).
      reflexivity. }
  rewrite Hcut. destruct body as [|c b]; [reflexivity|].
  rewrite (rstrip_app_blank _ ws2 H2). exact Hr.
Qed.

Lemma X14_witness :
  json_str_of (of_ascii "Here is the mapping:" ++ fence_json ++ [newline]
                 ++ of_ascii "{}" ++ [newline] ++ fence ++ of_ascii " done")
  = of_ascii "{}".
Proof.
  apply (X14_fenced_reply (of_ascii "Here is the mapping:") [newline]
           (of_ascii "{}") [newline] (of_ascii " done")); reflexivity.
Defined.

(** X15: a reply without the opening fence gives what stands from its first
    opening brace to its last closing brace. *)
Theorem X15_braces_reply (pre mid post : str) :
  existsb (char_eqb backtick) (pre ++ mid ++ post) = false ->
  existsb (char_eqb 123%N) pre = false ->
  existsb (char_eqb 125%N) post = false ->
  json_str_of (pre ++ 123%N :: mid ++ 125%N :: post)
  = 123%N :: mid ++ [125%N].
Proof.
  intros Hfence Hpre Hpost. unfold json_str_of, search_fenced.
  change fence_json with (backtick :: of_ascii "``json").
  rewrite after_first_absent.
  - unfold search_braces. rewrite (from_first_skip _ pre _ Hpre).
    cbv beta iota.
    assert (E : forall (a b : str) (x y : char),
              rev (x :: a ++ y :: b) = rev b ++ y :: rev (x :: a)).
    { intros a b x y. cbn [rev]. rewrite rev_app_distr. cbn [rev].
      rewrite <- !app_assoc. reflexivity. }
    rewrite E.
    rewrite from_first_skip by (rewrite existsb_rev; exact Hpost).
    cbn [rev]. rewrite rev_app_distr, rev_involutive. reflexivity.
  - rewrite !existsb_app in Hfence.
    apply orb_false_iff in Hfence as [Ha Hb].
    apply orb_false_iff in Hb as [Hb Hc].
    repeat (rewrite ?existsb_app; cbn [existsb]).
    rewrite Ha, Hb, Hc. reflexivity.
Qed.

Lemma X15_witness :
  json_str_of (of_ascii "mapping " ++ 123%N
                 :: of_ascii "a{b}c" ++ 125%N :: of_ascii " end")
  = of_ascii "{a{b}c}".
Proof.
  apply (X15_braces_reply (of_ascii "mapping ") (of_ascii "a{b}c")
           (of_ascii " end")); reflexivity.
Defined.

End ReplyUnwrapping.

(** ** The normalisation of a reply *)

Section Normalisation.
Import Py Transcription.

Lemma lstrip_collapse (s : str) :
  lstrip (collapse_ws true s) = collapse_ws true s.
Proof.
  induction s as [|c s IH]; [reflexivity|]. cbn [collapse_ws].
  destruct (isspace c) eqn:E; [exact IH|].
  cbn [lstrip]. rewrite E. reflexivity.
Qed.

Lemma lstrip_collapse_false (s : str) :
  lstrip (collapse_ws false s) = collapse_ws true s.
Proof.
  destruct s as [|c s]; [reflexivity|]. cbn [collapse_ws].
  destruct (isspace c) eqn:E.
  - cbn [lstrip]. change (isspace space) with true. cbv iota.
    apply lstrip_collapse.
  - cbn [lstrip]. rewrite E. reflexivity.
Qed.

Lemma lstrip_word (w rest : str) :
  w <> [] -> existsb isspace w = false -> lstrip (w ++ rest) = w ++ rest.
Proof.
  destruct w as [|c w]; [congruence|]. intros _ H. simpl in H.
  apply orb_false_iff in H as [Hc _]. cbn [app lstrip]. rewrite Hc.
  reflexivity.
Qed.

Lemma rstrip_word (a w : str) :
  w <> [] -> existsb isspace w = false -> rstrip (a ++ w) = a ++ w.
Proof.
  intros Hne Hw. unfold rstrip. rewrite rev_app_distr.
  rewrite lstrip_word.
  - rewrite <- rev_app_distr. apply rev_involutive.
  - intros E. apply (f_equal (@rev char)) in E.
    rewrite rev_involutive in E. exact (Hne E).
  - rewrite existsb_rev. exact Hw.
Qed.

Lemma rstrip_keeps (a x : str) :
  rstrip x <> [] -> rstrip (a ++ x) = a ++ rstrip x.
Proof.
  unfold rstrip. intros H. rewrite rev_app_distr.
  assert (Hl : forall y z : str,
             lstrip y <> [] -> lstrip (y ++ z) = lstrip y ++ z).
  { induction y as [|c y IH]; intros z Hy; [exfalso; apply Hy; reflexivity|].
    cbn [app lstrip] in *. destruct (isspace c); [apply IH; exact Hy|].
    reflexivity. }
  rewrite Hl.
  - rewrite rev_app_distr, rev_involutive. reflexivity.
  - intros E. apply H. rewrite E. reflexivity.
Qed.

Lemma rstrip_drops (a x : str) :
  rstrip x = [] -> rstrip (a ++ x) = rstrip a.
Proof.
  unfold rstrip. intros H. rewrite rev_app_distr.
  assert (Hx : lstrip (rev x) = []).
  { apply (f_equal (@rev char)) in H. rewrite rev_involutive in H.
    exact H. }
  assert (Hl : forall y z : str, lstrip y = [] ->
             lstrip (y ++ z) = lstrip z).
  { induction y as [|c y IH]; intros z Hy; [reflexivity|].
    cbn [app lstrip] in *. destruct (isspace c); [apply IH; exact Hy|].
    discriminate Hy. }
  rewrite (Hl _ _ Hx). reflexivity.
Qed.

Lemma rstrip_blank_one (a : str) (c : char) :
  isspace c = true -> rstrip (a ++ [c]) = rstrip a.
Proof.
  intros Hc. apply rstrip_app_blank. simpl. rewrite Hc. reflexivity.
Qed.

Lemma split_from_nonempty_word (s : str) :
  forall cur, cur <> [] -> split_from cur s <> [].
Proof.
  induction s as [|c s IH]; intros cur Hcur.
  - simpl. destruct cur; [congruence | discriminate].
  - cbn [split_from]. destruct (isspace c).
    + destruct cur; [congruence | discriminate].
    + apply IH. discriminate.
Qed.

Lemma rev_nonempty (k : str) : k <> [] -> rev k <> [].
Proof.
  intros Hk E. apply (f_equal (@rev char)) in E.
  rewrite rev_involutive in E. exact (Hk E).
Qed.

Lemma split_from_head_word (s : str) :
  forall cur, cur <> [] ->
  match split_from cur s with
  | [] => True
  | w :: _ => w <> []
  end.
Proof.
  induction s as [|c s IH]; intros cur Hcur.
  - simpl. destruct cur; [congruence|].
    apply rev_nonempty. discriminate.
  - cbn [split_from]. destruct (isspace c).
    + destruct cur; [congruence|]. apply rev_nonempty. discriminate.
    + apply IH. discriminate.
Qed.

(** No word of a split is empty. *)
Lemma split_words_nonempty (s : str) :
  forall cur,
  Forall (fun w => w <> [])
    (match cur with
     | [] => split_from [] s
     | _ => tl (split_from cur s)
     end).
Proof.
  induction s as [|c s IH]; intros cur.
  - destruct cur; constructor.
  - cbn [split_from]. destruct (isspace c).
    + destruct cur as [|y cur]; [apply (IH [])|].
      cbn [tl]. apply (IH []).
    + destruct cur as [|y cur]; [|apply (IH (c :: y :: cur))].
      pose proof (IH [c]) as Ht. cbn iota in Ht.
      pose proof (split_from_head_word s [c] ltac:(discriminate)) as Hd.
      destruct (split_from [c] s); constructor; assumption.
Qed.

Lemma join_first_word (w : str) (l : list str) :
  join [space] (w :: l)
  = match l with
    | [] => w
    | _ => w ++ space :: join [space] l
    end.
Proof. destruct l; reflexivity. Qed.

(** The two readings agree at every stage: with a word being read, and
    between words. *)
Lemma collapse_split (s : str) :
  (forall cur, cur <> [] -> existsb isspace cur = false ->
     rstrip (rev cur ++ collapse_ws false s)
     = join [space] (split_from cur s))
  /\ rstrip (collapse_ws true s) = join [space] (split_from [] s)
  /\ (split_from [] s = [] -> collapse_ws true s = []).
Proof.
  induction s as [|c s (IH1 & IH2 & IH3)].
  - split; [|split; reflexivity].
    intros cur Hne Hcur. cbn [collapse_ws split_from]. rewrite app_nil_r.
    destruct cur as [|x cur]; [congruence|]. cbn [join].
    change (rev (x :: cur)) with ([] ++ rev (x :: cur)).
    apply rstrip_word.
    + apply rev_nonempty. discriminate.
    + rewrite existsb_rev. exact Hcur.
  - cbn [collapse_ws split_from]. destruct (isspace c) eqn:Ec.
    + split; [|split; [exact IH2 | exact IH3]].
      intros cur Hne Hcur.
      destruct cur as [|x cur]; [congruence|].
      rewrite join_first_word.
      destruct (split_from [] s) as [|w l] eqn:El.
      * rewrite (IH3 eq_refl). rewrite rstrip_blank_one by reflexivity.
        change (rev (x :: cur)) with ([] ++ rev (x :: cur)).
        apply rstrip_word.
        -- apply rev_nonempty. discriminate.
        -- rewrite existsb_rev. exact Hcur.
      * change (rev (x :: cur) ++ space :: collapse_ws true s)
          with (rev (x :: cur) ++ [space] ++ collapse_ws true s).
        rewrite app_assoc. rewrite rstrip_keeps.
        -- rewrite IH2, <- app_assoc. reflexivity.
        -- rewrite IH2. rewrite join_first_word.
           assert (Hw : w <> []).
           { pose proof (split_words_nonempty s []) as H. cbn iota in H.
             rewrite El in H. inversion H. assumption. }
           destruct l; [exact Hw|].
           destruct w; [congruence | discriminate].
    + split; [|split].
      * intros cur Hne Hcur.
        change (rev cur ++ c :: collapse_ws false s)
          with (rev cur ++ [c] ++ collapse_ws false s).
        rewrite app_assoc. change (rev cur ++ [c]) with (rev (c :: cur)).
        apply IH1; [discriminate|]. simpl. rewrite Ec, Hcur. reflexivity.
      * change (c :: collapse_ws false s)
          with (rev [c] ++ collapse_ws false s).
        apply IH1; [discriminate|]. simpl. rewrite Ec. reflexivity.
      * intros E. exfalso.
        exact (split_from_nonempty_word s [c] ltac:(discriminate) E).
Qed.

(** X16: the text kept from a reply is its words joined by single spaces:
    the substitution of whitespace runs followed by the strip gives what
    [' '.join(raw.split())] gives; a missing reply gives the empty text. *)
Theorem X16_normalized_words (raw : str) :
  normalize (Some raw) = join [space] (split raw)
  /\ normalize None = [].
Proof.
  split; [|reflexivity].
  unfold normalize, strip, split.
  rewrite lstrip_collapse_false.
  exact (proj1 (proj2 (collapse_split raw))).
Qed.

End Normalisation.

(** ** The timestamp read back from a file name *)

Section Timestamps.
Import Py MeetingTitleService.

Variable nd : char -> bool.

Lemma digits_sound (n : nat) :
  forall s t, digits nd n s = Some t ->
  List.length t = n /\ forallb (isdecimal nd) t = true
  /\ startswith t s = true.
Proof.
  induction n as [|n IH]; intros s t H.
  - inversion H. repeat split.
  - cbn [digits] in H. destruct s as [|c s]; [discriminate|].
    destruct (isdecimal nd c) eqn:Ec; [|discriminate].
    destruct (digits nd n s) as [t'|] eqn:E; [|discriminate].
    inversion H; subst. destruct (IH s t' E) as (Hl & Hd & Hs).
    cbn [List.length forallb startswith].
    rewrite Hl, Ec, Hd, Hs, char_eqb_refl. repeat split.
Qed.

Lemma digits_ascii (t rest : str) :
  forallb ascii_digit t = true ->
  digits nd (List.length t) (t ++ rest) = Some t.
Proof.
  induction t as [|c t IH]; [reflexivity|]. cbn [forallb].
  rewrite andb_true_iff. intros [Hc Ht].
  cbn [List.length app digits]. unfold isdecimal.
  assert (Hlt : (c <? 128)%N = true).
  { unfold ascii_digit in Hc. apply andb_true_iff in Hc as [_ Hc].
    apply N.leb_le in Hc. apply N.ltb_lt. lia. }
  rewrite Hlt, Hc, (IH Ht). reflexivity.
Qed.

Lemma search_timestamp_sound (s : str) :
  forall t, search_timestamp nd s = Some t ->
  List.length t = 14 /\ forallb (isdecimal nd) t = true
  /\ contains (underscore :: t) s = true.
Proof.
  induction s as [|c s IH]; intros t H; [discriminate|].
  cbn [search_timestamp] in H.
  change (contains (underscore :: t) (c :: s))
    with (startswith (underscore :: t) (c :: s)
          || contains (underscore :: t) s).
  destruct (char_eqb c underscore) eqn:Ec.
  - destruct (digits nd 14 s) as [t'|] eqn:E.
    + inversion H; subst. destruct (digits_sound 14 s t E) as (Hl & Hd & Hs).
      split; [exact Hl|]. split; [exact Hd|].
      apply char_eqb_eq in Ec. subst c.
      cbn [startswith]. rewrite char_eqb_refl, Hs. reflexivity.
    + destruct (IH t H) as (Hl & Hd & Hc).
      split; [exact Hl|]. split; [exact Hd|]. rewrite Hc. apply orb_true_r.
  - destruct (IH t H) as (Hl & Hd & Hc).
    split; [exact Hl|]. split; [exact Hd|]. rewrite Hc. apply orb_true_r.
Qed.

(** X17: a timestamp is returned only if it is made of 14 decimal digits
    that follow an underscore in the file name; a file name without
    underscore raises [ValueError]. *)
Theorem X17_timestamp_extracted (file_name : str) :
  (forall timestamp,
     _extract_timestamp nd file_name = Ok timestamp ->
     List.length timestamp = 14
     /\ forallb (isdecimal nd) timestamp = true
     /\ contains (underscore :: timestamp) file_name = true)
  /\ (existsb (char_eqb underscore) file_name = false ->
      _extract_timestamp nd file_name = Raise ValueError).
Proof.
  unfold _extract_timestamp. split.
  - intros t H.
    destruct (search_timestamp nd file_name) as [t'|] eqn:E;
      [|discriminate H].
    inversion H; subst. apply search_timestamp_sound. exact E.
  - intros Hno.
    replace (search_timestamp nd file_name) with (@None str);
      [reflexivity|].
    symmetry. induction file_name as [|c s IH]; [reflexivity|].
    cbn [existsb] in Hno. apply orb_false_iff in Hno as [Hc Hs].
    cbn [search_timestamp].
    replace (char_eqb c underscore) with false; [apply IH; exact Hs|].
    symmetry. apply not_true_iff_false. intros E.
    apply char_eqb_eq in E. subst c. rewrite char_eqb_refl in Hc.
    discriminate Hc.
Qed.

Lemma search_step_other (c : char) (s : str) :
  char_eqb c underscore = false ->
  search_timestamp nd (c :: s) = search_timestamp nd s.
Proof. intros H. cbn [search_timestamp]. rewrite H. reflexivity. Qed.

Lemma search_step_no_digit (d : char) (s : str) :
  isdecimal nd d = false ->
  search_timestamp nd (underscore :: d :: s)
  = search_timestamp nd (d :: s).
Proof.
  intros H. cbn [search_timestamp]. rewrite char_eqb_refl.
  cbn [digits]. rewrite H. reflexivity.
Qed.

Lemma search_hit (t rest : str) :
  List.length t = 14 -> forallb ascii_digit t = true ->
  search_timestamp nd (underscore :: t ++ rest) = Some t.
Proof.
  intros Hl Hd. cbn [search_timestamp]. rewrite char_eqb_refl.
  rewrite <- Hl, digits_ascii by exact Hd. reflexivity.
Qed.

(** X18: the timestamp under which the transcript was written is read back
    from its file name, also when the name goes on after the timestamp (as
    the name of the remapped transcript does). *)
Theorem X18_timestamp_round_trip (timestamp rest : str) :
  List.length timestamp = 14 ->
  forallb ascii_digit timestamp = true ->
  _extract_timestamp nd
    (of_ascii "transcription_summary_" ++ timestamp ++ rest)
  = Ok timestamp
  /\ _extract_timestamp nd (transcript_file_name timestamp) = Ok timestamp.
Proof.
  intros Hl Hd.
  assert (H : forall r,
            search_timestamp nd
              (of_ascii "transcription_summary_" ++ timestamp ++ r)
            = Some timestamp).
  { intros r.
    let x := eval vm_compute in (of_ascii "transcription_summary_") in
    change (of_ascii "transcription_summary_") with x.
    cbn [app].
    repeat (rewrite search_step_other by reflexivity).
    rewrite search_step_no_digit by reflexivity.
    repeat (rewrite search_step_other by reflexivity).
    apply search_hit; assumption. }
  unfold _extract_timestamp, transcript_file_name.
  rewrite !H. split; reflexivity.
Qed.

End Timestamps.

Lemma X17_witness :
  MeetingTitleService._extract_timestamp (fun _ => false)
    (Py.of_ascii "notes.txt")
  = Py.Raise MeetingTitleService.ValueError.
Proof.
  apply (proj2 (X17_timestamp_extracted (fun _ => false)
                  (Py.of_ascii "notes.txt"))).
  reflexivity.
Defined.

Lemma X18_witness :
  MeetingTitleService._extract_timestamp (fun _ => false)
    (Py.of_ascii "transcription_summary_20240131235959_remapped.txt")
  = Py.Ok (Py.of_ascii "20240131235959").
Proof.
  exact (proj1 (X18_timestamp_round_trip (fun _ => false)
                  (Py.of_ascii "20240131235959")
                  (Py.of_ascii "_remapped.txt") eq_refl eq_refl)).
Defined.

(** ** The run of [AudioProcessor] *)

Section WholeRun.
Import Py AudioProcessor.

Lemma transcribe_audio_outcome (process_media : result Transcriber.dict) :
  (exists t, Transcriber.transcribe_audio process_media = Ok t)
  \/ Transcriber.transcribe_audio process_media
     = Raise Transcriber.TranscriptionError.
Proof.
  unfold Transcriber.transcribe_audio.
  destruct process_media as [d | e]; [|right; reflexivity]. simpl.
  destruct (Transcriber.dict_get d (of_ascii "formatted_text")
              (Transcriber.VStr [])).
  - left. eexists. reflexivity.
  - right. reflexivity.
  - right. reflexivity.
Qed.

Lemma transcribe_loop_all (env : Env) (formatted : nat -> str -> str) :
  forall split_files i all_transcriptions,
  (forall k file,
     In (k, file) (combine (seq i (List.length split_files)) split_files) ->
     exists d,
       process_media env k file = Ok d
       /\ Transcriber.dict_get d (of_ascii "formatted_text")
            (Transcriber.VStr [])
          = Transcriber.VStr (formatted k file)) ->
  transcribe_loop env i split_files all_transcriptions
  = Ok (all_transcriptions
          ++ map (fun kf => tag (fst kf) (path_name env (snd kf))
                              (entry_of (formatted (fst kf) (snd kf))))
                 (combine (seq i (List.length split_files)) split_files)).
Proof.
  induction split_files as [|file rest IH]; intros i acc H.
  - simpl. rewrite app_nil_r. reflexivity.
  - cbn [transcribe_loop].
    destruct (H i file ltac:(left; reflexivity)) as (d & Hd & Ht).
    rewrite Hd.
    rewrite (transcribe_audio_succeeds d (formatted i file) Ht).
    cbn [bind Transcriber.conversations map]. rewrite IH.
    + cbn [List.length seq combine map fst snd]. rewrite <- app_assoc.
      reflexivity.
    + intros k f Hin. apply H. right. exact Hin.
Qed.

Lemma transcribe_loop_fails (env : Env) (k : nat) :
  forall split_files i all_transcriptions file e,
  nth_error split_files k = Some file ->
  process_media env (i + k) file = Raise e ->
  transcribe_loop env i split_files all_transcriptions
  = Raise Transcriber.TranscriptionError.
Proof.
  induction k as [|k IH]; intros files i acc file e Hnth He.
  - destruct files as [|f rest]; [discriminate|]. inversion Hnth; subst.
    rewrite Nat.add_0_r in He. cbn [transcribe_loop]. rewrite He.
    reflexivity.
  - destruct files as [|f rest]; [discriminate|]. cbn [nth_error] in Hnth.
    cbn [transcribe_loop].
    destruct (transcribe_audio_outcome (process_media env i f))
      as [[t Ht] | Ht]; rewrite Ht; [|reflexivity].
    cbn [bind]. apply (IH rest (S i) _ file e Hnth).
    replace (S i + k) with (i + S k) by lia. exact He.
Qed.

(** X19: when the splitter, every transcription, the two writes and the
    clean-up succeed, the transcript written holds exactly one entry per
    segment, in the order of the segments, each with the constant speaker
    name and the whole formatted text of its segment, empty or not; the
    file is named after the clock. *)
Theorem X19_one_entry_per_segment (env : Env) (split_files : list str)
  (formatted : nat -> str -> str) :
  split_media_fixed_duration env = Ok split_files ->
  (forall i file,
     In (i, file) (combine (seq 1 (List.length split_files)) split_files) ->
     exists d,
       process_media env i file = Ok d
       /\ Transcriber.dict_get d (of_ascii "formatted_text")
            (Transcriber.VStr [])
          = Transcriber.VStr (formatted i file)) ->
  dump_complete env = Ok tt -> dump_summary env = Ok tt ->
  ResultIntegrator.cleanup_temp_files (segments_dir env) = Ok tt ->
  process_audio_file env
  = Ok (MeetingTitleService.transcript_file_name (now env),
        map (fun kf => entry_of (formatted (fst kf) (snd kf)))
            (combine (seq 1 (List.length split_files)) split_files)).
Proof.
  intros Hsplit Hmedia Hdump Hsum Hclean.
  unfold process_audio_file. rewrite Hsplit. cbn [bind].
  rewrite (transcribe_loop_all env formatted split_files 1 [] Hmedia).
  cbn [bind app].
  rewrite Hdump. cbn [bind]. unfold integrate_results. rewrite Hsum.
  cbn [bind try_except]. rewrite Hclean. cbn [bind try_except].
  rewrite map_map. reflexivity.
Qed.

(** X20: when the transcription service fails on one segment, the whole run
    raises [TranscriptionError]: no transcript is returned, whatever the
    other segments gave. *)
Theorem X20_failing_segment_aborts (env : Env) (split_files : list str)
  (k : nat) (file e : str) :
  split_media_fixed_duration env = Ok split_files ->
  nth_error split_files k = Some file ->
  process_media env (S k) file = Raise e ->
  process_audio_file env = Raise Transcriber.TranscriptionError.
Proof.
  intros Hsplit Hnth He. unfold process_audio_file.
  rewrite Hsplit. cbn [bind].
  rewrite (transcribe_loop_fails env k split_files 1 [] file e Hnth He).
  reflexivity.
Qed.

End WholeRun.

Lemma X19_witness :
  AudioProcessor.process_audio_file (AudioProcessor.sample_env 0)
  = Py.Ok (Py.of_ascii "transcription_summary_20240131235959.txt",
           [ AudioProcessor.entry_of (Py.of_ascii "hello");
             AudioProcessor.entry_of [];
             AudioProcessor.entry_of (Py.of_ascii "bye") ]).
Proof.
  rewrite (X19_one_entry_per_segment (AudioProcessor.sample_env 0)
             (map fst AudioProcessor.segment_texts)
             (fun _ file => AudioProcessor.text_of file) eq_refl).
  - reflexivity.
  - intros i file Hin. destruct i as [|i].
    + exfalso. simpl in Hin.
      destruct Hin as [E | [E | [E | []]]]; discriminate E.
    + exists [ (Py.of_ascii "formatted_text",
                Transcriber.VStr (AudioProcessor.text_of file)) ].
      split; reflexivity.
  - reflexivity.
  - reflexivity.
  - reflexivity.
Defined.

Lemma X20_witness :
  AudioProcessor.process_audio_file (AudioProcessor.sample_env 2)
  = Py.Raise Transcriber.TranscriptionError.
Proof.
  exact (X20_failing_segment_aborts (AudioProcessor.sample_env 2)
           (map fst AudioProcessor.segment_texts) 1
           (Py.of_ascii "segment_002.mp3") (Py.of_ascii "GeminiAPIError")
           eq_refl eq_refl eq_refl).
Defined.

(** ** The clean-up of the segments directory *)

Section CleanupProperties.
Import Py ResultIntegrator.

Lemma unlink_loop_ok (files : list entry) :
  (forall f, In f files -> temporary f = true -> unlink f = Ok tt) ->
  forall kept file_count,
  unlink_loop files kept file_count
  = Ok (kept ++ filter (fun f => negb (temporary f)) files,
        file_count + List.length (filter temporary files)).
Proof.
  induction files as [|f rest IH]; intros H kept n.
  - simpl. rewrite app_nil_r, Nat.add_0_r. reflexivity.
  - cbn [unlink_loop filter]. fold (temporary f).
    destruct (temporary f) eqn:Et.
    + rewrite (H f (or_introl eq_refl) Et). cbn [bind negb].
      rewrite IH by (intros g Hg; apply H; right; exact Hg).
      cbn [List.length]. do 2 f_equal. lia.
    + cbn [negb]. rewrite IH by (intros g Hg; apply H; right; exact Hg).
      rewrite <- app_assoc. reflexivity.
Qed.

Lemma unlink_loop_raises (before after : list entry) (f : entry) (e : str) :
  (forall g, In g before -> temporary g = true -> unlink g = Ok tt) ->
  temporary f = true -> unlink f = Raise e ->
  forall kept file_count,
  unlink_loop (before ++ f :: after) kept file_count = Raise e.
Proof.
  intros Hb Ht He. induction before as [|g rest IH]; intros kept n.
  - cbn [app unlink_loop]. fold (temporary f). rewrite Ht, He. reflexivity.
  - cbn [app unlink_loop]. fold (temporary g).
    destruct (temporary g) eqn:Eg.
    + rewrite (Hb g (or_introl eq_refl) Eg). cbn [bind].
      apply IH. intros h Hh. apply Hb. right. exact Hh.
    + apply IH. intros h Hh. apply Hb. right. exact Hh.
Qed.

Lemma filter_none_forallb {A : Type} (f : A -> bool) (l : list A) :
  match filter (fun x => negb (f x)) l with
  | [] => forallb f l = true
  | _ :: _ => forallb f l = false
  end.
Proof.
  induction l as [|x l IH]; [reflexivity|]. simpl.
  destruct (f x); simpl; [exact IH | reflexivity].
Qed.

(** X21: when every segment file (suffix [.mp3] or [.json]) can be deleted,
    the clean-up removes the directory exactly when it exists and held
    nothing but segment files, and then its outcome is that of the removal;
    otherwise it succeeds and leaves the directory, whatever the other
    files are. *)
Theorem X21_cleanup_outcome (segments_dir : directory) :
  (forall f, In f (listing segments_dir) -> temporary f = true ->
     unlink f = Ok tt) ->
  cleanup_temp_files segments_dir
  = if dir_exists segments_dir && forallb temporary (listing segments_dir)
    then rmdir segments_dir
    else Ok tt.
Proof.
  intros H. rewrite cleanup_reraises. unfold cleanup_body.
  destruct (dir_exists segments_dir); [|reflexivity].
  rewrite (unlink_loop_ok _ H). cbn [bind fst app andb].
  pose proof (filter_none_forallb temporary (listing segments_dir)) as Hf.
  destruct (filter (fun f => negb (temporary f)) (listing segments_dir));
    rewrite Hf; reflexivity.
Qed.

Lemma X21_witness :
  cleanup_temp_files segments_only = Raise (of_ascii "OSError")
  /\ cleanup_temp_files with_foreign_file = Ok tt.
Proof.
  split.
  - rewrite (X21_cleanup_outcome segments_only); [reflexivity|].
    intros f [<- | [<- | []]] _; reflexivity.
  - rewrite (X21_cleanup_outcome with_foreign_file); [reflexivity|].
    intros f [<- | [<- | []]] Ht; [reflexivity | discriminate Ht].
Defined.

(** X22: the error raised by the clean-up is that of the first segment file
    that cannot be deleted: the files after it and the removal of the
    directory are not reached. *)
Theorem X22_first_failure_raised (segments_dir : directory)
  (before after : list entry) (f : entry) (e : str) :
  dir_exists segments_dir = true ->
  listing segments_dir = before ++ f :: after ->
  (forall g, In g before -> temporary g = true -> unlink g = Ok tt) ->
  temporary f = true -> unlink f = Raise e ->
  cleanup_temp_files segments_dir = Raise e.
Proof.
  intros Hd Hl Hb Ht He. rewrite cleanup_reraises. unfold cleanup_body.
  rewrite Hd, Hl, (unlink_loop_raises before after f e Hb Ht He).
  reflexivity.
Qed.

Lemma X22_witness :
  cleanup_temp_files
    {| dir_exists := true;
       listing := [ segment_entry ".txt" (Raise (of_ascii "OSError"));
                    segment_entry ".json" (Raise PermissionError);
                    segment_entry ".mp3" (Raise (of_ascii "OSError")) ];
       rmdir := Ok tt |}
  = Raise PermissionError.
Proof.
  apply (X22_first_failure_raised _
           [segment_entry ".txt" (Raise (of_ascii "OSError"))]
           [segment_entry ".mp3" (Raise (of_ascii "OSError"))]
           (segment_entry ".json" (Raise PermissionError))
           PermissionError); try reflexivity.
  intros g [<- | []] Ht. discriminate Ht.
Defined.

End CleanupProperties.

(** ** The segment tag put on speaker names *)

Section SpeakerTags.
Import Py SpeakerRemapper SpeakerIdentifier.
Import MeetingTitleService.

Lemma uint_digits (u : Decimal.uint) :
  forallb ascii_digit (of_ascii (NilEmpty.string_of_uint u)) = true.
Proof.
  induction u; [reflexivity | | | | | | | | | | ];
    cbn [NilEmpty.string_of_uint]; unfold of_ascii;
    cbn [list_ascii_of_string map forallb]; fold (of_ascii (NilEmpty.string_of_uint u));
    rewrite IHu; reflexivity.
Qed.

Lemma decimal_digits (n : nat) : forallb ascii_digit (decimal n) = true.
Proof. apply uint_digits. Qed.

Lemma of_ascii_inj (a b : string) : of_ascii a = of_ascii b -> a = b.
Proof.
  unfold of_ascii. intros H.
  assert (Hl : list_ascii_of_string a = list_ascii_of_string b).
  { revert H. generalize (list_ascii_of_string a) (list_ascii_of_string b).
    induction l as [|x l IH]; intros [|y l'] H; try discriminate H;
      [reflexivity|].
    cbn [map] in H. injection H as Hx Hl.
    f_equal; [|apply IH; exact Hl].
    rewrite <- (ascii_N_embedding x), <- (ascii_N_embedding y), Hx.
    reflexivity. }
  rewrite <- (string_of_list_ascii_of_string a),
          <- (string_of_list_ascii_of_string b), Hl.
  reflexivity.
Qed.

Lemma decimal_inj (i j : nat) : decimal i = decimal j -> i = j.
Proof.
  unfold decimal. intros H. apply of_ascii_inj in H.
  assert (Hu : Nat.to_uint i = Nat.to_uint j).
  { pose proof (NilEmpty.usu (Nat.to_uint i)) as Hi.
    pose proof (NilEmpty.usu (Nat.to_uint j)) as Hj.
    rewrite H in Hi. rewrite Hi in Hj. injection Hj as Hj. exact Hj. }
  rewrite <- (Unsigned.of_to i), <- (Unsigned.of_to j), Hu. reflexivity.
Qed.

(** Two texts cut at the first occurrence of a character agree part by
    part. *)
Lemma cut_at_first (c : char) (l1 l2 r1 r2 : str) :
  existsb (char_eqb c) l1 = false -> existsb (char_eqb c) l2 = false ->
  l1 ++ c :: r1 = l2 ++ c :: r2 -> l1 = l2 /\ r1 = r2.
Proof.
  revert l2. induction l1 as [|x l1 IH]; intros [|y l2] H1 H2 E.
  - injection E as E. split; [reflexivity | exact E].
  - exfalso. cbn [app] in E. injection E as Ec _. subst y.
    cbn [existsb] in H2. rewrite char_eqb_refl in H2. discriminate H2.
  - exfalso. cbn [app] in E. injection E as Ec _. subst x.
    cbn [existsb] in H1. rewrite char_eqb_refl in H1. discriminate H1.
  - cbn [app] in E. injection E as Ex E. subst y.
    cbn [existsb] in H1, H2.
    apply orb_false_iff in H1 as [_ H1]. apply orb_false_iff in H2 as [_ H2].
    destruct (IH l2 H1 H2 E) as [-> ->]. split; reflexivity.
Qed.

Lemma digits_without (c : char) (ds : str) :
  ascii_digit c = false -> forallb ascii_digit ds = true ->
  existsb (char_eqb c) ds = false.
Proof.
  intros Hc. induction ds as [|d ds IH]; [reflexivity|].
  cbn [forallb existsb]. rewrite andb_true_iff. intros [Hd Hds].
  rewrite (IH Hds), orb_false_r.
  apply not_true_iff_false. intros E. apply char_eqb_eq in E. subst d.
  rewrite Hd in Hc. discriminate Hc.
Qed.

(** The tagged name tells the segment number and the name it was made
    from. *)
Lemma tagged_speaker_inj (speaker1 speaker2 : str) (i j : nat) :
  tagged_speaker speaker1 (Transcription.segment_identifier i)
  = tagged_speaker speaker2 (Transcription.segment_identifier j) ->
  i = j /\ speaker1 = speaker2.
Proof.
  unfold tagged_speaker, Transcription.segment_identifier. intros H.
  apply (f_equal (@rev char)) in H.
  assert (E : forall (sp : str) (n : nat),
            rev (sp ++ underscore :: of_ascii "seg" ++ decimal n)
            = rev (decimal n)
                ++ 103%N :: 101%N :: 115%N :: underscore :: rev sp).
  { intros sp n. rewrite rev_app_distr.
    change (underscore :: of_ascii "seg" ++ decimal n)
      with ([underscore; 115%N; 101%N; 103%N] ++ decimal n).
    rewrite rev_app_distr, <- app_assoc. reflexivity. }
  rewrite !E in H.
  apply cut_at_first in H as [Hd Hs].
  - apply (f_equal (@rev char)) in Hd. rewrite !rev_involutive in Hd.
    apply decimal_inj in Hd. injection Hs as Hs.
    apply (f_equal (@rev char)) in Hs. rewrite !rev_involutive in Hs.
    split; assumption.
  - rewrite existsb_rev. apply digits_without;
      [reflexivity | apply decimal_digits].
  - rewrite existsb_rev. apply digits_without;
      [reflexivity | apply decimal_digits].
Qed.

(** X23: the tags keep the speakers of different segments apart: names
    tagged in two different segments are never equal, whatever the names
    were, and different names stay different once tagged. *)
Theorem X23_tags_keep_segments_apart (speaker1 speaker2 : str) (i j : nat) :
  i <> j \/ speaker1 <> speaker2 ->
  tagged_speaker speaker1 (Transcription.segment_identifier i)
  <> tagged_speaker speaker2 (Transcription.segment_identifier j).
Proof.
  intros H E. apply tagged_speaker_inj in E as [Hi Hs].
  destruct H as [H | H]; [exact (H Hi) | exact (H Hs)].
Qed.

Lemma X23_witness :
  tagged_speaker (of_ascii "A") (Transcription.segment_identifier 1)
  <> tagged_speaker (of_ascii "A_seg1") (Transcription.segment_identifier 1)
  /\ tagged_speaker (of_ascii "A") (Transcription.segment_identifier 1)
     <> tagged_speaker (of_ascii "A") (Transcription.segment_identifier 11).
Proof.
  split.
  - apply X23_tags_keep_segments_apart. right. discriminate.
  - apply X23_tags_keep_segments_apart. left. discriminate.
Defined.

End SpeakerTags.

(** ** The plain-text part of [add_speaker_identifier] *)

Section PlainTextTags.
Import Py SpeakerRemapper SpeakerIdentifier.
Import MeetingTitleService.

Lemma sub_with_skip (m : str -> option (str * nat)) (repl : str -> str)
  (pre post : str) :
  sub_with m repl (List.length pre) (pre ++ post) = sub_with m repl 0 post.
Proof.
  induction pre as [|c pre IH]; [reflexivity|]. simpl. exact IH.
Qed.

Lemma sub_with_none (m : str -> option (str * nat)) (repl : str -> str)
  (s : str) :
  (forall k, m (skipn k s) = None) -> sub_with m repl 0 s = s.
Proof.
  induction s as [|c s IH]; intros H; [reflexivity|].
  pose proof (H 0) as H0. cbn [skipn] in H0.
  cbn [sub_with]. rewrite H0. f_equal. apply IH.
  intros k. exact (H (S k)).
Qed.

(** A match found at the head of [field ++ rest] that is as long as
    [field]. *)
Lemma sub_with_head (m : str -> option (str * nat)) (repl : str -> str)
  (field rest g : str) :
  field <> [] ->
  m (field ++ rest) = Some (g, List.length field) ->
  sub_with m repl 0 (field ++ rest) = repl g ++ sub_with m repl 0 rest.
Proof.
  intros Hne Hm. destruct field as [|c field']; [congruence|].
  cbn [app] in *. cbn [sub_with]. rewrite Hm. f_equal.
  cbn [List.length]. rewrite Nat.sub_succ, Nat.sub_0_r.
  apply sub_with_skip.
Qed.

Lemma contains_skipn (p s : str) (k : nat) :
  p <> [] -> contains p s = false -> startswith p (skipn k s) = false.
Proof.
  intros Hne. revert k. induction s as [|c s IH]; intros k H.
  - rewrite skipn_nil. destruct p; [congruence | reflexivity].
  - change (contains p (c :: s))
      with (startswith p (c :: s) || contains p s) in H.
    apply orb_false_iff in H as [Hh Ht].
    destruct k as [|k]; [exact Hh|]. cbn [skipn]. apply IH. exact Ht.
Qed.

Lemma tag_fields_absent (identifier text : str) :
  literal identifier = true ->
  contains speaker_key text = false ->
  tag_fields identifier text = Some text.
Proof.
  intros Hid H. unfold tag_fields. rewrite Hid. f_equal.
  apply sub_with_none. intros k.
  unfold match_field.
  rewrite (contains_skipn speaker_key text k ltac:(discriminate) H).
  reflexivity.
Qed.

Lemma until_quote_value (name rest : str) :
  existsb (char_eqb dquote) name = false ->
  until_quote (name ++ dquote :: rest) = Some (name, rest).
Proof.
  induction name as [|c name IH]; intros H.
  - cbn [app until_quote]. rewrite char_eqb_refl. reflexivity.
  - cbn [existsb] in H. apply orb_false_iff in H as [Hc Hn].
    cbn [app until_quote].
    replace (char_eqb c dquote) with false.
    + rewrite (IH Hn). reflexivity.
    + symmetry. apply not_true_iff_false. intros E.
      apply char_eqb_eq in E. subst c. rewrite char_eqb_refl in Hc.
      discriminate Hc.
Qed.

(** X24: for an identifier without backslash, a speaker field, however
    the colon is spaced, gets its name tagged with the identifier and is
    written back in the one spacing of the template; the substitution goes
    on after the field. *)
Theorem X24_field_tagged (identifier name ws1 ws2 rest : str) :
  existsb (char_eqb backslash) identifier = false ->
  forallb isspace ws1 = true -> forallb isspace ws2 = true ->
  existsb (char_eqb dquote) name = false ->
  exists tagged_rest,
    tag_fields identifier rest = Some tagged_rest
    /\ tag_fields identifier
         (speaker_key ++ ws1 ++ colon :: ws2 ++ dquote :: name
            ++ dquote :: rest)
       = Some (speaker_key ++ of_ascii ": " ++ dquote
                 :: name ++ underscore :: identifier ++ dquote
                 :: tagged_rest).
Proof.
  intros Hid H1 H2 Hn. unfold tag_fields, literal. rewrite Hid. cbn [negb].
  eexists. split; [reflexivity|]. f_equal.
  assert (Esplit :
            speaker_key ++ ws1 ++ colon :: ws2 ++ dquote :: name
              ++ dquote :: rest
            = (speaker_key ++ ws1 ++ colon :: ws2 ++ dquote :: name
                 ++ [dquote]) ++ rest).
  { repeat (rewrite <- ?app_assoc; cbn [app]). reflexivity. }
  rewrite Esplit.
  rewrite (sub_with_head match_field (tagged_field identifier) _ rest name).
  - unfold tagged_field, tagged_speaker.
    repeat (rewrite <- ?app_assoc; cbn [app]). reflexivity.
  - destruct ws1; discriminate.
  - rewrite <- Esplit. unfold match_field.
    rewrite startswith_app, skipn_app_exact. unfold skip_ws.
    rewrite (lstrip_blank_app ws1 _ H1). cbn [lstrip].
    change (isspace colon) with false. cbv iota.
    rewrite char_eqb_refl.
    rewrite (lstrip_blank_app ws2 _ H2). cbn [lstrip].
    change (isspace dquote) with false. cbv iota.
    rewrite char_eqb_refl, (until_quote_value name rest Hn).
    f_equal. f_equal.
    repeat (rewrite ?length_app; cbn [List.length]). lia.
Qed.

Lemma X24_witness :
  tag_fields (Transcription.segment_identifier 3)
    (speaker_key ++ of_ascii " " ++ colon :: [] ++ dquote :: of_ascii "A"
       ++ dquote :: of_ascii ", " ++ field (of_ascii "B"))
  = Some (field (of_ascii "A_seg3") ++ of_ascii ", "
            ++ field (of_ascii "B_seg3")).
Proof.
  destruct (X24_field_tagged (Transcription.segment_identifier 3)
              (of_ascii "A") (of_ascii " ") []
              (of_ascii ", " ++ field (of_ascii "B"))
              eq_refl eq_refl eq_refl eq_refl)
    as (tagged_rest & Hrest & Hall).
  rewrite Hall. injection Hrest as <-. reflexivity.
Defined.

Variable nd : char -> bool.
Hypothesis nd_not_space : forall c, isspace c = true -> nd c = false.

Lemma space_not_decimal (c : char) :
  isspace c = true -> isdecimal nd c = false.
Proof.
  intros H. unfold isdecimal.
  destruct (c <? 128)%N eqn:E; [|apply nd_not_space; exact H].
  apply not_true_iff_false. intros Hd.
  unfold ascii_digit in Hd. apply andb_true_iff in Hd as [Hlo Hhi].
  apply N.leb_le in Hlo, Hhi.
  unfold isspace in H.
  repeat (apply orb_true_iff in H as [H | H]);
    try (apply andb_true_iff in H as [Ha Hb]; apply N.leb_le in Ha, Hb; lia);
    try (apply N.eqb_eq in H; lia).
Qed.

Lemma digit_not_space (c : char) :
  ascii_digit c = true -> isspace c = false.
Proof.
  intros Hd. apply not_true_iff_false. intros H.
  unfold ascii_digit in Hd. apply andb_true_iff in Hd as [Hlo Hhi].
  apply N.leb_le in Hlo, Hhi.
  unfold isspace in H.
  repeat (apply orb_true_iff in H as [H | H]);
    try (apply andb_true_iff in H as [Ha Hb]; apply N.leb_le in Ha, Hb; lia);
    try (apply N.eqb_eq in H; lia).
Qed.

Lemma ascii_digit_decimal (c : char) :
  ascii_digit c = true -> isdecimal nd c = true.
Proof.
  intros H. unfold isdecimal.
  replace (c <? 128)%N with true; [exact H|].
  symmetry. apply N.ltb_lt. unfold ascii_digit in H.
  apply andb_true_iff in H as [_ H]. apply N.leb_le in H. lia.
Qed.

Lemma take_digits_run (ds rest : str) :
  forallb ascii_digit ds = true ->
  match rest with
  | [] => True
  | c :: _ => isdecimal nd c = false
  end ->
  take_digits nd (ds ++ rest) = (ds, rest).
Proof.
  intros Hds Hrest. induction ds as [|d ds IH].
  - cbn [app]. destruct rest as [|c rest]; [reflexivity|].
    cbn [take_digits]. rewrite Hrest. reflexivity.
  - cbn [forallb] in Hds. apply andb_true_iff in Hds as [Hd Hds].
    cbn [app take_digits]. rewrite (ascii_digit_decimal d Hd), (IH Hds).
    reflexivity.
Qed.

Lemma match_label_run (word : str) (inner_ws : bool) (ds ws rest : str) :
  ds <> [] -> forallb ascii_digit ds = true -> forallb isspace ws = true ->
  match_label nd word inner_ws (word ++ ds ++ ws ++ colon :: rest)
  = Some (word ++ ds, List.length (word ++ ds ++ ws ++ [colon])).
Proof.
  intros Hne Hds Hws. unfold match_label.
  rewrite startswith_app, skipn_app_exact.
  assert (Hr1 : (if inner_ws then skip_ws (ds ++ ws ++ colon :: rest)
                 else ds ++ ws ++ colon :: rest)
                = ds ++ ws ++ colon :: rest).
  { destruct inner_ws; [|reflexivity].
    destruct ds as [|d ds']; [congruence|].
    cbn [forallb] in Hds. apply andb_true_iff in Hds as [Hd _].
    cbn [app]. unfold skip_ws. cbn [lstrip].
    rewrite (digit_not_space d Hd). reflexivity. }
  rewrite Hr1.
  rewrite (take_digits_run ds (ws ++ colon :: rest) Hds).
  - destruct ds as [|d ds']; [congruence|].
    unfold skip_ws. rewrite (lstrip_blank_app ws _ Hws). cbn [lstrip].
    change (isspace colon) with false. cbv iota.
    rewrite char_eqb_refl. f_equal. f_equal.
    + replace (List.length (word ++ (d :: ds') ++ ws ++ colon :: rest)
               - List.length (ws ++ colon :: rest))
        with (List.length (word ++ d :: ds') + 0)
        by (repeat (rewrite ?length_app; cbn [List.length]); lia).
      rewrite (app_assoc word (d :: ds')).
      rewrite firstn_app_2. cbn [firstn]. apply app_nil_r.
    + repeat (rewrite ?length_app; cbn [List.length]). lia.
  - destruct ws as [|c ws']; [reflexivity|].
    cbn [forallb] in Hws. apply andb_true_iff in Hws as [Hc _].
    cbn [app]. apply space_not_decimal. exact Hc.
Qed.

(** X25: for an identifier without backslash, a label made of one of the
    three label words and a number, followed by a colon with or without
    whitespace before it, gets the identifier appended after the number,
    and the whitespace before the colon is dropped. *)
Theorem X25_label_tagged (identifier : str) (word : str * bool)
  (ds ws rest : str) :
  existsb (char_eqb backslash) identifier = false ->
  In word label_words ->
  ds <> [] -> forallb ascii_digit ds = true -> forallb isspace ws = true ->
  exists tagged_rest,
    tag_labels nd identifier rest word = Some tagged_rest
    /\ tag_labels nd identifier
         (fst word ++ ds ++ ws ++ colon :: rest) word
       = Some (fst word ++ ds ++ underscore :: identifier
                 ++ colon :: tagged_rest).
Proof.
  intros Hid _ Hne Hds Hws. unfold tag_labels, literal. rewrite Hid.
  cbn [negb]. eexists. split; [reflexivity|]. f_equal.
  assert (Esplit : fst word ++ ds ++ ws ++ colon :: rest
                   = (fst word ++ ds ++ ws ++ [colon]) ++ rest).
  { repeat (rewrite <- ?app_assoc; cbn [app]). reflexivity. }
  rewrite Esplit.
  rewrite (sub_with_head _ (tagged_label identifier) _ rest
             (fst word ++ ds)).
  - unfold tagged_label, tagged_speaker.
    repeat (rewrite <- ?app_assoc; cbn [app]). reflexivity.
  - destruct (fst word); [destruct ds; [congruence|] |]; discriminate.
  - rewrite <- Esplit. apply match_label_run; assumption.
Qed.

Lemma tag_labels_absent (identifier text : str) (word : str * bool) :
  literal identifier = true ->
  fst word <> [] -> contains (fst word) text = false ->
  tag_labels nd identifier text word = Some text.
Proof.
  intros Hid Hne H. unfold tag_labels. rewrite Hid. f_equal.
  apply sub_with_none. intros k.
  unfold match_label. rewrite (contains_skipn _ text k Hne H). reflexivity.
Qed.

Lemma fold_labels_absent (identifier text : str)
  (words : list (str * bool)) :
  literal identifier = true ->
  (forall word, In word words ->
     fst word <> [] /\ contains (fst word) text = false) ->
  fold_left (fun text word =>
               match text with
               | Some t => tag_labels nd identifier t word
               | None => None
               end)
            words (Some text)
  = Some text.
Proof.
  intros Hid. induction words as [|word rest IH]; intros H; [reflexivity|].
  cbn [fold_left].
  destruct (H word (or_introl eq_refl)) as [Hne Hc].
  rewrite (tag_labels_absent identifier text word Hid Hne Hc).
  apply IH. intros w Hw. apply H. right. exact Hw.
Qed.

Variable py_str : json -> str.
Variable json_loads : str -> result json.
Variable json_dumps : json -> str.

(** X26: for a text that holds none of the three label words and is not
    read as JSON (it does not start with a brace or a bracket, or the
    parser rejects it), the function returns the text with its speaker
    fields tagged, and nothing else changed. *)
Theorem X26_fields_of_unparsed_text (text identifier : str) :
  existsb (char_eqb backslash) identifier = false ->
  forallb (fun word => negb (contains (fst word) text)) label_words = true ->
  looks_like_json text = false \/ json_loads text = Raise JSONDecodeError ->
  exists tagged,
    tag_fields identifier text = Some tagged
    /\ add_speaker_identifier nd py_str json_loads json_dumps text
         identifier
       = Some (Ok tagged).
Proof.
  intros Hid Hwords Hjson.
  assert (Hlit : literal identifier = true)
    by (unfold literal; rewrite Hid; reflexivity).
  assert (Hsome : exists tagged, tag_fields identifier text = Some tagged).
  { unfold tag_fields. rewrite Hlit. eexists. reflexivity. }
  destruct Hsome as [tagged Htagged]. exists tagged.
  split; [exact Htagged|].
  assert (Hplain : tag_plain_text nd identifier text = Some tagged).
  { unfold tag_plain_text.
    rewrite (fold_labels_absent identifier text label_words Hlit).
    - destruct (contains speaker_key text) eqn:E; [exact Htagged|].
      rewrite (tag_fields_absent identifier text Hlit E) in Htagged.
      exact Htagged.
    - rewrite forallb_forall in Hwords. intros word Hin. split.
      + destruct Hin as [<- | [<- | [<- | []]]]; discriminate.
      + apply negb_true_iff. apply Hwords. exact Hin. }
  unfold add_speaker_identifier.
  destruct Hjson as [H | H].
  - rewrite H, Hplain. reflexivity.
  - rewrite H, Hplain.
    destruct (looks_like_json text); reflexivity.
Qed.

End PlainTextTags.

Lemma X25_witness :
  SpeakerIdentifier.tag_labels (fun _ => false) (Py.of_ascii "seg2")
    ([35441; 32773]%N ++ Py.of_ascii "12" ++ Py.of_ascii " "
       ++ Py.colon :: Py.of_ascii " hello")
    ([35441; 32773]%N, false)
  = Some ([35441; 32773]%N ++ Py.of_ascii "12_seg2: hello")%list.
Proof.
  destruct (X25_label_tagged (fun _ => false) (fun _ _ => eq_refl)
              (Py.of_ascii "seg2") ([35441; 32773]%N, false)
              (Py.of_ascii "12") (Py.of_ascii " ") (Py.of_ascii " hello")
              eq_refl (or_introl eq_refl) ltac:(discriminate)
              eq_refl eq_refl)
    as (tagged_rest & Hrest & Hall).
  refine (eq_trans Hall _). injection Hrest as <-. reflexivity.
Defined.

Lemma X26_witness :
  SpeakerIdentifier.add_speaker_identifier (fun _ => false)
    (fun _ => []) (fun _ => Py.Raise SpeakerRemapper.JSONDecodeError)
    (fun _ => [])
    (Py.of_ascii "{" ++ SpeakerRemapper.field (Py.of_ascii "A")
       ++ Py.of_ascii "} {" ++ SpeakerRemapper.field (Py.of_ascii "B")
       ++ Py.of_ascii "}")
    (Transcription.segment_identifier 4)
  = Some (Py.Ok (Py.of_ascii "{"
                   ++ SpeakerRemapper.field (Py.of_ascii "A_seg4")
                   ++ Py.of_ascii "} {"
                   ++ SpeakerRemapper.field (Py.of_ascii "B_seg4")
                   ++ Py.of_ascii "}")).
Proof.
  destruct (X26_fields_of_unparsed_text (fun _ => false) (fun _ => [])
              (fun _ => Py.Raise SpeakerRemapper.JSONDecodeError)
              (fun _ => [])
              (Py.of_ascii "{" ++ SpeakerRemapper.field (Py.of_ascii "A")
                 ++ Py.of_ascii "} {"
                 ++ SpeakerRemapper.field (Py.of_ascii "B")
                 ++ Py.of_ascii "}")
              (Transcription.segment_identifier 4)
              eq_refl eq_refl (or_intror eq_refl))
    as (tagged & Htagged & Hall).
  rewrite Hall. injection Htagged as <-. reflexivity.
Defined.

(** ** The title file *)

Section TitleFile.
Import Py SpeakerRemapper MeetingTitleService.

Variable nd : char -> bool.

Lemma save_title_events (env : TitleEnv) (file_name : str) (title : json) :
  let '(saved, events) := _save_title env file_name title in
  (forall e, In e events ->
     e = Opened file_name \/ exists t, e = Written file_name t)
  /\ (saved = Ok tt ->
      exists t, events = [Opened file_name; Written file_name t]).
Proof.
  unfold _save_title.
  destruct (open_title env file_name) as [[]|e0].
  - destruct title as [| b | n | t | l | items];
      try (split; [intros e [<- | []]; left; reflexivity | discriminate]).
    destruct (write_title env file_name t) as [[]|e1].
    + split.
      * intros e [<- | [<- | []]]; [left; reflexivity|].
        right. exists t. reflexivity.
      * intros _. exists t. reflexivity.
    + split; [intros e [<- | []]; left; reflexivity | discriminate].
  - split; [intros e [] | discriminate].
Qed.

(** X27: whatever the collaborators do, a title file is opened or written
    only under the name made from the timestamp that the name of the
    transcript file carries, and a run that returns has sent one request,
    then opened and written the file whose name it returns. *)
Theorem X27_title_file_named_after_transcript (env : TitleEnv)
  (file_name : str) :
  let '(outcome, events) :=
    process_transcript_and_generate_title nd env file_name in
  (forall f,
     In (Opened f) events \/ (exists t, In (Written f t) events) ->
     exists timestamp,
       _extract_timestamp nd file_name = Ok timestamp
       /\ f = title_file_name timestamp)
  /\ (forall path, outcome = Ok path ->
      exists text t, events = [Asked text; Opened path; Written path t]).
Proof.
  unfold process_transcript_and_generate_title.
  assert (Hnone : forall (e : str) (evs : list event),
            (evs = [] \/ exists text, evs = [Asked text]) ->
            (forall f,
               In (Opened f) evs \/ (exists t, In (Written f t) evs) ->
               exists timestamp,
                 _extract_timestamp nd file_name = Ok timestamp
                 /\ f = title_file_name timestamp)
            /\ (forall path, @Raise str e = Ok path ->
                exists text t, evs = [Asked text; Opened path; Written path t])).
  { intros e evs Hevs. split; [|discriminate].
    intros f [H | [t H]]; destruct Hevs as [-> | [text ->]];
      simpl in H; try contradiction;
      destruct H as [H | []]; discriminate H. }
  destruct (method <- get_method env;;
            _ <- create_generator env method;; read_transcript env)
    as [transcript_text | e]; [|apply Hnone; left; reflexivity].
  unfold request_and_save. cbv zeta.
  set (text := text_for_title transcript_text).
  destruct (generate_title env text) as [reply | e];
    [|apply Hnone; right; exists text; reflexivity].
  destruct (title_of_reply env reply) as [title | e];
    [|apply Hnone; right; exists text; reflexivity].
  destruct (_extract_timestamp nd file_name) as [timestamp | e] eqn:Ets;
    [|apply Hnone; right; exists text; reflexivity].
  destruct (makedirs env) as [[] | e];
    [|apply Hnone; right; exists text; reflexivity].
  pose proof (save_title_events env (title_file_name timestamp) title) as Hs.
  destruct (_save_title env (title_file_name timestamp) title)
    as [saved events].
  destruct Hs as [Hev Hok]. split.
  - intros f H. exists timestamp. split; [reflexivity|].
    destruct H as [H | [t H]]; destruct H as [H | H]; try discriminate H.
    + destruct (Hev _ H) as [E | [t E]]; [|discriminate E].
      injection E as E. exact E.
    + destruct (Hev _ H) as [E | [t' E]]; [discriminate E|].
      injection E as E _. exact E.
  - intros path Hpath. destruct saved as [[] | e]; [|discriminate Hpath].
    injection Hpath as <-. destruct (Hok eq_refl) as [t ->].
    exists text, t. reflexivity.
Qed.

(** X28: in a run whose collaborators succeed on a transcript file named
    with a timestamp, the title written is the reply itself when the reply
    does not parse as JSON, and the value under [title] when it parses as
    an object in which that value is a string; when that value is not a
    string the title file is left opened, and so empty, and the run
    raises. *)
Theorem X28_title_written (env : TitleEnv)
  (file_name method transcript_text reply timestamp : str) :
  get_method env = Ok method -> create_generator env method = Ok tt ->
  read_transcript env = Ok transcript_text ->
  generate_title env (text_for_title transcript_text) = Ok reply ->
  _extract_timestamp nd file_name = Ok timestamp ->
  makedirs env = Ok tt ->
  (forall f, open_title env f = Ok tt) ->
  (forall f t, write_title env f t = Ok tt) ->
  let asked := Asked (text_for_title transcript_text) in
  let name := title_file_name timestamp in
  (parse_title env reply = Raise JSONDecodeError ->
   process_transcript_and_generate_title nd env file_name
   = (Ok name, [asked; Opened name; Written name reply]))
  /\ (forall items title,
        parse_title env reply = Ok (JObj items) ->
        get_title items (JStr reply) = JStr title ->
        process_transcript_and_generate_title nd env file_name
        = (Ok name, [asked; Opened name; Written name title]))
  /\ (forall items,
        parse_title env reply = Ok (JObj items) ->
        (forall title, get_title items (JStr reply) <> JStr title) ->
        process_transcript_and_generate_title nd env file_name
        = (Raise TypeError, [asked; Opened name])).
Proof.
  intros Hm Hg Hr Ht Hts Hd Ho Hw. cbv zeta.
  unfold process_transcript_and_generate_title, request_and_save.
  rewrite Hm. cbn [bind]. rewrite Hg. cbn [bind]. rewrite Hr, Ht.
  cbv zeta. unfold title_of_reply. split; [|split].
  - intros Hp. rewrite Hp. change (str_eqb JSONDecodeError JSONDecodeError)
      with true. cbv iota. rewrite Hts, Hd. unfold _save_title.
    rewrite Ho, Hw. reflexivity.
  - intros items title Hp Hg'. rewrite Hp, Hg', Hts, Hd.
    unfold _save_title. rewrite Ho, Hw. reflexivity.
  - intros items Hp Hg'. rewrite Hp, Hts, Hd. unfold _save_title.
    rewrite Ho.
    destruct (get_title items (JStr reply)) as [| b | n | t | l | kvs];
      try reflexivity.
    exfalso. exact (Hg' t eq_refl).
Qed.

End TitleFile.

Lemma X28_witness :
  MeetingTitleService.process_transcript_and_generate_title
    (fun _ => false)
    (MeetingTitleService.title_env (Py.of_ascii "Weekly sync")
       (Py.Raise SpeakerRemapper.JSONDecodeError))
    (Py.of_ascii "transcription_summary_20240131235959.txt")
  = (Py.Ok (Py.of_ascii "meetingtitle_20240131235959.txt"),
     [ MeetingTitleService.Asked (MeetingTitleService.entries 2);
       MeetingTitleService.Opened
         (Py.of_ascii "meetingtitle_20240131235959.txt");
       MeetingTitleService.Written
         (Py.of_ascii "meetingtitle_20240131235959.txt")
         (Py.of_ascii "Weekly sync") ]).
Proof.
  exact (proj1 (X28_title_written (fun _ => false)
                  (MeetingTitleService.title_env (Py.of_ascii "Weekly sync")
                     (Py.Raise SpeakerRemapper.JSONDecodeError))
                  (Py.of_ascii "transcription_summary_20240131235959.txt")
                  (Py.of_ascii "gemini") (MeetingTitleService.entries 2)
                  (Py.of_ascii "Weekly sync") (Py.of_ascii "20240131235959")
                  eq_refl eq_refl eq_refl eq_refl eq_refl eq_refl
                  (fun _ => eq_refl) (fun _ _ => eq_refl))
           eq_refl).
Defined.

(** ** The threshold at which silence is looked for *)

Section Thresholds.
Import AudioSplitter.
Local Open Scope Z_scope.

Context {lib : AudioLib}.

Lemma threshold_loop_first (search_segment : audio)
  (before after : list Z) (thresh : Z) :
  (forall u, In u before ->
     detect_silence search_segment min_silence_len u = []) ->
  detect_silence search_segment min_silence_len thresh <> [] ->
  forall silence_ranges,
  threshold_loop search_segment (before ++ thresh :: after) silence_ranges
  = detect_silence search_segment min_silence_len thresh.
Proof.
  intros Hb Ht. induction before as [|u rest IH]; intros ranges.
  - cbn [app threshold_loop].
    destruct (detect_silence search_segment min_silence_len thresh);
      [congruence | reflexivity].
  - cbn [app threshold_loop]. rewrite (Hb u (or_introl eq_refl)).
    apply IH. intros v Hv. apply Hb. right. exact Hv.
Qed.

Lemma threshold_loop_none (search_segment : audio) (todo : list Z) :
  (forall u, In u todo ->
     detect_silence search_segment min_silence_len u = []) ->
  forall silence_ranges,
  todo <> [] -> threshold_loop search_segment todo silence_ranges = [].
Proof.
  induction todo as [|u rest IH]; intros H ranges Hne; [congruence|].
  cbn [threshold_loop]. rewrite (H u (or_introl eq_refl)).
  destruct rest as [|v rest']; [reflexivity|].
  apply IH; [|discriminate]. intros w Hw. apply H. right. exact Hw.
Qed.

(** X29: in a window wide enough to be searched, the boundary is taken from
    the silences of the strictest threshold (from -40 dB up to -25 dB) at
    which some silence is found: it is the start of the window plus the
    middle, chosen by [_select_best_silence], of one of those silences, and
    the looser thresholds are not consulted. When no threshold finds a
    silence the boundary is the start of the window plus the quietest
    position. *)
Theorem X29_strictest_threshold (a : audio) (target_ms : Z) :
  min_silence_len * 2 <= search_end a target_ms - search_start a target_ms ->
  let search_segment :=
    slice a (search_start a target_ms) (search_end a target_ms) in
  (forall before thresh after,
     thresholds = before ++ thresh :: after ->
     (forall u, In u before ->
        detect_silence search_segment min_silence_len u = []) ->
     detect_silence search_segment min_silence_len thresh <> [] ->
     _find_optimal_split_point a target_ms
     = search_start a target_ms
       + _select_best_silence
           (detect_silence search_segment min_silence_len thresh)
           (Z.min target_ms (len a) - search_start a target_ms))
  /\ ((forall u, In u thresholds ->
         detect_silence search_segment min_silence_len u = []) ->
      _find_optimal_split_point a target_ms
      = search_start a target_ms
        + _find_min_volume_position search_segment).
Proof.
  intros Hwide. cbv zeta. unfold _find_optimal_split_point. cbv zeta.
  replace (search_end a target_ms - search_start a target_ms
             <? min_silence_len * 2) with false
    by (symmetry; apply Z.ltb_ge; exact Hwide).
  split.
  - intros before thresh after Hth Hb Ht. rewrite Hth.
    rewrite (threshold_loop_first _ before after thresh Hb Ht).
    destruct (detect_silence
                (slice a (search_start a target_ms) (search_end a target_ms))
                min_silence_len thresh) eqn:E; [congruence | reflexivity].
  - intros Hnone.
    rewrite (threshold_loop_none _ thresholds Hnone []); [reflexivity|].
    discriminate.
Qed.

End Thresholds.

Lemma X29_witness :
  @AudioSplitter._find_optimal_split_point AudioSplitter.synth_lib
    AudioSplitter.short_recording 10000
  = (0 + AudioSplitter._select_best_silence [(14000, 16000)] 10000)%Z
  /\ @AudioSplitter._find_optimal_split_point AudioSplitter.synth_lib
       AudioSplitter.short_recording 30000
     = (20000 + 50)%Z.
Proof.
  destruct (@X29_strictest_threshold AudioSplitter.synth_lib
              AudioSplitter.short_recording 10000)
    as [Hfound _]; [vm_compute; discriminate|].
  destruct (@X29_strictest_threshold AudioSplitter.synth_lib
              AudioSplitter.short_recording 30000)
    as [_ Hnone]; [vm_compute; discriminate|].
  split.
  - apply (Hfound [] (-40)%Z [-35; -30; -25]%Z eq_refl).
    + intros u [].
    + discriminate.
  - rewrite Hnone; [reflexivity|]. intros u _. reflexivity.
Defined.

(** ** The markers left in the text sent for the title *)

Section TitleTruncation.
Import Py MeetingTitleService.

Lemma startswith_firstn (p s : str) (k : nat) :
  startswith p s = true -> List.length p <= k ->
  startswith p (firstn k s) = true.
Proof.
  revert s k. induction p as [|x p IH]; intros s k H Hk; [reflexivity|].
  destruct s as [|y s]; [discriminate H|].
  destruct k as [|k]; [simpl in Hk; lia|].
  cbn [startswith] in H. apply andb_true_iff in H as [Hxy Hp].
  cbn [firstn startswith]. rewrite Hxy. cbn [andb].
  apply IH; [exact Hp | simpl in Hk; lia].
Qed.

Lemma startswith_of_firstn (p s : str) (k : nat) :
  startswith p (firstn k s) = true -> startswith p s = true.
Proof.
  revert s k. induction p as [|x p IH]; intros s k H; [reflexivity|].
  destruct s as [|y s]; [rewrite firstn_nil in H; discriminate H|].
  destruct k as [|k]; [discriminate H|].
  cbn [firstn startswith] in H. apply andb_true_iff in H as [Hxy Hp].
  cbn [startswith]. rewrite Hxy. cbn [andb]. exact (IH s k Hp).
Qed.

(** No marker starts inside a marker. *)
Lemma marker_no_overlap (s : str) (d : nat) :
  startswith marker s = true -> d < 9 ->
  startswith marker (skipn d (skipn 1 s)) = false.
Proof.
  intros H Hd. apply startswith_split in H. rewrite H.
  change marker with [34; 115; 112; 101; 97; 107; 101; 114; 34; 58]%N.
  do 9 (destruct d as [|d]; [reflexivity|]). lia.
Qed.

(** The first marker ahead when [sk] characters are still to pass: where
    it is, and how the count splits at it. *)
Lemma first_marker (u : str) :
  forall sk,
  (forall d, d < sk -> startswith marker (skipn d u) = false) ->
  1 <= count_from marker sk u ->
  exists r,
    sk <= r
    /\ (forall i, find_at marker u i = (i + Z.of_nat r)%Z)
    /\ startswith marker (skipn r u) = true
    /\ count_from marker sk (firstn r u) = 0
    /\ count_from marker sk u
       = S (count_from marker 9 (skipn (S r) u))
    /\ forall m, 9 <= m ->
       count_from marker sk (firstn (S r + m) u)
       = S (count_from marker 9 (firstn m (skipn (S r) u))).
Proof.
  induction u as [|c u IH]; intros sk Hno Hcount; [simpl in Hcount; lia|].
  destruct sk as [|k].
  - cbn [count_from] in Hcount.
    destruct (startswith marker (c :: u)) eqn:E.
    + exists 0. split; [lia|]. split; [|split; [exact E|]].
      * intros i. cbn [find_at]. rewrite E. lia.
      * split; [reflexivity|]. split.
        -- cbn [count_from]. rewrite E. reflexivity.
        -- intros m Hm.
           assert (E1 : startswith marker (firstn (S m) (c :: u)) = true)
             by (apply startswith_firstn; [exact E | simpl; lia]).
           cbn [firstn] in E1. change (1 + m) with (S m).
           cbn [firstn count_from skipn]. rewrite E1.
           reflexivity.
    + destruct (IH 0 ltac:(intros d Hd; lia) Hcount)
        as (r & _ & Hfind & Hs & Hzero & Hall & Hpre).
      exists (S r). split; [lia|]. split; [|split; [exact Hs|]].
      * intros i. cbn [find_at]. rewrite E, Hfind. lia.
      * split; [|split].
        -- cbn [firstn count_from].
           destruct (startswith marker (c :: firstn r u)) eqn:E'.
           ++ apply (startswith_of_firstn marker (c :: u) (S r)) in E'.
              rewrite E in E'. discriminate E'.
           ++ exact Hzero.
        -- cbn [count_from skipn]. rewrite E. exact Hall.
        -- intros m Hm. change (S (S r) + m) with (S (S r + m)).
           cbn [firstn count_from].
           destruct (startswith marker (c :: firstn (S r + m) u)) eqn:E'.
           ++ apply (startswith_of_firstn marker (c :: u) (S (S r + m)))
                in E'.
              rewrite E in E'. discriminate E'.
           ++ cbn [skipn]. exact (Hpre m Hm).
  - cbn [count_from] in Hcount.
    assert (E : startswith marker (c :: u) = false)
      by (apply (Hno 0); lia).
    destruct (IH k ltac:(intros d Hd; apply (Hno (S d)); lia) Hcount)
      as (r & Hr & Hfind & Hs & Hzero & Hall & Hpre).
    exists (S r). split; [lia|]. split; [|split; [exact Hs|]].
    + intros i. cbn [find_at]. rewrite E, Hfind. lia.
    + split; [exact Hzero|]. split; [exact Hall|].
      intros m Hm. change (S (S r) + m) with (S (S r + m)).
      cbn [firstn count_from skipn]. exact (Hpre m Hm).
Qed.

(** After [n + 1] turns of the loop the index is that of a marker before
    which exactly [n] markers stand. *)
Lemma find_loop_counts (t : str) (n : nat) :
  forall (a : nat) (ci0 fc0 : Z) (sk : nat),
  (-1 <= ci0)%Z ->
  (forall d, d < sk ->
     startswith marker (skipn d (skipn (Z.to_nat (ci0 + 1)) t)) = false) ->
  S n <= count_from marker sk (skipn (Z.to_nat (ci0 + 1)) t) ->
  exists ci,
    find_loop (seq a (S n)) t ci0 fc0 t = (ci, (Z.of_nat (a + n) + 1)%Z, t)
    /\ (ci0 + 1 + Z.of_nat sk <= ci)%Z
    /\ count_from marker sk
         (firstn (Z.to_nat (ci - (ci0 + 1)))
                 (skipn (Z.to_nat (ci0 + 1)) t))
       = n.
Proof.
  induction n as [|n IH]; intros a ci0 fc0 sk Hci Hno Hcount.
  - destruct (first_marker _ sk Hno ltac:(lia))
      as (r & Hr & Hfind & Hs & Hzero & _ & _).
    assert (Hlen : Z.to_nat (ci0 + 1) <= List.length t).
    { destruct (Nat.le_gt_cases (Z.to_nat (ci0 + 1)) (List.length t))
        as [H | H]; [exact H|].
      rewrite skipn_all2 in Hcount by lia. simpl in Hcount. lia. }
    exists (ci0 + 1 + Z.of_nat r)%Z. cbn [seq find_loop].
    unfold find.
    replace (Z.of_nat (List.length t) <? ci0 + 1)%Z with false
      by (symmetry; apply Z.ltb_ge; lia).
    rewrite Hfind.
    replace (ci0 + 1 + Z.of_nat r =? -1)%Z with false
      by (symmetry; apply Z.eqb_neq; lia).
    rewrite Nat.add_0_r. split; [reflexivity|]. split; [lia|].
    replace (Z.to_nat (ci0 + 1 + Z.of_nat r - (ci0 + 1))) with r by lia.
    exact Hzero.
  - destruct (first_marker _ sk Hno ltac:(lia))
      as (r & Hr & Hfind & Hs & _ & Hall & Hpre).
    assert (Hlen : Z.to_nat (ci0 + 1) <= List.length t).
    { destruct (Nat.le_gt_cases (Z.to_nat (ci0 + 1)) (List.length t))
        as [H | H]; [exact H|].
      rewrite skipn_all2 in Hcount by lia. simpl in Hcount. lia. }
    set (j := (ci0 + 1 + Z.of_nat r)%Z).
    assert (Hskip : skipn (S r) (skipn (Z.to_nat (ci0 + 1)) t)
                    = skipn (Z.to_nat (j + 1)) t).
    { rewrite skipn_skipn. f_equal. unfold j. lia. }
    assert (Hat : skipn r (skipn (Z.to_nat (ci0 + 1)) t)
                  = skipn (Z.to_nat j) t).
    { rewrite skipn_skipn. f_equal. unfold j. lia. }
    rewrite Hat in Hs. rewrite Hskip in Hall.
    assert (Hno' : forall d, d < 9 ->
              startswith marker (skipn d (skipn (Z.to_nat (j + 1)) t))
              = false).
    { intros d Hd.
      replace (skipn (Z.to_nat (j + 1)) t)
        with (skipn 1 (skipn (Z.to_nat j) t))
        by (rewrite skipn_skipn; f_equal; unfold j; lia).
      apply marker_no_overlap; assumption. }
    destruct (IH (S a) j (Z.of_nat a + 1)%Z 9 ltac:(unfold j; lia) Hno'
                ltac:(lia))
      as (ci & Hloop & Hge & Hn).
    exists ci. change (seq a (S (S n))) with (a :: seq (S a) (S n)).
    cbn [find_loop]. unfold find.
    replace (Z.of_nat (List.length t) <? ci0 + 1)%Z with false
      by (symmetry; apply Z.ltb_ge; lia).
    rewrite Hfind. fold j.
    replace (j =? -1)%Z with false
      by (symmetry; apply Z.eqb_neq; unfold j; lia).
    rewrite Hloop. split; [f_equal; f_equal; lia|]. split; [lia|].
    replace (Z.to_nat (ci - (ci0 + 1)))
      with (S r + Z.to_nat (ci - (j + 1))) by (unfold j in *; lia).
    rewrite Hpre by lia. rewrite Hskip, Hn. reflexivity.
Qed.

(** X30: when the transcript holds more than 60 markers, the text sent for
    the title holds exactly 59 of them: the cut is made where the 60th
    marker starts. *)
Theorem X30_markers_left (transcript_text : str) :
  60 < count marker transcript_text ->
  count marker (text_for_title transcript_text) = 59.
Proof.
  intros Hcount.
  change (count marker transcript_text)
    with (count_from marker 0 transcript_text) in Hcount.
  destruct (find_loop_counts transcript_text 59 0 (-1)%Z 0%Z 0 ltac:(lia)
              ltac:(intros d Hd; lia) ltac:(simpl; lia))
    as (ci & Hloop & Hge & Hn).
  unfold text_for_title. cbv zeta.
  change (count marker transcript_text)
    with (count_from marker 0 transcript_text).
  replace (Z.of_nat (count_from marker 0 transcript_text) =? 0)%Z
    with false by (symmetry; apply Z.eqb_neq; lia).
  replace (60 <? Z.of_nat (count_from marker 0 transcript_text))%Z
    with true by (symmetry; apply Z.ltb_lt; lia).
  rewrite Hloop. change (Z.of_nat (0 + 59) + 1 =? 60)%Z with true.
  cbv iota. unfold slice_to.
  change (skipn (Z.to_nat (-1 + 1)) transcript_text)
    with transcript_text in Hn.
  replace (Z.to_nat (ci - (-1 + 1))) with (Z.to_nat ci) in Hn by lia.
  exact Hn.
Qed.

Lemma X30_witness :
  60 < count marker (entries 61)
  /\ count marker (text_for_title (entries 61)) = 59.
Proof.
  assert (H : 60 < count marker (entries 61))
    by (vm_compute; repeat constructor).
  split; [exact H | exact (X30_markers_left (entries 61) H)].
Defined.

End TitleTruncation.
